(** * Reconciliation engine of aidot: scan/apply, merge engines and the
    conflict decision state machine, embedded in Rocq.

    Sources: src/src/adapters/helpers.rs (normalize_content),
    src/src/adapters/conflict.rs (ConflictMode, resolve_conflict, ask_user,
    write_with_conflict), src/src/adapters/traits.rs (ApplyResult,
    ScanResult), src/src/adapters/common.rs (apply_json_merge),
    src/src/adapters/claude_code.rs (ClaudeCodeAdapter::apply and its
    sections) and src/src/commands/pull.rs (pull_preset).

    Modelling conventions.
    - Rust [&str]/[String] contents are Rocq [string]s, the UTF-8 bytes of
      the text.  [normalize_content] decodes them into Unicode scalar values
      ([UTF8.decode]), works on those with Rust's [char::is_whitespace] (the
      Unicode White_Space characters) and encodes the result back.  The
      other text helpers (the front-matter functions, the trimming and
      lowering of typed answers) work on the bytes, with whitespace and
      case restricted to ASCII (TAB, LF, VT, FF, CR, SPACE; A-Z).
    - The filesystem is a [gmap string string] from paths (relative to the
      project directory) to the text of existing files; directories are not
      files and [create_dir_all] has no observable effect.  I/O on files is
      taken to succeed.
    - Standard input is a list of [read_line] outcomes: [Some line] is a
      successful read, [None] a read error; the end of the list is end of
      file, where [read_line] succeeds with an empty line.
    - [&mut] arguments (the conflict mode, the apply result) are passed in
      and returned, as the code threads them.  conflict.rs mutates the mode
      in place while claude_code.rs and pull.rs assign the mode each call of
      [write_with_conflict] gives back; both read as [write_with_conflict]
      returning the updated mode.  [pull_preset] hands the decided mode to
      [apply_root_files] and to every [tool.apply] by value.
    - [target_dir.join(p)] is the path [p] (root files, the [.claude]
      tree) or [target_dir ++ "/" ++ p] ([apply_one_to_one]).
    - [serde_json::Value] is the inductive [Value]; [serde_json::from_str]
      and [serde_json::to_string_pretty] are parameters of the adapters.
    - An apply run is a state and error monad [M] over the files and the
      input; a [?] on a JSON error, or a panic of [IndexMut], ends the run
      with the writes done so far kept. *)

From stdpp Require Import base gmap strings list.
From Stdlib Require Import Ascii String.

Open Scope string_scope.

(* ================================================================= *)
(** ** Text functions of helpers.rs *)
(* ================================================================= *)

(** The ending of a terminated line. *)
Inductive line_ending := EndLF | EndCRLF.

(** The text functions are written once over a character type with its
    equality, its whitespace test, the line feed and the carriage return;
    [Text] instantiates them on ASCII characters (bytes) and [UText] on
    Unicode scalar values, the characters a Rust [&str] iterates over. *)
Module GText.
Section Generic.
Context {C : Type} (eqb : C -> C -> bool) (is_ws : C -> bool) (nl cr : C).
Local Open Scope list_scope.

(** [str::trim_end]: drop trailing whitespace. *)
Fixpoint trim_end (l : list C) : list C :=
  match l with
  | [] => []
  | c :: t =>
      match trim_end t with
      | [] => if is_ws c then [] else [c]
      | t' => c :: t'
      end
  end.

(** [str::trim_start]: drop leading whitespace. *)
Fixpoint trim_start (l : list C) : list C :=
  match l with
  | [] => []
  | c :: t => if is_ws c then trim_start t else l
  end.

(** [str::trim]: both ends. *)
Definition trim (l : list C) : list C := trim_start (trim_end l).

(** [str::split_inclusive('\n')], as the pieces that end in a line feed
    (with the line feed removed) and the unterminated rest. *)
Fixpoint split_nl (l : list C) : list (list C) * list C :=
  match l with
  | [] => ([], [])
  | c :: t =>
      let (ps, rest) := split_nl t in
      if eqb c nl then ([] :: ps, rest)
      else match ps with
           | [] => ([], c :: rest)
           | p :: ps' => ((c :: p) :: ps', rest)
           end
  end.

(** [line.strip_suffix('\r')] on a line that ended in a line feed. *)
Definition strip_cr (p : list C) : list C :=
  match rev p with
  | c :: r => if eqb c cr then rev r else p
  | [] => p
  end.

(** [str::lines]: lines split at LF or CRLF; the final line ending is
    optional, so an empty unterminated rest is no line. *)
Definition lines (l : list C) : list (list C) :=
  let (ps, rest) := split_nl l in
  map strip_cr ps ++ match rest with [] => [] | _ => [rest] end.

(** [Vec<&str>::join("\n")]. *)
Fixpoint join_nl (ps : list (list C)) : list C :=
  match ps with
  | [] => []
  | [p] => p
  | p :: r => p ++ nl :: join_nl r
  end.

(** [normalize_content], helpers.rs:
    [content.lines().map(|line| line.trim_end()).collect::<Vec<_>>()
     .join("\n").trim().to_string()]. *)
Definition normalize (l : list C) : list C :=
  trim (join_nl (map trim_end (lines l))).

(** Auxiliary predicates of the proofs. *)
Definition has_nl (l : list C) : bool := existsb (fun c => eqb c nl) l.

(** No whitespace other than a line feed stands right before a line feed. *)
Definition pair_ok (c : C) (t : list C) : bool :=
  match t with
  | d :: _ => negb (eqb d nl) || eqb c nl || negb (is_ws c)
  | [] => true
  end.

Fixpoint clean (l : list C) : bool :=
  match l with
  | [] => true
  | c :: t => pair_ok c t && clean t
  end.

Definition unsplit (ps : list (list C)) (r : list C) : list C :=
  List.concat (map (fun p => p ++ [nl]) ps) ++ r.

(** A terminated line: its text, its pad and its ending, the line feed
    apart. *)
Definition piece (it : list C * list C * line_ending) : list C :=
  let '(l, w, e) := it in l ++ w ++ match e with EndLF => [] | EndCRLF => [cr] end.

End Generic.
End GText.

Module Text.

Definition nl : ascii := "010"%char.
Definition cr : ascii := "013"%char.

(** [char::is_whitespace] on ASCII characters. *)
Definition is_ws (c : ascii) : bool :=
  match nat_of_ascii c with
  | 9 | 10 | 11 | 12 | 13 | 32 => true
  | _ => false
  end.

Abbreviation trim_end := (GText.trim_end is_ws).
Abbreviation trim_start := (GText.trim_start is_ws).
Abbreviation trim := (GText.trim is_ws).
Abbreviation split_nl := (GText.split_nl Ascii.eqb nl).
Abbreviation strip_cr := (GText.strip_cr Ascii.eqb cr).
Abbreviation lines := (GText.lines Ascii.eqb nl cr).
Abbreviation join_nl := (GText.join_nl nl).

End Text.

(** Unicode scalar values, as Rust's [char]. *)
Module UText.

Definition nl : Z := 10.
Definition cr : Z := 13.

(** [char::is_whitespace]: the characters with the Unicode White_Space
    property. *)
Definition is_ws (c : Z) : bool :=
  ((9 <=? c) && (c <=? 13))%Z || (c =? 32)%Z || (c =? 0x85)%Z || (c =? 0xA0)%Z ||
  (c =? 0x1680)%Z || ((0x2000 <=? c) && (c <=? 0x200A))%Z || (c =? 0x2028)%Z ||
  (c =? 0x2029)%Z || (c =? 0x202F)%Z || (c =? 0x205F)%Z || (c =? 0x3000)%Z.

Abbreviation trim_end := (GText.trim_end is_ws).
Abbreviation trim_start := (GText.trim_start is_ws).
Abbreviation trim := (GText.trim is_ws).
Abbreviation lines := (GText.lines Z.eqb nl cr).
Abbreviation join_nl := (GText.join_nl nl).
Abbreviation normalize := (GText.normalize Z.eqb is_ws nl cr).

End UText.

(** UTF-8: a Rocq [string] is the byte sequence of the Rust [String];
    [decode] gives its characters, [encode] ([char::encode_utf8] on each)
    the bytes back.  A Rust [String] is always well-formed UTF-8; on bytes
    that are not, [decode] reads each byte that does not start a
    well-formed sequence as U+FFFD. *)
Module UTF8.
Local Open Scope Z_scope.

Definition byte_val (b : ascii) : Z := Z.of_nat (nat_of_ascii b).
Definition byte (z : Z) : ascii := ascii_of_nat (Z.to_nat z).

Definition is_cont (b : ascii) : bool := (0x80 <=? byte_val b) && (byte_val b <=? 0xBF).
Definition cont (b : ascii) : Z := byte_val b - 0x80.

Fixpoint decode (l : list ascii) : list Z :=
  match l with
  | [] => []
  | b0 :: r =>
      let n0 := byte_val b0 in
      if n0 <? 0x80 then n0 :: decode r else
      match r with
      | [] => 0xFFFD :: decode r
      | b1 :: r1 =>
          if (0xC2 <=? n0) && (n0 <=? 0xDF) && is_cont b1
          then ((n0 - 0xC0) * 64 + cont b1) :: decode r1 else
          match r1 with
          | [] => 0xFFFD :: decode r
          | b2 :: r2 =>
              let v3 := (n0 - 0xE0) * 4096 + cont b1 * 64 + cont b2 in
              if (0xE0 <=? n0) && (n0 <=? 0xEF) && is_cont b1 && is_cont b2 &&
                 (0x800 <=? v3) && negb ((0xD800 <=? v3) && (v3 <=? 0xDFFF))
              then v3 :: decode r2 else
              match r2 with
              | [] => 0xFFFD :: decode r
              | b3 :: r3 =>
                  let v4 := (n0 - 0xF0) * 262144 + cont b1 * 4096 + cont b2 * 64 + cont b3 in
                  if (0xF0 <=? n0) && (n0 <=? 0xF4) && is_cont b1 && is_cont b2 && is_cont b3 &&
                     (0x10000 <=? v4) && (v4 <=? 0x10FFFF)
                  then v4 :: decode r3
                  else 0xFFFD :: decode r
              end
          end
      end
  end%list.

Definition encode_char (c : Z) : list ascii :=
  if c <? 0x80 then [byte c]
  else if c <? 0x800 then [byte (0xC0 + c / 64); byte (0x80 + c mod 64)]
  else if c <? 0x10000 then
    [byte (0xE0 + c / 4096); byte (0x80 + (c / 64) mod 64); byte (0x80 + c mod 64)]
  else [byte (0xF0 + c / 262144); byte (0x80 + (c / 4096) mod 64);
        byte (0x80 + (c / 64) mod 64); byte (0x80 + c mod 64)].

Definition encode (l : list Z) : list ascii := List.concat (map encode_char l).

(** A Unicode scalar value. *)
Definition valid_scalar (c : Z) : bool :=
  (0 <=? c) && (c <? 0x110000) && negb ((0xD800 <=? c) && (c <=? 0xDFFF)).

End UTF8.

(** [normalize_content] (helpers.rs), on the characters of the string. *)
Definition normalize_content (s : string) : string :=
  string_of_list_ascii (UTF8.encode (UText.normalize (UTF8.decode (list_ascii_of_string s)))).

Definition LF : string := String Text.nl EmptyString.
Definition CRLF : string := String Text.cr LF.
(** U+00A0 NO-BREAK SPACE, a whitespace character of two bytes. *)
Definition NBSP : string := String "194"%char (String "160"%char EmptyString).


(** Strings that differ only in trailing whitespace per line and in the
    line-ending style.  A text is a list of terminated lines
    [(line, pad, ending)] and a final unterminated line [(line, pad)]; each
    pad is whitespace (any Unicode White_Space character) other than a line
    feed; every part is a well-formed UTF-8 string, as a Rust [&str] is. *)
Definition eol (e : line_ending) : string :=
  match e with EndLF => LF | EndCRLF => CRLF end.

Fixpoint render_lines (items : list (string * string * line_ending)) (last : string * string) : string :=
  match items with
  | [] => fst last ++ snd last
  | (l, w, e) :: r => l ++ w ++ eol e ++ render_lines r last
  end.

(** The same lines joined by a single line feed, without pads. *)
Fixpoint plain_lines (items : list (string * string * line_ending)) (last : string * string) : string :=
  match items with
  | [] => fst last
  | (l, _, _) :: r => l ++ LF ++ plain_lines r last
  end.

Definition utf8_ok (s : string) : bool :=
  String.eqb (string_of_list_ascii (UTF8.encode (UTF8.decode (list_ascii_of_string s)))) s.

Definition line_text_ok (l : string) : bool :=
  utf8_ok l && negb (existsb (fun c => Z.eqb c UText.nl) (UTF8.decode (list_ascii_of_string l))).

Definition pad_ok (w : string) : bool :=
  utf8_ok w &&
  forallb (fun c => UText.is_ws c && negb (Z.eqb c UText.nl)) (UTF8.decode (list_ascii_of_string w)).

Definition lines_ok (items : list (string * string * line_ending)) (last : string * string) : bool :=
  forallb (fun '(l, w, _) => line_text_ok l && pad_ok w) items
  && line_text_ok (fst last) && pad_ok (snd last).


(* ================================================================= *)
(** ** Conflict decisions (conflict.rs) *)
(* ================================================================= *)

(** [ConflictMode]. *)
Inductive ConflictMode :=
  | Force
  | Skip
  | Ask
  | PreResolved (decisions : gmap string bool) (fallback_all : option bool).

(** [ConflictDecision]. *)
Module ConflictDecision.
Inductive t := Overwrite | Skip | OverwriteAll | SkipAll | ShowDiff.
End ConflictDecision.

(** Standard input: each [read_line] either yields a line ([Some]) or
    fails ([None]); past the end of the list, [read_line] reads an empty
    line (end of file). *)
Definition stdin := list (option string).

Definition str_trim (s : string) : string :=
  string_of_list_ascii (Text.trim (list_ascii_of_string s)).

Definition str_in (s : string) (alts : list string) : bool :=
  existsb (String.eqb s) alts.

(** The [match input.trim()] arms of [ask_user]; [None] is the fallback arm
    that prints a hint and asks again. *)
Definition classify_answer (diff_available : bool) (input : string) : option ConflictDecision.t :=
  if str_in input ["o"; "y"; "yes"] then Some ConflictDecision.Overwrite
  else if str_in input ["s"; "n"; "no"] then Some ConflictDecision.Skip
  else if String.eqb input "d" && diff_available then Some ConflictDecision.ShowDiff
  else if str_in input ["O"; "a"; "all"] then Some ConflictDecision.OverwriteAll
  else if str_in input ["S"; "N"] then Some ConflictDecision.SkipAll
  else if String.eqb input "" then Some ConflictDecision.Skip
  else None.

(** [ConflictMode::ask_user]: prompt until an answer is recognised; a read
    error answers [Skip]; at end of file the line read is empty. *)
Fixpoint ask_user (diff_available : bool) (inp : stdin) : ConflictDecision.t * stdin :=
  match inp with
  | [] => (ConflictDecision.Skip, [])
  | None :: rest => (ConflictDecision.Skip, rest)
  | Some line :: rest =>
      match classify_answer diff_available (str_trim line) with
      | Some d => (d, rest)
      | None => ask_user diff_available rest
      end
  end.

(** The [loop] of [resolve_conflict]: ask, and ask again after [ShowDiff].
    Every [ShowDiff] answer consumes one input line, so [S (length inp)]
    rounds are never exhausted ([resolve_loop] below). *)
Fixpoint decision_loop (fuel : nat) (diff_available : bool) (inp : stdin) : ConflictDecision.t * stdin :=
  match fuel with
  | O => (ConflictDecision.Skip, inp)
  | S f =>
      match ask_user diff_available inp with
      | (ConflictDecision.ShowDiff, rest) => decision_loop f diff_available rest
      | r => r
      end
  end.

Definition resolve_loop (diff_available : bool) (inp : stdin) : ConflictDecision.t * stdin :=
  decision_loop (S (List.length inp)) diff_available inp.

(** [ConflictMode::resolve_conflict]: whether to write, the (possibly
    mutated) mode, and the remaining input. *)
Definition resolve_conflict (mode : ConflictMode) (file_path : string)
    (existing_content new_content : option string) (inp : stdin) : bool * ConflictMode * stdin :=
  let diff_available := bool_decide (is_Some existing_content) && bool_decide (is_Some new_content) in
  match mode with
  | Force => (true, Force, inp)
  | Skip => (false, Skip, inp)
  | PreResolved decisions fallback_all =>
      match decisions !! file_path with
      | Some should_write => (should_write, mode, inp)
      | None =>
          match fallback_all with
          | Some should_write => (should_write, mode, inp)
          | None =>
              match resolve_loop diff_available inp with
              | (ConflictDecision.Overwrite, rest) => (true, mode, rest)
              | (ConflictDecision.OverwriteAll, rest) => (true, PreResolved decisions (Some true), rest)
              | (ConflictDecision.SkipAll, rest) => (false, PreResolved decisions (Some false), rest)
              | (_, rest) => (false, mode, rest)
              end
          end
      end
  | Ask =>
      match resolve_loop diff_available inp with
      | (ConflictDecision.Overwrite, rest) => (true, Ask, rest)
      | (ConflictDecision.OverwriteAll, rest) => (true, Force, rest)
      | (ConflictDecision.SkipAll, rest) => (false, Skip, rest)
      | (_, rest) => (false, Ask, rest)
      end
  end.

(** [ApplyResult] (traits.rs). *)
Record ApplyResult := {
  created : list string;
  updated : list string;
  skipped : list string;
  unchanged : list string;
}.

Definition ApplyResult_new : ApplyResult := {| created := []; updated := []; skipped := []; unchanged := [] |}.

Definition add_created (r : ApplyResult) (p : string) : ApplyResult :=
  {| created := created r ++ [p]; updated := updated r; skipped := skipped r; unchanged := unchanged r |}.
Definition add_updated (r : ApplyResult) (p : string) : ApplyResult :=
  {| created := created r; updated := updated r ++ [p]; skipped := skipped r; unchanged := unchanged r |}.
Definition add_skipped (r : ApplyResult) (p : string) : ApplyResult :=
  {| created := created r; updated := updated r; skipped := skipped r ++ [p]; unchanged := unchanged r |}.
Definition add_unchanged (r : ApplyResult) (p : string) : ApplyResult :=
  {| created := created r; updated := updated r; skipped := skipped r; unchanged := unchanged r ++ [p] |}.

(** The observable world: the files of the project and standard input. *)
Record world := { fs : gmap string string; input : stdin }.

Definition write_file (w : world) (path content : string) : world :=
  {| fs := <[path := content]> (fs w); input := input w |}.

Definition set_input (w : world) (inp : stdin) : world :=
  {| fs := fs w; input := inp |}.

(** [write_with_conflict] (conflict.rs), with the mode threaded through. *)
Definition write_with_conflict (w : world) (target_path content : string) (mode : ConflictMode)
    (result : ApplyResult) (display_path : string) : world * ConflictMode * ApplyResult :=
  match fs w !! target_path with
  | Some existing =>
      if String.eqb (normalize_content existing) (normalize_content content)
      then (w, mode, add_unchanged result display_path)
      else
        let '(should_write, mode', rest) :=
          resolve_conflict mode display_path (Some existing) (Some content) (input w) in
        if should_write
        then (write_file (set_input w rest) target_path content, mode', add_updated result display_path)
        else (set_input w rest, mode', add_skipped result display_path)
  | None => (write_file w target_path content, mode, add_created result display_path)
  end.


(* ================================================================= *)
(** ** Effects of an apply run: files, standard input and errors *)
(* ================================================================= *)

(** Errors that abort an apply run ([?] on a [serde_json] call); an
    [IndexMut] on a JSON value that is neither null nor an object panics,
    which also ends the run. *)
Inductive failure := JsonError | IndexPanic.

Inductive Result (A : Type) := Ok (a : A) | Err (e : failure).
Arguments Ok {A} a.
Arguments Err {A} e.

(** State and error monad: an error keeps the writes that happened before
    it (no rollback). *)
Definition M (A : Type) := world -> Result A * world.

Definition ret {A} (a : A) : M A := fun w => (Ok a, w).
Definition fail {A} (e : failure) : M A := fun w => (Err e, w).
Definition bind {A B} (m : M A) (k : A -> M B) : M B :=
  fun w => match m w with
           | (Ok a, w') => k a w'
           | (Err e, w') => (Err e, w')
           end.
Definition get_world : M world := fun w => (Ok w, w).
Definition put_world (w : world) : M unit := fun _ => (Ok tt, w).

Notation "x <- m ;; k" := (bind m (fun x => k)) (at level 100, m at next level, right associativity).

Definition lift_result {A} (r : Result A) : M A :=
  match r with Ok a => ret a | Err e => fail e end.

(** [write_with_conflict] in the monad. *)
Definition wwc (target_path content : string) (mode : ConflictMode) (result : ApplyResult)
    (display_path : string) : M (ConflictMode * ApplyResult) :=
  fun w => let '(w', mode', result') := write_with_conflict w target_path content mode result display_path in
           (Ok (mode', result'), w').

(* ================================================================= *)
(** ** Preset data (traits.rs, template/config.rs) *)
(* ================================================================= *)

(** [PresetFile] (also [TemplateFile]). *)
Record PresetFile := { relative_path : string; content : string }.

(** [MergeStrategy]; the default is [Concat]. *)
Inductive MergeStrategy := Concat | Replace.

(** The preset sections with their merge strategies, as [ClaudeCodeAdapter]
    reads them, and the root files that [pull_preset] writes. *)
Record PresetFiles := {
  rules : list PresetFile;
  memory : list PresetFile;
  memory_strategy : MergeStrategy;
  commands : list PresetFile;
  mcp : list PresetFile;
  mcp_strategy : MergeStrategy;
  hooks : list PresetFile;
  agents : list PresetFile;
  skills : list PresetFile;
  settings : list PresetFile;
  settings_strategy : MergeStrategy;
  root : list PresetFile;
}.

(** [PendingChange] as built by [pull_preset] for root files. *)
Record PendingChange := {
  path : string;
  section : string;
  is_conflict : bool;
  is_identical : bool;
}.

(* ================================================================= *)
(** ** Root files and the decide phase of [pull_preset] (pull.rs) *)
(* ================================================================= *)

(** Phase 1 for root files: [target_dir.join(relative_path)] is the file
    at [relative_path]. *)
Definition scan_root_file (w : world) (root_file : PresetFile) : PendingChange :=
  let '(c, i) :=
    match fs w !! relative_path root_file with
    | Some existing =>
        (true, String.eqb (normalize_content existing) (normalize_content (content root_file)))
    | None => (false, false)
    end in
  {| path := relative_path root_file; section := "root"; is_conflict := c; is_identical := i |}.

Definition scan_root_files (w : world) (root_files : list PresetFile) : list PendingChange :=
  map (scan_root_file w) root_files.

(** The three filters of phase 2. *)
Definition creates (changes : list PendingChange) : list PendingChange :=
  List.filter (fun c => negb (is_conflict c)) changes.
Definition conflicts (changes : list PendingChange) : list PendingChange :=
  List.filter (fun c => is_conflict c && negb (is_identical c)) changes.
Definition unchanged_changes (changes : list PendingChange) : list PendingChange :=
  List.filter (fun c => is_identical c) changes.

(** [apply_root_files]: the mode is threaded from file to file. *)
Fixpoint apply_root_loop (w : world) (root_files : list PresetFile) (mode : ConflictMode)
    (result : ApplyResult) : world * ConflictMode * ApplyResult :=
  match root_files with
  | [] => (w, mode, result)
  | file :: rest =>
      let '(w', mode', result') :=
        write_with_conflict w (relative_path file) (content file) mode result (relative_path file) in
      apply_root_loop w' rest mode' result'
  end.

(** ... and only the result is returned to [pull_preset]. *)
Definition apply_root_files (root_files : list PresetFile) (conflict_mode : ConflictMode) : M ApplyResult :=
  fun w => let '(w', _, result) := apply_root_loop w root_files conflict_mode ApplyResult_new in
           (Ok result, w').

Definition ascii_to_lower (c : ascii) : ascii :=
  let n := nat_of_ascii c in
  if Nat.leb 65 n && Nat.leb n 90 then ascii_of_nat (n + 32) else c.

Definition str_to_lower (s : string) : string :=
  string_of_list_ascii (map ascii_to_lower (list_ascii_of_string s)).

(** Outcome of phase 4: a mode and the remaining input, a process exit
    ([std::process::exit]), or a read error propagated by [?]. *)
Inductive Decision :=
  | Decided (mode : ConflictMode) (rest : stdin)
  | Exited (code : nat)
  | ReadFailed.

(** [ask_conflict_resolution]: one read of standard input. *)
Definition ask_conflict_resolution (conflict_count : nat) (inp : stdin) : Decision :=
  let '(line, rest) :=
    match inp with
    | [] => (Some "", [])
    | l :: r => (l, r)
    end in
  match line with
  | None => ReadFailed
  | Some l =>
      let a := str_to_lower (str_trim l) in
      if str_in a ["f"; "force"] then Decided Force rest
      else if str_in a ["s"; "skip"] then Decided Skip rest
      else if str_in a ["i"; "interact"; "interactive"] then Decided Ask rest
      else if str_in a ["c"; "cancel"; ""] then Exited 0
      else Exited 1
  end.

(** Phase 4 of [pull_preset]. *)
Definition decide_conflict_mode (force skip : bool) (all_changes : list PendingChange)
    (inp : stdin) : Decision :=
  if force then Decided Force inp
  else if skip then Decided Skip inp
  else match conflicts all_changes with
       | [] => Decided Force inp
       | cs => ask_conflict_resolution (List.length cs) inp
       end.

(** A tool adapter as [pull_preset] calls it: [tool.apply(&preset_files,
    &target_dir, conflict_mode)], the mode passed by value. *)
Record ToolAdapter := {
  tool_name : string;
  tool_apply : PresetFiles -> ConflictMode -> M ApplyResult;
}.

Fixpoint apply_tools (tools : list ToolAdapter) (preset : PresetFiles) (conflict_mode : ConflictMode)
    : M (list (string * ApplyResult)) :=
  match tools with
  | [] => ret []
  | tool :: rest =>
      result <- tool_apply tool preset conflict_mode ;;
      results <- apply_tools rest preset conflict_mode ;;
      ret ((tool_name tool, result) :: results)
  end.

(** Phase 5 of [pull_preset]: root files first, then every tool, each
    call given the [conflict_mode] decided in phase 4. *)
Definition pull_apply (preset : PresetFiles) (tools : list ToolAdapter) (conflict_mode : ConflictMode)
    : M (list (string * ApplyResult)) :=
  root_results <-
    (match root preset with
     | [] => ret []
     | rs => r <- apply_root_files rs conflict_mode ;; ret [("Root", r)]
     end) ;;
  tool_results <- apply_tools tools preset conflict_mode ;;
  ret (app root_results tool_results).


(* ================================================================= *)
(** ** [str::replace] and the path helpers (helpers.rs) *)
(* ================================================================= *)

Fixpoint starts_with (pat s : list ascii) : bool :=
  match pat, s with
  | [], _ => true
  | a :: pat', b :: s' => Ascii.eqb a b && starts_with pat' s'
  | _ :: _, [] => false
  end.

(** [str::replace]: every non-overlapping occurrence, left to right; an
    empty pattern matches at every position, the end included. The fuel
    [S (length s)] is enough: every step consumes a character. *)
Fixpoint replace_fuel (fuel : nat) (pat to s : list ascii) : list ascii :=
  match fuel with
  | O => s
  | S f =>
      match s with
      | [] => match pat with [] => to | _ => [] end
      | c :: r =>
          match pat with
          | [] => to ++ c :: replace_fuel f pat to r
          | _ :: _ =>
              if starts_with pat s
              then to ++ replace_fuel f pat to (drop (List.length pat) s)
              else c :: replace_fuel f pat to r
          end
      end
  end%list.

Definition str_replace (s from to : string) : string :=
  let l := list_ascii_of_string s in
  string_of_list_ascii
    (replace_fuel (S (List.length l)) (list_ascii_of_string from) (list_ascii_of_string to) l).

(** [strip_section_prefix]. *)
Definition strip_section_prefix (relative_path section : string) : string :=
  str_replace (str_replace relative_path (section ++ "/") "") (section ++ "\") "".

(* ================================================================= *)
(** ** [serde_json::Value] *)
(* ================================================================= *)

(** A JSON value; an object is its list of entries. Only the lookup of a
    key matters below, not the order of the entries. *)
#[warnings="-register-all"]
Inductive Value :=
  | VNull
  | VBool (b : bool)
  | VNumber (n : Z)
  | VString (s : string)
  | VArray (l : list Value)
  | VObject (m : list (string * Value)).

Fixpoint obj_get (k : string) (m : list (string * Value)) : option Value :=
  match m with
  | [] => None
  | (k', v) :: rest => if String.eqb k k' then Some v else obj_get k rest
  end.

(** [Map::insert]: the value of an existing key is replaced. *)
Fixpoint obj_insert (k : string) (v : Value) (m : list (string * Value)) : list (string * Value) :=
  match m with
  | [] => [(k, v)]
  | (k', v') :: rest => if String.eqb k k' then (k', v) :: rest else (k', v') :: obj_insert k v rest
  end.

(** [Value::get] with a string index: [None] on a non-object. *)
Definition value_get (v : Value) (k : string) : option Value :=
  match v with VObject m => obj_get k m | _ => None end.

(** [IndexMut<&str>]: [v[k]] turns [Null] into an empty object, inserts
    [Null] at a missing key, and panics on any other value; [f] updates the
    entry in place. *)
Definition index_set (v : Value) (k : string) (f : Value -> Result Value) : Result Value :=
  match v with
  | VNull => match f VNull with Ok x => Ok (VObject [(k, x)]) | Err e => Err e end
  | VObject m =>
      let cur := match obj_get k m with Some x => x | None => VNull end in
      match f cur with Ok x => Ok (VObject (obj_insert k x m)) | Err e => Err e end
  | _ => Err IndexPanic
  end.

(** [v[k1][k2] = x]. *)
Definition assign2 (v : Value) (k1 k2 : string) (x : Value) : Result Value :=
  index_set v k1 (fun inner => index_set inner k2 (fun _ => Ok x)).


(* ================================================================= *)
(** ** The adapters (common.rs, claude_code.rs) *)
(* ================================================================= *)

(** [FilenameTransform] and [ContentTransform] (common.rs): an optional
    function of the stripped filename and the content, and an optional
    function of the content. *)
Definition FilenameTransform := option (string -> string -> string).
Definition ContentTransform := option (string -> string).

Section Serde.

(** [serde_json::from_str] and [serde_json::to_string_pretty] are left
    abstract. *)
Variable from_str : string -> Result Value.
Variable to_string_pretty : Value -> string.

(** [apply_one_to_one]: [target_dir.join(filename)] is the file
    [target_dir ++ "/" ++ filename]; the filename transform receives the
    stripped name and the file's content, the content transform the
    content (common.rs, [FilenameTransform] and [ContentTransform]). *)
Fixpoint apply_one_to_one (files : list PresetFile) (section target_dir display_prefix : string)
    (filename_transform : FilenameTransform) (content_transform : ContentTransform)
    (mode : ConflictMode) (result : ApplyResult) : M (ConflictMode * ApplyResult) :=
  match files with
  | [] => ret (mode, result)
  | file :: rest =>
      let stripped := strip_section_prefix (relative_path file) section in
      let filename := match filename_transform with
                      | Some transform => transform stripped (content file)
                      | None => stripped
                      end in
      let content0 := match content_transform with
                      | Some transform => transform (content file)
                      | None => content file
                      end in
      mr <- wwc (target_dir ++ "/" ++ filename) content0 mode result
                (display_prefix ++ "/" ++ filename) ;;
      apply_one_to_one rest section target_dir display_prefix
        filename_transform content_transform (fst mr) (snd mr)
  end.

(** The entry key of [apply_json_merge]:
    [strip_section_prefix(&file.relative_path, section).replace(".json", "")]. *)
Definition json_entry_name (section : string) (file : PresetFile) : string :=
  str_replace (strip_section_prefix (relative_path file) section) ".json" "".

(** The server key of [apply_mcp]:
    [file.relative_path.replace("mcp/", "").replace(".json", "")]. *)
Definition mcp_server_name (file : PresetFile) : string :=
  str_replace (str_replace (relative_path file) "mcp/" "") ".json" "".

(** [v[k1][k2]] read back, [None] when absent. *)
Definition value_get2 (v : Value) (k1 k2 : string) : option Value :=
  match value_get v k1 with Some inner => value_get inner k2 | None => None end.

(** The shape shared by the two keyed merge loops below. *)
Fixpoint keyed_merge (key : PresetFile -> string) (wrapper_key : string) (files : list PresetFile)
    (config : Value) : Result Value :=
  match files with
  | [] => Ok config
  | file :: rest =>
      match from_str (content file) with
      | Err e => Err e
      | Ok x =>
          match assign2 config wrapper_key (key file) x with
          | Err e => Err e
          | Ok config' => keyed_merge key wrapper_key rest config'
          end
      end
  end.

(** The merge loop of [apply_json_merge]:
    [config[wrapper_key][entry_name] = entry_config]. *)
Fixpoint json_merge_entries (files : list PresetFile) (section wrapper_key : string) (config : Value)
    : Result Value :=
  match files with
  | [] => Ok config
  | file :: rest =>
      let entry_name := json_entry_name section file in
      match from_str (content file) with
      | Err e => Err e
      | Ok entry_config =>
          match assign2 config wrapper_key entry_name entry_config with
          | Err e => Err e
          | Ok config' => json_merge_entries rest section wrapper_key config'
          end
      end
  end.

(** [apply_json_merge]. *)
Definition apply_json_merge (files : list PresetFile) (section target_path display_path wrapper_key : string)
    (default_json : Value) (mode : ConflictMode) (result : ApplyResult) : M (ConflictMode * ApplyResult) :=
  match files with
  | [] => ret (mode, result)
  | _ =>
      w <- get_world ;;
      config <- (match fs w !! target_path with
                 | Some c => lift_result (from_str c)
                 | None => ret default_json
                 end) ;;
      config <- (match value_get config wrapper_key with
                 | None => lift_result (index_set config wrapper_key (fun _ => Ok (VObject [])))
                 | Some _ => ret config
                 end) ;;
      config <- lift_result (json_merge_entries files section wrapper_key config) ;;
      wwc target_path (to_string_pretty config) mode result display_path
  end.

(** [ClaudeCodeAdapter::apply_rules], [apply_commands], [apply_agents],
    [apply_skills]: [relative_path.replace("<section>/", "")] written to
    [.claude/<section>/]. *)
Fixpoint apply_claude_dir (section : string) (files : list PresetFile)
    (mode : ConflictMode) (result : ApplyResult) : M (ConflictMode * ApplyResult) :=
  match files with
  | [] => ret (mode, result)
  | file :: rest =>
      let relative := str_replace (relative_path file) (section ++ "/") "" in
      let p := ".claude/" ++ section ++ "/" ++ relative in
      mr <- wwc p (content file) mode result p ;;
      apply_claude_dir section rest (fst mr) (snd mr)
  end.

Definition apply_rules := apply_claude_dir "rules".
Definition apply_commands := apply_claude_dir "commands".
Definition apply_agents := apply_claude_dir "agents".
Definition apply_skills := apply_claude_dir "skills".

Definition CLAUDE_MD := ".claude/CLAUDE.md".
Definition SETTINGS_LOCAL := ".claude/settings.local.json".
Definition HOOKS_JSON := ".claude/hooks.json".

(** The separator ["\n\n---\n\n"]. *)
Definition MEMORY_SEP := LF ++ LF ++ "---" ++ LF ++ LF.

(** The memory files joined with the separator. *)
Fixpoint join_memory (files : list PresetFile) : string :=
  match files with
  | [] => ""
  | [f] => content f
  | f :: rest => content f ++ MEMORY_SEP ++ join_memory rest
  end.

(** [ClaudeCodeAdapter::apply_memory]. *)
Definition apply_memory (files : list PresetFile) (strategy : MergeStrategy)
    (mode : ConflictMode) (result : ApplyResult) : M (ConflictMode * ApplyResult) :=
  match files with
  | [] => ret (mode, result)
  | _ =>
      let new_content := join_memory files in
      w <- get_world ;;
      match fs w !! CLAUDE_MD with
      | Some existing =>
          match strategy with
          | Concat =>
              _ <- put_world (write_file w CLAUDE_MD (existing ++ MEMORY_SEP ++ new_content)) ;;
              ret (mode, add_updated result CLAUDE_MD)
          | Replace => wwc CLAUDE_MD new_content mode result CLAUDE_MD
          end
      | None =>
          _ <- put_world (write_file w CLAUDE_MD new_content) ;;
          ret (mode, add_created result CLAUDE_MD)
      end
  end.

(** The starting value of [apply_mcp] and [apply_settings]. *)
Definition read_settings (strategy : MergeStrategy) : M Value :=
  match strategy with
  | Concat =>
      w <- get_world ;;
      match fs w !! SETTINGS_LOCAL with
      | Some c => lift_result (from_str c)
      | None => ret (VObject [])
      end
  | Replace => ret (VObject [])
  end.

(** The merge loop of [apply_mcp]:
    [settings["mcpServers"][server_name] = mcp_config]. *)
Fixpoint mcp_merge_entries (files : list PresetFile) (settings : Value) : Result Value :=
  match files with
  | [] => Ok settings
  | file :: rest =>
      match from_str (content file) with
      | Err e => Err e
      | Ok mcp_config =>
          let server_name := mcp_server_name file in
          match assign2 settings "mcpServers" server_name mcp_config with
          | Err e => Err e
          | Ok settings' => mcp_merge_entries rest settings'
          end
      end
  end.

(** [ClaudeCodeAdapter::apply_mcp]. *)
Definition apply_mcp (files : list PresetFile) (strategy : MergeStrategy)
    (mode : ConflictMode) (result : ApplyResult) : M (ConflictMode * ApplyResult) :=
  match files with
  | [] => ret (mode, result)
  | _ =>
      settings <- read_settings strategy ;;
      settings <- (match value_get settings "mcpServers" with
                   | None => lift_result (index_set settings "mcpServers" (fun _ => Ok (VObject [])))
                   | Some _ => ret settings
                   end) ;;
      settings <- lift_result (mcp_merge_entries files settings) ;;
      wwc SETTINGS_LOCAL (to_string_pretty settings) mode result SETTINGS_LOCAL
  end.

(** The loop of [apply_hooks]: [hooks.insert(hook_name, hook_config)]. *)
Fixpoint hooks_entries (files : list PresetFile) (hooks : list (string * Value))
    : Result (list (string * Value)) :=
  match files with
  | [] => Ok hooks
  | file :: rest =>
      let hook_name := str_replace (str_replace (relative_path file) "hooks/" "") ".json" "" in
      match from_str (content file) with
      | Err e => Err e
      | Ok hook_config => hooks_entries rest (obj_insert hook_name hook_config hooks)
      end
  end.

(** [ClaudeCodeAdapter::apply_hooks]. *)
Definition apply_hooks (files : list PresetFile) (mode : ConflictMode) (result : ApplyResult)
    : M (ConflictMode * ApplyResult) :=
  match files with
  | [] => ret (mode, result)
  | _ =>
      hooks <- lift_result (hooks_entries files []) ;;
      wwc HOOKS_JSON (to_string_pretty (VObject hooks)) mode result HOOKS_JSON
  end.

(** The loop of [apply_settings]: top-level keys are inserted when both
    values are objects. *)
Fixpoint settings_entries (files : list PresetFile) (settings : Value) : Result Value :=
  match files with
  | [] => Ok settings
  | file :: rest =>
      match from_str (content file) with
      | Err e => Err e
      | Ok new_settings =>
          let settings' :=
            match new_settings, settings with
            | VObject new_map, VObject settings_map =>
                VObject (fold_left (fun m kv => obj_insert (fst kv) (snd kv) m) new_map settings_map)
            | _, _ => settings
            end in
          settings_entries rest settings'
      end
  end.

(** [ClaudeCodeAdapter::apply_settings]. *)
Definition apply_settings (files : list PresetFile) (strategy : MergeStrategy)
    (mode : ConflictMode) (result : ApplyResult) : M (ConflictMode * ApplyResult) :=
  match files with
  | [] => ret (mode, result)
  | _ =>
      settings <- read_settings strategy ;;
      settings <- lift_result (settings_entries files settings) ;;
      wwc SETTINGS_LOCAL (to_string_pretty settings) mode result SETTINGS_LOCAL
  end.

(** [ClaudeCodeAdapter::apply]: one [mode] threaded through the eight
    sections; the final mode is dropped. *)
Definition claude_apply (tf : PresetFiles) (conflict_mode : ConflictMode) : M ApplyResult :=
  mr <- apply_rules (rules tf) conflict_mode ApplyResult_new ;;
  mr <- apply_memory (memory tf) (memory_strategy tf) (fst mr) (snd mr) ;;
  mr <- apply_commands (commands tf) (fst mr) (snd mr) ;;
  mr <- apply_mcp (mcp tf) (mcp_strategy tf) (fst mr) (snd mr) ;;
  mr <- apply_hooks (hooks tf) (fst mr) (snd mr) ;;
  mr <- apply_agents (agents tf) (fst mr) (snd mr) ;;
  mr <- apply_skills (skills tf) (fst mr) (snd mr) ;;
  mr <- apply_settings (settings tf) (settings_strategy tf) (fst mr) (snd mr) ;;
  ret (snd mr).

Definition ClaudeCodeAdapter : ToolAdapter :=
  {| tool_name := "Claude Code"; tool_apply := claude_apply |}.

(** The writes of [claude_apply] when the content of every section is fixed
    by the preset alone (memory, mcp and settings not under [Concat]):
    one [(target_path, content, display_path)] per [write_with_conflict]
    call, in order; [None] when a JSON file does not parse. *)
Definition claude_item (section : string) (file : PresetFile) : string * string * string :=
  let p := ".claude/" ++ section ++ "/" ++ str_replace (relative_path file) (section ++ "/") "" in
  (p, content file, p).

Definition memory_items (files : list PresetFile) : list (string * string * string) :=
  match files with [] => [] | _ => [(CLAUDE_MD, join_memory files, CLAUDE_MD)] end.

Definition mcp_items (files : list PresetFile) : option (list (string * string * string)) :=
  match files with
  | [] => Some []
  | _ => match mcp_merge_entries files (VObject [("mcpServers", VObject [])]) with
         | Ok settings => Some [(SETTINGS_LOCAL, to_string_pretty settings, SETTINGS_LOCAL)]
         | Err _ => None
         end
  end.

Definition hooks_items (files : list PresetFile) : option (list (string * string * string)) :=
  match files with
  | [] => Some []
  | _ => match hooks_entries files [] with
         | Ok hooks => Some [(HOOKS_JSON, to_string_pretty (VObject hooks), HOOKS_JSON)]
         | Err _ => None
         end
  end.

Definition settings_items (files : list PresetFile) : option (list (string * string * string)) :=
  match files with
  | [] => Some []
  | _ => match settings_entries files (VObject []) with
         | Ok settings => Some [(SETTINGS_LOCAL, to_string_pretty settings, SETTINGS_LOCAL)]
         | Err _ => None
         end
  end.

Definition claude_plan (tf : PresetFiles) : option (list (string * string * string)) :=
  match mcp_items (mcp tf), hooks_items (hooks tf), settings_items (settings tf) with
  | Some pm, Some ph, Some ps =>
      Some (map (claude_item "rules") (rules tf) ++ memory_items (memory tf) ++
            map (claude_item "commands") (commands tf) ++ pm ++ ph ++
            map (claude_item "agents") (agents tf) ++ map (claude_item "skills") (skills tf) ++ ps)%list
  | _, _, _ => None
  end.

End Serde.


(** A run of [resolve_conflict] calls, each given the mode the previous one
    left: [(file_path, existing_content, new_content)] per call. *)
Fixpoint resolve_run (mode : ConflictMode) (calls : list (string * option string * option string))
    (inp : stdin) : list bool * ConflictMode * stdin :=
  match calls with
  | [] => ([], mode, inp)
  | (fp, e, n) :: rest =>
      let '(b, mode', inp') := resolve_conflict mode fp e n inp in
      let '(bs, mode'', inp'') := resolve_run mode' rest inp' in
      (b :: bs, mode'', inp'')
  end.


(** [ScanResult::add_change_with_content], the scan result being the list
    of its changes. *)
Definition add_change_with_content (w : world) (sr : list PendingChange)
    (path0 section0 target_path preset_content : string) : list PendingChange :=
  (sr ++ [match fs w !! target_path with
          | Some existing =>
              {| path := path0; section := section0; is_conflict := true;
                 is_identical := String.eqb (normalize_content existing) (normalize_content preset_content) |}
          | None => {| path := path0; section := section0; is_conflict := false; is_identical := false |}
          end])%list.

(** [scan_one_to_one], with the same transforms as [apply_one_to_one]. *)
Fixpoint scan_one_to_one (w : world) (files : list PresetFile) (section target_dir display_prefix : string)
    (filename_transform : FilenameTransform) (content_transform : ContentTransform)
    (sr : list PendingChange) : list PendingChange :=
  match files with
  | [] => sr
  | file :: rest =>
      let stripped := strip_section_prefix (relative_path file) section in
      let filename := match filename_transform with
                      | Some transform => transform stripped (content file)
                      | None => stripped
                      end in
      let content0 := match content_transform with
                      | Some transform => transform (content file)
                      | None => content file
                      end in
      scan_one_to_one w rest section target_dir display_prefix filename_transform content_transform
        (add_change_with_content w sr (display_prefix ++ "/" ++ filename) section
           (target_dir ++ "/" ++ filename) content0)
  end.

(** A sequence of [write_with_conflict] calls threading the mode, one per
    [(target_path, content, display_path)]. *)
Definition write_step (wmr : world * ConflictMode * ApplyResult) (item : string * string * string)
    : world * ConflictMode * ApplyResult :=
  let '(w, m, r) := wmr in
  let '(t, c, d) := item in
  write_with_conflict w t c m r d.

Definition write_plan (w : world) (plan : list (string * string * string)) (mode : ConflictMode)
    (result : ApplyResult) : world * ConflictMode * ApplyResult :=
  fold_left write_step plan (w, mode, result).

(** What scan records for one planned write. *)
Definition change_of (w : world) (section0 : string) (item : string * string * string) : PendingChange :=
  let '(t, c, d) := item in
  match fs w !! t with
  | Some existing =>
      {| path := d; section := section0; is_conflict := true;
         is_identical := String.eqb (normalize_content existing) (normalize_content c) |}
  | None => {| path := d; section := section0; is_conflict := false; is_identical := false |}
  end.

Definition root_item (f : PresetFile) : string * string * string :=
  (relative_path f, content f, relative_path f).

Definition one_to_one_item (section target_dir display_prefix : string)
    (filename_transform : FilenameTransform) (content_transform : ContentTransform)
    (f : PresetFile) : string * string * string :=
  let stripped := strip_section_prefix (relative_path f) section in
  let filename := match filename_transform with
                  | Some transform => transform stripped (content f)
                  | None => stripped
                  end in
  let content0 := match content_transform with
                  | Some transform => transform (content f)
                  | None => content f
                  end in
  (target_dir ++ "/" ++ filename, content0, display_prefix ++ "/" ++ filename).

Definition item_target (item : string * string * string) : string := fst (fst item).


Definition item_display (item : string * string * string) : string := snd item.

(** A section function that performs exactly the writes of [plan]. *)
Definition runs_plan (sec : ConflictMode -> ApplyResult -> M (ConflictMode * ApplyResult))
    (plan : list (string * string * string)) : Prop :=
  forall mode result w,
    sec mode result w = let '(w', m', r') := write_plan w plan mode result in (Ok (m', r'), w').


(** Stand-ins for the parser and the printer, used to evaluate the model on
    concrete presets: every file parses as a string, and an object prints
    as its keys. *)
Definition sample_from_str (s : string) : Result Value := Ok (VString s).
Definition sample_pretty (v : Value) : string :=
  match v with VObject m => String.concat "," (map fst m) | _ => "" end.

(** A parser and a printer that read back what they print, used to
    evaluate the model on JSON files. [rt_pp] writes a value in a prefix
    code: one letter per constructor, and each byte of a string as two
    letters from [a] to [p]. The code has no whitespace and no byte above
    127. [rt_from_str] parses the normalized text back, so
    [rt_from_str (rt_pp v) = Ok v]. *)
Module Codec.
Definition nib (n : nat) : ascii := ascii_of_nat (97 + n).

Definition nib_val (b : ascii) : option nat :=
  let n := nat_of_ascii b in
  if (97 <=? n)%nat && (n <? 113)%nat then Some (n - 97)%nat else None.

Definition enc_char (c : ascii) : list ascii :=
  [nib (nat_of_ascii c / 16); nib (nat_of_ascii c mod 16)].

Fixpoint enc_str (s : string) : list ascii :=
  match s with
  | EmptyString => ["."%char]
  | String c s' => (enc_char c ++ enc_str s')%list
  end.

Fixpoint enc_pos (p : positive) : list ascii :=
  match p with
  | xI q => "1"%char :: enc_pos q
  | xO q => "0"%char :: enc_pos q
  | xH => ["."%char]
  end.

Definition enc_Z (z : Z) : list ascii :=
  match z with
  | Z0 => ["0"%char]
  | Zpos p => "+"%char :: enc_pos p
  | Zneg p => "-"%char :: enc_pos p
  end.

Fixpoint enc (v : Value) : list ascii :=
  match v with
  | VNull => ["n"%char]
  | VBool true => ["t"%char]
  | VBool false => ["f"%char]
  | VNumber z => "z"%char :: enc_Z z
  | VString s => "s"%char :: enc_str s
  | VArray l => "["%char :: (List.concat (map enc l) ++ ["]"%char])%list
  | VObject m =>
      "{"%char :: (List.concat (map (fun kx => match kx with (k, x) => enc_str k ++ enc x end) m)
                   ++ ["}"%char])%list
  end.

Fixpoint dec_str (l : list ascii) : option (string * list ascii) :=
  match l with
  | [] => None
  | b :: r =>
      if Ascii.eqb b "." then Some (EmptyString, r) else
      match r with
      | [] => None
      | b2 :: r2 =>
          match nib_val b, nib_val b2 with
          | Some d1, Some d2 =>
              match dec_str r2 with
              | Some (s, r3) => Some (String (ascii_of_nat (16 * d1 + d2)) s, r3)
              | None => None
              end
          | _, _ => None
          end
      end
  end.

Fixpoint dec_pos (l : list ascii) : option (positive * list ascii) :=
  match l with
  | [] => None
  | b :: r =>
      if Ascii.eqb b "." then Some (xH, r)
      else if Ascii.eqb b "1" then
        match dec_pos r with Some (p, r') => Some (xI p, r') | None => None end
      else if Ascii.eqb b "0" then
        match dec_pos r with Some (p, r') => Some (xO p, r') | None => None end
      else None
  end.

Definition dec_Z (l : list ascii) : option (Z * list ascii) :=
  match l with
  | [] => None
  | b :: r =>
      if Ascii.eqb b "0" then Some (Z0, r)
      else if Ascii.eqb b "+" then
        match dec_pos r with Some (p, r') => Some (Zpos p, r') | None => None end
      else if Ascii.eqb b "-" then
        match dec_pos r with Some (p, r') => Some (Zneg p, r') | None => None end
      else None
  end.

Fixpoint dec (fuel : nat) (l : list ascii) : option (Value * list ascii) :=
  match fuel with
  | O => None
  | S f =>
      match l with
      | [] => None
      | b :: r =>
          if Ascii.eqb b "n" then Some (VNull, r)
          else if Ascii.eqb b "t" then Some (VBool true, r)
          else if Ascii.eqb b "f" then Some (VBool false, r)
          else if Ascii.eqb b "z" then
            match dec_Z r with Some (z, r') => Some (VNumber z, r') | None => None end
          else if Ascii.eqb b "s" then
            match dec_str r with Some (s, r') => Some (VString s, r') | None => None end
          else if Ascii.eqb b "[" then
            match dec_arr f r with Some (xs, r') => Some (VArray xs, r') | None => None end
          else if Ascii.eqb b "{" then
            match dec_obj f r with Some (m, r') => Some (VObject m, r') | None => None end
          else None
      end
  end
with dec_arr (fuel : nat) (l : list ascii) : option (list Value * list ascii) :=
  match fuel with
  | O => None
  | S f =>
      match l with
      | [] => None
      | b :: r =>
          if Ascii.eqb b "]" then Some ([], r) else
          match dec f l with
          | Some (x, r1) =>
              match dec_arr f r1 with Some (xs, r2) => Some (x :: xs, r2) | None => None end
          | None => None
          end
      end
  end
with dec_obj (fuel : nat) (l : list ascii) : option (list (string * Value) * list ascii) :=
  match fuel with
  | O => None
  | S f =>
      match l with
      | [] => None
      | b :: r =>
          if Ascii.eqb b "}" then Some ([], r) else
          match dec_str l with
          | Some (k, r1) =>
              match dec f r1 with
              | Some (x, r2) =>
                  match dec_obj f r2 with Some (m, r3) => Some ((k, x) :: m, r3) | None => None end
              | None => None
              end
          | None => None
          end
      end
  end.

Definition rt_pp (v : Value) : string := string_of_list_ascii (enc v).

Definition rt_from_str (s : string) : Result Value :=
  let l := list_ascii_of_string (normalize_content s) in
  match dec (S (List.length l)) l with
  | Some (v, []) => Ok v
  | _ => Err JsonError
  end.
End Codec.

Definition empty_preset : PresetFiles := {|
  rules := []; memory := []; memory_strategy := Concat; commands := [];
  mcp := []; mcp_strategy := Concat; hooks := []; agents := []; skills := [];
  settings := []; settings_strategy := Concat; root := [] |}.

Module TextAux.
Import Text.

Abbreviation has_nl := (GText.has_nl Ascii.eqb nl).
Abbreviation unsplit := (GText.unsplit nl).

End TextAux.

(* ================================================================= *)
(** ** Front matter and file names (helpers.rs) *)
(* ================================================================= *)

Module Front.
Import Text.
Local Open Scope list_scope.

Definition dash : ascii := "-"%char.
Definition dashes : list ascii := [dash; dash; dash].
Definition md_ext : list ascii := ["."; "m"; "d"]%char.

Definition is_empty (l : list ascii) : bool := match l with [] => true | _ => false end.

(** [str::find]: the index of the first occurrence; an empty pattern is
    found at once. *)
Fixpoint find_from (pat s : list ascii) (i : nat) : option nat :=
  if starts_with pat s then Some i
  else match s with
       | [] => None
       | _ :: r => find_from pat r (S i)
       end.

Definition find (pat s : list ascii) : option nat := find_from pat s 0.

(** [str::contains]. *)
Fixpoint occurs (pat s : list ascii) : bool :=
  starts_with pat s || match s with [] => false | _ :: r => occurs pat r end.

(** [has_frontmatter]: [&trimmed[3..]] and [&after_opening[pos + 4..]]
    are [drop]s. *)
Definition has_frontmatter_l (content : list ascii) : bool :=
  let trimmed := trim_start content in
  if negb (starts_with dashes trimmed) then false else
  let after_opening := drop 3 trimmed in
  if negb (starts_with [nl] after_opening) && negb (starts_with [cr; nl] after_opening) then false else
  match find (nl :: dashes) after_opening with
  | Some pos =>
      let after_close := drop (pos + 4) after_opening in
      is_empty after_close || starts_with [nl] after_close || starts_with [cr; nl] after_close
  | None => false
  end.

(** [str::replacen(pat, to, 1)]: the first occurrence only. *)
Definition replacen1 (s pat to : list ascii) : list ascii :=
  match find pat s with
  | Some i => take i s ++ to ++ drop (i + List.length pat) s
  | None => s
  end.

(** The [map] closure of [convert_frontmatter_key]. *)
Definition convert_line (from_key to_key line : list ascii) : list ascii :=
  if starts_with (from_key ++ [":"%char]) line || starts_with (from_key ++ [" "; ":"]%char) line
  then replacen1 line from_key to_key
  else line.

(** [convert_frontmatter_key]: [&after_opening[..close_pos + 1]] is a
    [take], [&after_opening[close_pos + 1..]] a [drop]. *)
Definition convert_frontmatter_key_l (content from_key to_key : list ascii) : list ascii :=
  if negb (has_frontmatter_l content) then content else
  let trimmed := trim_start content in
  let after_opening := drop 3 trimmed in
  match find (nl :: dashes) after_opening with
  | Some close_pos =>
      let frontmatter := take (close_pos + 1) after_opening in
      let rest := drop (close_pos + 1) after_opening in
      dashes ++ join_nl (map (convert_line from_key to_key) (lines frontmatter)) ++ rest
  | None => content
  end.

(** [str::strip_suffix]. *)
Definition strip_suffix (suf s : list ascii) : option (list ascii) :=
  if starts_with (rev suf) (rev s) then Some (take (List.length s - List.length suf) s) else None.

(** [add_suffix_before_ext]. *)
Definition add_suffix_before_ext_l (filename suffix : list ascii) : list ascii :=
  match strip_suffix md_ext filename with
  | Some stem => stem ++ "."%char :: suffix ++ md_ext
  | None => filename ++ "."%char :: suffix ++ md_ext
  end.

End Front.

Definition has_frontmatter (content : string) : bool :=
  Front.has_frontmatter_l (list_ascii_of_string content).

Definition convert_frontmatter_key (content from_key to_key : string) : string :=
  string_of_list_ascii
    (Front.convert_frontmatter_key_l (list_ascii_of_string content)
       (list_ascii_of_string from_key) (list_ascii_of_string to_key)).

Definition add_suffix_before_ext (filename suffix : string) : string :=
  string_of_list_ascii
    (Front.add_suffix_before_ext_l (list_ascii_of_string filename) (list_ascii_of_string suffix)).

(** [haystack.contains(needle)]. *)
Definition str_contains (haystack needle : string) : bool :=
  Front.occurs (list_ascii_of_string needle) (list_ascii_of_string haystack).

(* ================================================================= *)
(** ** The [--tools] filter of [pull_preset] (pull.rs) *)
(* ================================================================= *)

(** The [filter] closure: [tool_name] lowered, [filter_lower] the lowered
    filter entries. *)
Definition tool_matches (tool_name0 : string) (filter_lower : list string) : bool :=
  let tn := str_to_lower tool_name0 in
  existsb (fun f =>
             str_contains tn f || str_contains f tn ||
             (if String.eqb f "claude" then str_contains tn "claude"
              else if String.eqb f "cursor" then str_contains tn "cursor"
              else if String.eqb f "copilot" then str_contains tn "copilot"
              else false))
          filter_lower.

Definition filter_tools (all : list ToolAdapter) (filter : list string) : list ToolAdapter :=
  let filter_lower := map str_to_lower filter in
  List.filter (fun tool => tool_matches (tool_name tool) filter_lower) all.

(* ================================================================= *)
(** ** [ScanResult::add_change] and [scan_merged_section] *)
(* ================================================================= *)

(** [ScanResult::add_change] (traits.rs). *)
Definition add_change (sr : list PendingChange) (path0 section0 : string) (is_conflict0 : bool)
    : list PendingChange :=
  (sr ++ [{| path := path0; section := section0; is_conflict := is_conflict0; is_identical := false |}])%list.

(** [scan_merged_section] (common.rs). *)
Definition scan_merged_section (w : world) (files : list PresetFile) (display_path section0 target_path : string)
    (sr : list PendingChange) : list PendingChange :=
  match files with
  | [] => sr
  | _ => add_change sr display_path section0
           (match fs w !! target_path with Some _ => true | None => false end)
  end.

(** Every path an [ApplyResult] reports, list after list. *)
Definition reported (r : ApplyResult) : list string :=
  (created r ++ updated r ++ skipped r ++ unchanged r)%list.

(** The display paths of the [write_with_conflict] calls (or direct
    writes) of [claude_apply], section after section. *)
Definition once_if (files : list PresetFile) (p : string) : list string :=
  match files with [] => [] | _ => [p] end.

Definition claude_displays (tf : PresetFiles) : list string :=
  (map item_display (map (claude_item "rules") (rules tf)) ++ once_if (memory tf) CLAUDE_MD ++
   map item_display (map (claude_item "commands") (commands tf)) ++ once_if (mcp tf) SETTINGS_LOCAL ++
   once_if (hooks tf) HOOKS_JSON ++ map item_display (map (claude_item "agents") (agents tf)) ++
   map item_display (map (claude_item "skills") (skills tf)) ++ once_if (settings tf) SETTINGS_LOCAL)%list.

(** The target paths of those calls, [.claude/settings.local.json] once
    for mcp and settings together. *)
Definition claude_targets (tf : PresetFiles) : list string :=
  (map item_target (map (claude_item "rules") (rules tf)) ++ once_if (memory tf) CLAUDE_MD ++
   map item_target (map (claude_item "commands") (commands tf)) ++ once_if (mcp tf ++ settings tf) SETTINGS_LOCAL ++
   once_if (hooks tf) HOOKS_JSON ++ map item_target (map (claude_item "agents") (agents tf)) ++
   map item_target (map (claude_item "skills") (skills tf)))%list.

(** The key [apply_hooks] gives a hook file:
    [file.relative_path.replace("hooks/", "").replace(".json", "")]. *)
Definition hook_name (file : PresetFile) : string :=
  str_replace (str_replace (relative_path file) "hooks/" "") ".json" "".

(** The values [IndexMut<&str>] accepts without panicking. *)
Definition indexable (v : Value) : bool :=
  match v with VNull | VObject _ => true | _ => false end.

(** A scan entry marked identical is also marked conflicting (the file
    exists). *)
Definition change_consistent (c : PendingChange) : bool := implb (is_identical c) (is_conflict c).

(* ================================================================= *)
(** * Proofs *)
(* ================================================================= *)

(* ----------------------------------------------------------------- *)
(** ** The normalizer *)
(* ----------------------------------------------------------------- *)

Module TextFacts.
Section Generic.
Context {C : Type} (eqb : C -> C -> bool) (eqb_spec : forall a b, eqb a b = true <-> a = b)
  (is_ws : C -> bool) (nl cr : C)
  (is_ws_nl : is_ws nl = true) (is_ws_cr : is_ws cr = true) (cr_nl : eqb cr nl = false).
Local Open Scope list_scope.

Local Abbreviation trim_end := (GText.trim_end is_ws).
Local Abbreviation trim_start := (GText.trim_start is_ws).
Local Abbreviation trim := (GText.trim is_ws).
Local Abbreviation split_nl := (GText.split_nl eqb nl).
Local Abbreviation strip_cr := (GText.strip_cr eqb cr).
Local Abbreviation lines := (GText.lines eqb nl cr).
Local Abbreviation join_nl := (GText.join_nl nl).
Local Abbreviation normalize := (GText.normalize eqb is_ws nl cr).
Local Abbreviation has_nl := (GText.has_nl eqb nl).
Local Abbreviation pair_ok := (GText.pair_ok eqb is_ws nl).
Local Abbreviation clean := (GText.clean eqb is_ws nl).
Local Abbreviation unsplit := (GText.unsplit nl).
Local Abbreviation piece := (GText.piece cr).

Lemma ceqb_refl a : eqb a a = true.
Proof. by apply eqb_spec. Qed.



Lemma trim_end_app_ws (a w : list C) :
  forallb is_ws w = true -> trim_end (a ++ w) = trim_end a.
Proof.
  intros Hw. induction a as [|c a IH]; simpl.
  - induction w as [|d w IHw]; simpl in *; [done|].
    apply andb_prop in Hw as [Hd Hw]. rewrite IHw by done. by rewrite Hd.
  - by rewrite IH.
Qed.

Lemma trim_end_snoc (l : list C) (c : C) :
  is_ws c = false -> trim_end (l ++ [c]) = l ++ [c].
Proof.
  intros Hc. induction l as [|x l IH]; simpl.
  - by rewrite Hc.
  - rewrite IH. by destruct l.
Qed.

Lemma trim_end_length (l : list C) : List.length (trim_end l) <= List.length l.
Proof.
  induction l as [|c t IH]; simpl; [lia|].
  destruct (trim_end t) eqn:E; [destruct (is_ws c); simpl; lia|simpl in *; lia].
Qed.

Lemma trim_end_cons_fixed (c : C) (t : list C) :
  trim_end (c :: t) = c :: t -> trim_end t = t.
Proof.
  simpl. destruct (trim_end t) eqn:E.
  - destruct (is_ws c); [done|]. intros H. injection H as <-. done.
  - intros H. by injection H.
Qed.

Lemma trim_end_idem (l : list C) : trim_end (trim_end l) = trim_end l.
Proof.
  induction l as [|c t IH]; simpl; [done|].
  destruct (trim_end t) as [|d r] eqn:E.
  - destruct (is_ws c) eqn:Hc; simpl; [done|]. by rewrite Hc.
  -
    change (trim_end (c :: d :: r)) with
      (match trim_end (d :: r) with [] => if is_ws c then [] else [c] | t' => c :: t' end).
    by rewrite IH.
Qed.

Lemma trim_end_head (t : list C) (d : C) (r : list C) :
  trim_end t = d :: r -> exists r', t = d :: r'.
Proof.
  destruct t as [|c t]; simpl; [done|].
  destruct (trim_end t); [destruct (is_ws c)|]; intros H; try discriminate; injection H as -> ?; eauto.
Qed.

Lemma trim_end_ws_last (l : list C) (c : C) :
  is_ws c = true -> trim_end (l ++ [c]) <> l ++ [c].
Proof.
  intros Hc E. rewrite trim_end_app_ws in E by (simpl; by rewrite Hc).
  pose proof (trim_end_length l) as Hl. rewrite E, length_app in Hl. simpl in Hl. lia.
Qed.

Lemma trim_start_idem (l : list C) : trim_start (trim_start l) = trim_start l.
Proof.
  induction l as [|c t IH]; simpl; [done|].
  destruct (is_ws c) eqn:Hc; [done|]. simpl. by rewrite Hc.
Qed.

Lemma trim_end_trim_start (z : list C) :
  trim_end z = z -> trim_end (trim_start z) = trim_start z.
Proof.
  induction z as [|c t IH]; [done|].
  intros Hz. pose proof (trim_end_cons_fixed c t Hz) as Ht.
  simpl trim_start. destruct (is_ws c); [by apply IH|done].
Qed.

Lemma has_nl_trim_end (l : list C) :
  has_nl l = false -> has_nl (trim_end l) = false.
Proof.
  induction l as [|c t IH]; [done|].
  intros H. change (has_nl (c :: t)) with (eqb c nl || has_nl t) in H.
  apply orb_false_iff in H as [Hc Ht].
  simpl trim_end. destruct (trim_end t) as [|d r] eqn:E.
  - destruct (is_ws c); [done|].
    change (has_nl [c]) with (eqb c nl || false). by rewrite Hc.
  - change (has_nl (c :: d :: r)) with (eqb c nl || has_nl (d :: r)).
    rewrite Hc. by apply IH.
Qed.

Lemma has_nl_app (a b : list C) : has_nl (a ++ b) = has_nl a || has_nl b.
Proof. apply existsb_app. Qed.

Lemma has_nl_strip_cr (p : list C) :
  has_nl p = false -> has_nl (strip_cr p) = false.
Proof.
  unfold GText.strip_cr. intros H.
  destruct (rev p) as [|c r] eqn:E; [done|].
  destruct (eqb c cr); [|done].
  assert (p = rev r ++ [c]) as Hp by (rewrite <- (rev_involutive p), E; done).
  rewrite Hp, has_nl_app in H. by apply orb_false_iff in H as [? _].
Qed.

Lemma clean_suffix (c : C) (t : list C) : clean (c :: t) = true -> clean t = true.
Proof. simpl. intros H. by apply andb_prop in H as [_ ?]. Qed.

Lemma clean_trim_start (z : list C) : clean z = true -> clean (trim_start z) = true.
Proof.
  induction z as [|c t IH]; [done|].
  intros H. simpl trim_start. destruct (is_ws c); [|done]. apply IH. by eapply clean_suffix.
Qed.

Lemma clean_trim_end (z : list C) : clean z = true -> clean (trim_end z) = true.
Proof.
  induction z as [|c t IH]; [done|].
  intros H. simpl trim_end. simpl in H. apply andb_prop in H as [Hp Ht].
  destruct (trim_end t) as [|d r] eqn:E.
  - by destruct (is_ws c).
  - destruct (trim_end_head _ _ _ E) as [r' ->].
    change (clean (c :: d :: r)) with (pair_ok c (d :: r) && clean (d :: r)).
    rewrite IH by done. rewrite andb_true_r. exact Hp.
Qed.

Lemma clean_app_nl (a b : list C) :
  has_nl a = false -> trim_end a = a -> clean b = true -> clean (a ++ nl :: b) = true.
Proof.
  intros Ha Hta Hb. induction a as [|c a IH].
  - simpl. rewrite Hb. destruct b; simpl; [done|]. by rewrite ceqb_refl, orb_true_r.
  - change (has_nl (c :: a)) with (eqb c nl || has_nl a) in Ha.
    apply orb_false_iff in Ha as [Hc Ha].
    pose proof (trim_end_cons_fixed _ _ Hta) as Ht.
    simpl. rewrite (IH Ha Ht). rewrite andb_true_r. destruct a as [|c' a].
    + simpl in Hta. destruct (is_ws c) eqn:Hw; [done|]. simpl. rewrite Hw.
      by destruct (eqb nl nl), (eqb c nl).
    + change (has_nl (c' :: a)) with (eqb c' nl || has_nl a) in Ha.
      apply orb_false_iff in Ha as [Hc' _]. simpl. by rewrite Hc'.
Qed.

Lemma clean_nl_free (a : list C) : has_nl a = false -> clean a = true.
Proof.
  induction a as [|c t IH]; [done|].
  intros H. change (has_nl (c :: t)) with (eqb c nl || has_nl t) in H.
  apply orb_false_iff in H as [_ Ht]. simpl. rewrite IH by done. rewrite andb_true_r.
  destruct t as [|d t]; [done|].
  change (has_nl (d :: t)) with (eqb d nl || has_nl t) in Ht.
  apply orb_false_iff in Ht as [Hd _]. simpl. by rewrite Hd.
Qed.

Lemma clean_join_nl (qs : list (list C)) :
  Forall (fun q => has_nl q = false /\ trim_end q = q) qs -> clean (join_nl qs) = true.
Proof.
  induction qs as [|q qs IH]; [done|].
  intros HF. inversion HF as [|? ? [Hq1 Hq2] HF']; subst.
  destruct qs as [|q2 qs].
  - by apply clean_nl_free.
  - change (join_nl (q :: q2 :: qs)) with (q ++ nl :: join_nl (q2 :: qs)).
    apply clean_app_nl; auto.
Qed.

Lemma clean_at (l1 l2 : list C) (c : C) :
  clean (l1 ++ c :: nl :: l2) = true -> eqb c nl = true \/ is_ws c = false.
Proof.
  induction l1 as [|x l1 IH].
  - simpl. intros H. apply andb_prop in H as [H _]. rewrite ceqb_refl in H.
    destruct (eqb c nl); [by left|right]. simpl in H. by destruct (is_ws c).
  - intros H. apply IH. by eapply clean_suffix.
Qed.

(** Shape of [split_nl]. *)
Lemma split_nl_free (r : list C) : has_nl r = false -> split_nl r = ([], r).
Proof.
  induction r as [|c r IH]; simpl; [done|].
  intros H. apply orb_false_iff in H as [Hc Hr]. rewrite IH, Hc by done. done.
Qed.

Lemma split_nl_line (a b : list C) :
  has_nl a = false -> split_nl (a ++ nl :: b) = (a :: fst (split_nl b), snd (split_nl b)).
Proof.
  induction a as [|c a IH]; simpl; intros H.
  - rewrite ceqb_refl. by destruct (split_nl b).
  - apply orb_false_iff in H as [Hc Ha]. rewrite IH by done. by rewrite Hc.
Qed.


Lemma split_nl_unsplit (ps : list (list C)) (r : list C) :
  Forall (fun p => has_nl p = false) ps -> has_nl r = false ->
  split_nl (unsplit ps r) = (ps, r).
Proof.
  intros Hps Hr. induction Hps as [|p ps Hp Hps IH]; unfold GText.unsplit in *.
  - by apply split_nl_free.
  - rewrite map_cons, concat_cons, <- !app_assoc. cbn [app].
    rewrite split_nl_line, IH by done. done.
Qed.

Lemma split_nl_spec (l : list C) :
  l = unsplit (fst (split_nl l)) (snd (split_nl l)) /\
  Forall (fun p => has_nl p = false) (fst (split_nl l)) /\ has_nl (snd (split_nl l)) = false.
Proof.
  induction l as [|c t IH]; [done|]. simpl.
  destruct (split_nl t) as [ps r]. simpl in IH. destruct IH as (Et & Hps & Hr).
  destruct (eqb c nl) eqn:Hc.
  - apply eqb_spec in Hc as ->. refine (conj _ (conj _ Hr)); [|by constructor].
    unfold GText.unsplit in *. simpl. by rewrite <- Et.
  - destruct ps as [|p ps'].
    + refine (conj _ (conj _ _)); [|done|].
      * unfold GText.unsplit in *. simpl in Et |- *. by rewrite Et.
      * change (eqb c nl || has_nl r = false). by rewrite Hc, Hr.
    + inversion Hps as [|? ? Hp Hps']; subst. refine (conj _ (conj _ Hr)).
      * unfold GText.unsplit. simpl. done.
      * constructor; [|done].
        change (eqb c nl || has_nl p = false). by rewrite Hc, Hp.
Qed.

Lemma lines_unsplit (ps : list (list C)) (r : list C) :
  Forall (fun p => has_nl p = false) ps -> has_nl r = false ->
  lines (unsplit ps r) = map strip_cr ps ++ match r with [] => [] | _ => [r] end.
Proof. intros. unfold GText.lines. by rewrite split_nl_unsplit. Qed.

Lemma join_nl_snoc (ps : list (list C)) (r : list C) :
  join_nl (ps ++ [r]) = unsplit ps r.
Proof.
  induction ps as [|p ps IH]; [done|]. unfold GText.unsplit in *.
  assert (ps ++ [r] <> []) as Hne by (destruct ps; discriminate).
  rewrite <- app_comm_cons. destruct (ps ++ [r]) as [|x y]; [done|].
  change (join_nl (p :: x :: y)) with (p ++ nl :: join_nl (x :: y)).
  rewrite IH, map_cons, concat_cons, <- !app_assoc. done.
Qed.

Lemma strip_cr_fixed (p : list C) : trim_end p = p -> strip_cr p = p.
Proof.
  unfold GText.strip_cr. intros H. destruct (rev p) as [|c r] eqn:E; [done|].
  destruct (eqb c cr) eqn:Hc; [|done].
  apply eqb_spec in Hc as ->.
  assert (p = rev r ++ [cr]) as Hp by (rewrite <- (rev_involutive p), E; done).
  exfalso. rewrite Hp in H. exact (trim_end_ws_last (rev r) cr is_ws_cr H).
Qed.

Lemma trim_end_strip_cr (p : list C) : trim_end (strip_cr p) = trim_end p.
Proof.
  unfold GText.strip_cr. destruct (rev p) as [|c r] eqn:E; [done|].
  destruct (eqb c cr) eqn:Hc; [|done].
  apply eqb_spec in Hc as ->.
  assert (p = rev r ++ [cr]) as Hp by (rewrite <- (rev_involutive p), E; done).
  rewrite Hp, trim_end_app_ws; [done|]. cbn [forallb]. by rewrite is_ws_cr.
Qed.

Lemma unsplit_cons (p : list C) (ps : list (list C)) (r : list C) :
  unsplit (p :: ps) r = p ++ nl :: unsplit ps r.
Proof. unfold GText.unsplit. rewrite map_cons, concat_cons, <- !app_assoc. done. Qed.

Lemma unsplit_snoc (ps : list (list C)) (r : list C) (d : C) :
  unsplit ps (r ++ [d]) = unsplit ps r ++ [d].
Proof. unfold GText.unsplit. by rewrite <- !app_assoc. Qed.

Lemma unsplit_last_piece (ps : list (list C)) (p : list C) :
  unsplit (ps ++ [p]) [] = (unsplit ps [] ++ p) ++ [nl].
Proof.
  unfold GText.unsplit. rewrite map_app, concat_app. simpl. by rewrite !app_nil_r, !app_assoc.
Qed.

Lemma clean_app_r (a b : list C) : clean (a ++ b) = true -> clean b = true.
Proof.
  induction a as [|x a IH]; [done|]. intros H. apply IH. by eapply clean_suffix.
Qed.

Lemma trimmed_last (l : list C) (c : C) :
  trim_end (l ++ [c]) = l ++ [c] -> is_ws c = false.
Proof.
  destruct (is_ws c) eqn:E; [|done]. intros H. exfalso. exact (trim_end_ws_last l c E H).
Qed.

Lemma clean_pieces (ps : list (list C)) (r : list C) :
  Forall (fun p => has_nl p = false) ps -> clean (unsplit ps r) = true ->
  Forall (fun p => trim_end p = p) ps.
Proof.
  induction 1 as [|p ps Hp Hps IH]; intros Hc; [done|].
  rewrite unsplit_cons in Hc. constructor.
  - destruct p as [|c q _] using rev_ind; [done|].
    apply trim_end_snoc. rewrite <- app_assoc in Hc. cbn [app] in Hc.
    destruct (clean_at _ _ _ Hc) as [Hn|Hn]; [|done].
    rewrite has_nl_app in Hp. simpl in Hp. rewrite Hn in Hp.
    by rewrite orb_true_r in Hp.
  - apply IH. apply (clean_app_r (p ++ [nl])). by rewrite <- app_assoc.
Qed.

(** A string that is clean and trimmed at both ends is a fixed point. *)
Lemma normalize_fixed (y : list C) :
  clean y = true -> trim_end y = y -> trim_start y = y -> normalize y = y.
Proof.
  intros Hc He Hs.
  destruct (split_nl_spec y) as (Ey & Hps & Hr). revert Ey Hps Hr.
  generalize (fst (split_nl y)) (snd (split_nl y)). intros ps r Ey Hps Hr. subst y.
  pose proof (clean_pieces ps r Hps Hc) as Hpfix.
  assert (Hm : map strip_cr ps = ps).
  { clear -Hpfix eqb_spec is_ws_cr. induction Hpfix; simpl; [done|]. f_equal; [by apply strip_cr_fixed|done]. }
  assert (Hm2 : map trim_end ps = ps).
  { clear -Hpfix. induction Hpfix; simpl; [done|]. by f_equal. }
  unfold GText.normalize. rewrite lines_unsplit, Hm by done.
  destruct r as [|d q _] using rev_ind.
  - destruct ps as [|p ps _] using rev_ind; [done|].
    exfalso. rewrite unsplit_last_piece in He. apply trimmed_last in He. by rewrite is_ws_nl in He.
  - assert (match q ++ [d] with [] => [] | _ => [q ++ [d]] end = [q ++ [d]]) as Hq
      by (destruct q; done).
    rewrite Hq, map_app, Hm2. simpl.
    rewrite unsplit_snoc in He. pose proof (trimmed_last _ _ He) as Hd.
    rewrite trim_end_snoc, join_nl_snoc by done.
    unfold GText.trim. rewrite <- unsplit_snoc in He. rewrite He.
    exact Hs.
Qed.

Lemma lines_nl_free (x : list C) : Forall (fun p => has_nl p = false) (lines x).
Proof.
  destruct (split_nl_spec x) as (_ & Hps & Hr). unfold GText.lines.
  destruct (split_nl x) as [ps r]. simpl in *. apply Forall_app. split.
  - apply Forall_map. eapply Forall_impl; [done|]. apply has_nl_strip_cr.
  - destruct r; [done|]. by constructor.
Qed.

Lemma normalize_shape (x : list C) :
  clean (normalize x) = true /\ trim_end (normalize x) = normalize x /\
  trim_start (normalize x) = normalize x.
Proof.
  unfold GText.normalize, GText.trim. split; [|split].
  - apply clean_trim_start, clean_trim_end, clean_join_nl.
    apply Forall_map. eapply Forall_impl; [apply lines_nl_free|].
    intros p Hp. split; [by apply has_nl_trim_end|apply trim_end_idem].
  - apply trim_end_trim_start, trim_end_idem.
  - apply trim_start_idem.
Qed.

Lemma normalize_idem (x : list C) : normalize (normalize x) = normalize x.
Proof.
  destruct (normalize_shape x) as (H1 & H2 & H3). by apply normalize_fixed.
Qed.


Lemma normalize_unsplit (ps : list (list C)) (r : list C) :
  Forall (fun p => has_nl p = false) ps -> has_nl r = false ->
  normalize (unsplit ps r) =
  trim (join_nl (map trim_end ps ++ match r with [] => [] | _ => [trim_end r] end)).
Proof.
  intros Hps Hr. unfold GText.normalize. rewrite lines_unsplit by done.
  rewrite map_app, map_map.
  assert (map (fun p => trim_end (strip_cr p)) ps = map trim_end ps) as ->
    by (apply map_ext; intros; apply trim_end_strip_cr).
  by destruct r.
Qed.

Lemma trim_join_empty_last (qs : list (list C)) :
  trim (join_nl (qs ++ [[]])) = trim (join_nl qs).
Proof.
  rewrite join_nl_snoc. destruct qs as [|q qs _] using rev_ind; [done|].
  rewrite unsplit_last_piece, join_nl_snoc. unfold GText.trim.
  rewrite trim_end_app_ws by (cbn [forallb]; by rewrite is_ws_nl).
  unfold GText.unsplit. by rewrite app_nil_r.
Qed.

Lemma normalize_pad_last (ps : list (list C)) (r w : list C) :
  Forall (fun p => has_nl p = false) ps -> has_nl r = false -> has_nl w = false ->
  forallb is_ws w = true ->
  normalize (unsplit ps (r ++ w)) = normalize (unsplit ps r).
Proof.
  intros Hps Hr Hw Hws.
  rewrite !normalize_unsplit by (try rewrite has_nl_app, Hr, Hw; done).
  rewrite trim_end_app_ws by done.
  destruct r as [|c r]; [|done].
  destruct w as [|d w]; [done|]. cbn [app GText.trim_end].
  rewrite app_nil_r. apply trim_join_empty_last.
Qed.

(** Lines that differ only in their pads and line endings normalize alike. *)
Lemma normalize_render (items : list (list C * list C * line_ending)) (l0 w0 : list C) :
  Forall (fun '(l, w, _) => has_nl l = false /\ has_nl w = false /\ forallb is_ws w = true) items ->
  has_nl l0 = false -> has_nl w0 = false -> forallb is_ws w0 = true ->
  normalize (unsplit (map piece items) (l0 ++ w0)) =
  normalize (unsplit (map (fun '(l, _, _) => l) items) l0).
Proof.
  intros HI Hl Hw1 Hw2.
  assert (HF : Forall (fun it => has_nl (piece it) = false /\
            has_nl (let '(l, _, _) := it in l) = false /\
            trim_end (piece it) = trim_end (let '(l, _, _) := it in l)) items).
  { eapply Forall_impl; [exact HI|]. intros [[l w] e] (H1 & H2 & H3). unfold GText.piece.
    split; [|split; [done|]].
    - rewrite !has_nl_app, H1, H2. destruct e; cbn; [done|]. by rewrite cr_nl.
    - apply trim_end_app_ws. rewrite forallb_app, H3. destruct e; cbn; [done|]. by rewrite is_ws_cr. }
  assert (Forall (fun p => has_nl p = false) (map piece items)) as HF1.
  { apply Forall_map. eapply Forall_impl; [done|]. by intros ? (? & ? & ?). }
  assert (Forall (fun p => has_nl p = false) (map (fun '(l, _, _) => l) items)) as HF2.
  { apply Forall_map. eapply Forall_impl; [done|]. by intros [[? ?] ?] (? & ? & ?). }
  rewrite normalize_pad_last by done.
  rewrite !normalize_unsplit by done.
  do 3 f_equal. rewrite !map_map. apply map_ext_Forall.
  eapply Forall_impl; [exact HF|]. intros [[l w] e] (_ & _ & Hx). exact Hx.
Qed.

(** The characters of the normalized text are line feeds or characters of
    the text. *)
Section Preserve.
Variable P : C -> Prop.

Lemma forall_trim_end l : Forall P l -> Forall P (trim_end l).
Proof.
  induction l as [|c t IH]; intros H; [done|]. inversion H as [|? ? Hc Ht]; subst.
  cbn [GText.trim_end]. destruct (trim_end t) as [|d r] eqn:E.
  - destruct (is_ws c); by repeat constructor.
  - constructor; [done|]. by apply IH.
Qed.

Lemma forall_trim_start l : Forall P l -> Forall P (trim_start l).
Proof.
  induction l as [|c t IH]; intros H; [done|]. inversion H as [|? ? Hc Ht]; subst.
  cbn [GText.trim_start]. destruct (is_ws c); [by apply IH|done].
Qed.

Lemma forall_strip_cr p : Forall P p -> Forall P (strip_cr p).
Proof.
  intros H. unfold GText.strip_cr. pose proof (Forall_rev H) as Hr.
  destruct (rev p) as [|c r]; [done|]. destruct (eqb c cr); [|done].
  inversion Hr; subst. by apply Forall_rev.
Qed.

Lemma forall_split_nl l :
  Forall P l -> Forall (Forall P) (fst (split_nl l)) /\ Forall P (snd (split_nl l)).
Proof.
  induction l as [|c t IH]; intros H; [done|]. inversion H as [|? ? Hc Ht]; subst.
  cbn [GText.split_nl]. destruct (split_nl t) as [ps rest]. destruct (IH Ht) as [H1 H2].
  simpl in H1, H2. destruct (eqb c nl); simpl.
  - split; [by constructor|done].
  - destruct ps as [|p ps']; simpl; [split; [done|by constructor]|].
    inversion H1; subst. split; [|done]. constructor; [by constructor|done].
Qed.

Lemma forall_lines l : Forall P l -> Forall (Forall P) (lines l).
Proof.
  intros H. unfold GText.lines. destruct (forall_split_nl l H) as [H1 H2].
  destruct (split_nl l) as [ps rest]. simpl in *. apply Forall_app. split.
  - apply Forall_map. eapply Forall_impl; [exact H1|]. apply forall_strip_cr.
  - destruct rest; [done|]. by constructor.
Qed.

Lemma forall_join_nl ps : P nl -> Forall (Forall P) ps -> Forall P (join_nl ps).
Proof.
  intros Hnl. induction 1 as [|p ps Hp Hps IH]; [done|].
  destruct ps as [|q ps]; [done|].
  change (join_nl (p :: q :: ps)) with (p ++ nl :: join_nl (q :: ps)).
  apply Forall_app. split; [done|]. by constructor.
Qed.

Lemma forall_normalize l : P nl -> Forall P l -> Forall P (normalize l).
Proof.
  intros Hnl H. unfold GText.normalize, GText.trim.
  apply forall_trim_start, forall_trim_end, forall_join_nl; [done|].
  apply Forall_map. eapply Forall_impl; [by apply forall_lines|]. apply forall_trim_end.
Qed.

End Preserve.

End Generic.
End TextFacts.

Module UTF8Facts.
Import UTF8.
Local Open Scope Z_scope.

Lemma byte_val_byte z : 0 <= z < 256 -> byte_val (byte z) = z.
Proof. intros H. unfold byte_val, byte. rewrite nat_ascii_embedding by lia. lia. Qed.

Lemma byte_val_bound b : 0 <= byte_val b < 256.
Proof. unfold byte_val. pose proof (nat_ascii_bounded b). lia. Qed.

Ltac zbool :=
  repeat match goal with
  | |- context [(?a <? ?b)] =>
      first [rewrite (proj2 (Z.ltb_lt a b)) by (Z.div_mod_to_equations; lia)
            |rewrite (proj2 (Z.ltb_ge a b)) by (Z.div_mod_to_equations; lia)]
  | |- context [(?a <=? ?b)] =>
      first [rewrite (proj2 (Z.leb_le a b)) by (Z.div_mod_to_equations; lia)
            |rewrite (proj2 (Z.leb_gt a b)) by (Z.div_mod_to_equations; lia)]
  end.

Lemma decode_encode_char c rest :
  valid_scalar c = true -> decode (encode_char c ++ rest) = c :: decode rest.
Proof.
  unfold valid_scalar. intros H.
  apply andb_prop in H as [H H3]. apply andb_prop in H as [H1 H2].
  apply Z.leb_le in H1. apply Z.ltb_lt in H2. apply negb_true_iff, andb_false_iff in H3.
  rewrite !Z.leb_gt in H3. unfold encode_char.
  destruct (Z.ltb_spec c 0x80); [|destruct (Z.ltb_spec c 0x800); [|destruct (Z.ltb_spec c 0x10000)]];
    cbn [app decode]; unfold is_cont, cont;
    rewrite ?byte_val_byte by (Z.div_mod_to_equations; lia);
    destruct H3 as [H3|H3]; zbool; cbn [andb negb]; f_equal; Z.div_mod_to_equations; lia.
Qed.

Lemma decode_encode l rest :
  Forall (fun c => valid_scalar c = true) l -> decode (encode l ++ rest) = app l (decode rest).
Proof.
  induction 1 as [|c l Hc Hl IH]; [done|].
  unfold encode in *. cbn [map List.concat]. rewrite <- app_assoc, decode_encode_char by done.
  cbn [app]. by rewrite IH.
Qed.

Lemma valid_bounds v : 0 <= v < 0xD800 \/ 0xDFFF < v < 0x110000 -> valid_scalar v = true.
Proof.
  intros H. unfold valid_scalar. zbool. cbn [andb negb].
  destruct (Z.leb_spec 0xD800 v), (Z.leb_spec v 0xDFFF); try done; lia.
Qed.

Lemma decode_valid l : Forall (fun c => valid_scalar c = true) (decode l).
Proof.
  remember (List.length l) as n eqn:En. revert l En.
  induction n as [n IH] using (well_founded_induction lt_wf). intros l En.
  destruct l as [|b0 r]; [constructor|]. cbn [decode].
  assert (IHr : forall l', (List.length l' < n)%nat -> Forall (fun c => valid_scalar c = true) (decode l'))
    by (intros l' Hl'; exact (IH _ Hl' l' eq_refl)).
  cbn [List.length] in En.
  pose proof (byte_val_bound b0) as B0.
  destruct (byte_val b0 <? 0x80) eqn:E0.
  { apply Z.ltb_lt in E0. constructor; [apply valid_bounds; lia|apply IHr; lia]. }
  destruct r as [|b1 r1]; [constructor; [apply valid_bounds; lia|apply IHr; simpl; lia]|].
  cbn [List.length] in En. pose proof (byte_val_bound b1) as B1.
  destruct ((0xC2 <=? byte_val b0) && (byte_val b0 <=? 0xDF) && is_cont b1) eqn:E1.
  { unfold is_cont, cont in *. rewrite !andb_true_iff, !Z.leb_le in E1.
    constructor; [apply valid_bounds; lia|apply IHr; lia]. }
  destruct r1 as [|b2 r2]; [constructor; [apply valid_bounds; lia|apply IHr; simpl; lia]|].
  cbn [List.length] in En. pose proof (byte_val_bound b2) as B2.
  match goal with |- Forall _ (if ?c then _ else _) => destruct c eqn:E2 end.
  { unfold is_cont, cont in *. rewrite !andb_true_iff, !Z.leb_le, negb_true_iff in E2.
    destruct E2 as [[[[[H1 H2] H3] H4] H5] H6].
    rewrite andb_false_iff, !Z.leb_gt in H6.
    constructor; [apply valid_bounds; lia|apply IHr; lia]. }
  destruct r2 as [|b3 r3]; [constructor; [apply valid_bounds; lia|apply IHr; simpl; lia]|].
  cbn [List.length] in En. pose proof (byte_val_bound b3) as B3.
  match goal with |- Forall _ (if ?c then _ else _) => destruct c eqn:E3 end.
  { unfold is_cont, cont in *. rewrite !andb_true_iff, !Z.leb_le in E3.
    constructor; [apply valid_bounds; lia|apply IHr; lia]. }
  constructor; [apply valid_bounds; lia|apply IHr; simpl; lia].
Qed.

Lemma decode_app a b : encode (decode a) = a -> decode (a ++ b) = app (decode a) (decode b).
Proof. intros H. rewrite <- H at 1. apply decode_encode, decode_valid. Qed.

End UTF8Facts.

Module TextFacts2.
Import UTF8 UTF8Facts.
Local Open Scope list_scope.

Lemma list_ascii_app (s1 s2 : string) :
  list_ascii_of_string (s1 ++ s2)%string = list_ascii_of_string s1 ++ list_ascii_of_string s2.
Proof. induction s1 as [|c s1 IH]; simpl; [done|]. by rewrite IH. Qed.

Lemma decode_encode_nil l :
  Forall (fun c => valid_scalar c = true) l -> decode (encode l) = l.
Proof. intros H. rewrite <- (app_nil_r (encode l)), decode_encode by done. apply app_nil_r. Qed.

Lemma utf8_ok_spec s :
  utf8_ok s = true -> encode (decode (list_ascii_of_string s)) = list_ascii_of_string s.
Proof.
  unfold utf8_ok. intros H. apply String.eqb_eq in H.
  rewrite <- H at 2. by rewrite list_ascii_of_string_of_list_ascii.
Qed.

Local Abbreviation dec s := (decode (list_ascii_of_string s)).

Lemma decode_str_app s t : utf8_ok s = true -> dec (s ++ t)%string = dec s ++ dec t.
Proof. intros H. rewrite list_ascii_app. apply decode_app. by apply utf8_ok_spec. Qed.

Local Abbreviation dec_item :=
  (fun it : string * string * line_ending => let '(l, w, e) := it in (dec l, dec w, e)).

Lemma lines_ok_cons l w e items last :
  lines_ok ((l, w, e) :: items) last = true ->
  line_text_ok l = true /\ pad_ok w = true /\ lines_ok items last = true.
Proof.
  unfold lines_ok. cbn [forallb]. rewrite !andb_true_iff. intros [[[[Hl Hw] Hit] Hl0] Hw0].
  split; [done|]. split; [done|]. by rewrite Hit, Hl0, Hw0.
Qed.

Lemma lines_ok_last items last :
  lines_ok items last = true -> line_text_ok (fst last) = true /\ pad_ok (snd last) = true.
Proof. unfold lines_ok. rewrite !andb_true_iff. intros [[_ Hl] Hw]. done. Qed.

Lemma line_utf8 l : line_text_ok l = true -> utf8_ok l = true.
Proof. unfold line_text_ok. rewrite andb_true_iff. by intros []. Qed.

Lemma pad_utf8 w : pad_ok w = true -> utf8_ok w = true.
Proof. unfold pad_ok. rewrite andb_true_iff. by intros []. Qed.

Lemma decode_render items last :
  lines_ok items last = true ->
  dec (render_lines items last) =
  GText.unsplit UText.nl (map (GText.piece UText.cr) (map dec_item items)) (dec (fst last) ++ dec (snd last)).
Proof.
  induction items as [|[[l w] e] items IH]; intros H.
  - destruct (lines_ok_last _ _ H) as [Hl _]. cbn [render_lines].
    rewrite decode_str_app by (by apply line_utf8). done.
  - destruct (lines_ok_cons _ _ _ _ _ H) as (Hl & Hw & Hrest).
    apply line_utf8 in Hl. apply pad_utf8 in Hw.
    cbn [render_lines].
    rewrite decode_str_app by done. rewrite decode_str_app by done.
    rewrite decode_str_app by (destruct e; reflexivity).
    rewrite IH by done. cbn [map]. rewrite TextFacts.unsplit_cons. cbn [GText.piece].
    destruct e; cbn [eol].
    + replace (dec LF) with [UText.nl] by reflexivity. by rewrite app_nil_r, <- !app_assoc.
    + replace (dec CRLF) with [UText.cr; UText.nl] by reflexivity. by rewrite <- !app_assoc.
Qed.

Lemma decode_plain items last :
  lines_ok items last = true ->
  dec (plain_lines items last) =
  GText.unsplit UText.nl (map (fun '(l, _, _) => l) (map dec_item items)) (dec (fst last)).
Proof.
  induction items as [|[[l w] e] items IH]; intros H; [done|].
  destruct (lines_ok_cons _ _ _ _ _ H) as (Hl & _ & Hrest).
  apply line_utf8 in Hl. cbn [plain_lines].
  rewrite decode_str_app by done. rewrite decode_str_app by reflexivity.
  rewrite IH by done. cbn [map]. rewrite TextFacts.unsplit_cons.
  replace (dec LF) with [UText.nl] by reflexivity. done.
Qed.

Lemma pad_split (l : list Z) :
  forallb (fun c => UText.is_ws c && negb (Z.eqb c UText.nl)) l = true ->
  forallb UText.is_ws l = true /\ GText.has_nl Z.eqb UText.nl l = false.
Proof.
  unfold GText.has_nl. induction l as [|c t IH]; [done|]. cbn [forallb existsb].
  rewrite !andb_true_iff, negb_true_iff. intros [[H1 H2] H3].
  rewrite H1, H2. by destruct (IH H3) as [-> ->].
Qed.

Lemma line_split (l : string) :
  line_text_ok l = true -> GText.has_nl Z.eqb UText.nl (dec l) = false.
Proof.
  unfold line_text_ok, GText.has_nl. rewrite andb_true_iff, negb_true_iff. by intros [].
Qed.

Lemma normalize_render_content items last :
  lines_ok items last = true ->
  UText.normalize (dec (render_lines items last)) = UText.normalize (dec (plain_lines items last)).
Proof.
  intros H. rewrite decode_render, decode_plain by done.
  destruct (lines_ok_last _ _ H) as [Hl Hw].
  unfold pad_ok in Hw. apply andb_prop in Hw as [_ Hw]. destruct (pad_split _ Hw) as [Hw1 Hw2].
  apply (TextFacts.normalize_render Z.eqb); try done.
  - intros a b. apply Z.eqb_eq.
  - clear -H. induction items as [|[[l w] e] items IH]; [constructor|].
    destruct (lines_ok_cons _ _ _ _ _ H) as (Hl & Hw & Hrest).
    constructor; [|by apply IH].
    unfold pad_ok in Hw. apply andb_prop in Hw as [_ Hw]. destruct (pad_split _ Hw) as [Hw1 Hw2].
    split; [by apply line_split|done].
  - by apply line_split.
Qed.

End TextFacts2.

(** C8. [normalize_content] is idempotent; texts that differ only in the
    trailing whitespace of their lines (any Unicode whitespace, as Rust's
    [trim_end]) and in the line-ending style (LF or CRLF) normalize to the
    same string; in particular [normalize("a \nb\n") = normalize("a\nb")],
    [normalize("a\r\nb") = normalize("a\nb")], and a trailing no-break
    space is removed: [normalize("a\u{a0}") = "a"] and
    [normalize("a\u{a0}\nb") = normalize("a\nb")]. *)
Theorem normalize_content_idempotent_equivalence :
  (forall x : string, normalize_content (normalize_content x) = normalize_content x) /\
  (forall items last, lines_ok items last = true ->
     normalize_content (render_lines items last) = normalize_content (plain_lines items last)) /\
  normalize_content ("a " ++ LF ++ "b" ++ LF) = normalize_content ("a" ++ LF ++ "b") /\
  normalize_content ("a" ++ CRLF ++ "b") = normalize_content ("a" ++ LF ++ "b") /\
  normalize_content ("a" ++ NBSP) = "a" /\
  normalize_content ("a" ++ NBSP ++ LF ++ "b") = normalize_content ("a" ++ LF ++ "b").
Proof.
  split; [|split; [|split; [|split; [|split]]]].
  - intros x. unfold normalize_content. rewrite list_ascii_of_string_of_list_ascii.
    rewrite TextFacts2.decode_encode_nil.
    + do 2 f_equal. apply TextFacts.normalize_idem; try done. intros a b. apply Z.eqb_eq.
    + apply TextFacts.forall_normalize; [done|]. apply UTF8Facts.decode_valid.
  - intros items last H. unfold normalize_content. by rewrite TextFacts2.normalize_render_content.
  - reflexivity.
  - reflexivity.
  - reflexivity.
  - reflexivity.
Qed.

(* ================================================================= *)
(** ** The conflict machine *)
(* ================================================================= *)

(** C5. [resolve_conflict] on [Force] answers [true] and on [Skip] answers
    [false], leaving the mode and the input as they are; so along any run of
    [resolve_conflict] calls, and through [write_with_conflict], a mode that
    is [Force] or [Skip] stays so. *)
Theorem resolve_conflict_force_skip_absorbing :
  (forall fp e n inp, resolve_conflict Force fp e n inp = (true, Force, inp)) /\
  (forall fp e n inp, resolve_conflict Skip fp e n inp = (false, Skip, inp)) /\
  (forall m calls inp, m = Force \/ m = Skip ->
     snd (fst (resolve_run m calls inp)) = m /\ snd (resolve_run m calls inp) = inp) /\
  (forall m w target new result dp, m = Force \/ m = Skip ->
     snd (fst (write_with_conflict w target new m result dp)) = m).
Proof.
  split; [done|]. split; [done|]. split.
  - intros m calls inp Hm. induction calls as [|[[fp e] n] calls IH]; [done|].
    destruct Hm as [-> | ->]; simpl in *;
      destruct (resolve_run _ calls inp) as [[bs m'] inp'] eqn:E; simpl in *; done.
  - intros m w target new result dp Hm. unfold write_with_conflict.
    destruct (fs w !! target) as [existing|]; [|done].
    destruct (String.eqb _ _); [done|].
    destruct Hm as [-> | ->]; done.
Qed.

(** An answer that is not recognised is asked again; a read error after any
    number of them answers [Skip]. *)
Lemma ask_user_read_error (da : bool) (junk : list string) (rest : stdin) :
  Forall (fun l => classify_answer da (str_trim l) = None) junk ->
  ask_user da ((map Some junk ++ None :: rest)%list) = (ConflictDecision.Skip, rest).
Proof.
  induction 1 as [|l junk Hl _ IH]; [done|].
  simpl. rewrite Hl. exact IH.
Qed.

Lemma resolve_loop_skip (da : bool) (inp rest : stdin) :
  ask_user da inp = (ConflictDecision.Skip, rest) ->
  resolve_loop da inp = (ConflictDecision.Skip, rest).
Proof. intros H. unfold resolve_loop. simpl. by rewrite H. Qed.

(** C9. A read error at a conflict prompt, after any number of answers that
    are not recognised, makes the prompt answer [Skip]; [write_with_conflict]
    then leaves the file as it is, records it as skipped, returns normally
    (the run goes on) and leaves the mode as it was: [Ask] stays [Ask], and
    [PreResolved] keeps its decisions and a [None] fallback. *)
Theorem read_error_skips_file (junk : list string) (rest : stdin) (w : world)
    (target new existing dp : string) (mode : ConflictMode) (result : ApplyResult) :
  Forall (fun l => classify_answer true (str_trim l) = None) junk ->
  fs w !! target = Some existing ->
  normalize_content existing <> normalize_content new ->
  input w = (map Some junk ++ None :: rest)%list ->
  (mode = Ask \/ exists d, mode = PreResolved d None /\ d !! dp = None) ->
  ask_user true (input w) = (ConflictDecision.Skip, rest) /\
  wwc target new mode result dp w = (Ok (mode, add_skipped result dp), set_input w rest).
Proof.
  intros Hj Hf Hn Hi Hm.
  assert (Ha : ask_user true (input w) = (ConflictDecision.Skip, rest))
    by (rewrite Hi; by apply ask_user_read_error).
  split; [exact Ha|].
  pose proof (resolve_loop_skip _ _ _ Ha) as Hl.
  unfold wwc, write_with_conflict. rewrite Hf.
  destruct (String.eqb_spec (normalize_content existing) (normalize_content new)) as [E|_];
    [contradiction|].
  destruct Hm as [-> | (d & -> & Hd)]; simpl.
  - by rewrite Hl.
  - rewrite Hd. by rewrite Hl.
Qed.

(** C10. On a missing target [write_with_conflict] writes the content and
    records it as created, whatever the mode (the input is not read and the
    mode is kept); on an existing target with the same normalized content it
    records it as unchanged without writing; only otherwise is
    [resolve_conflict] consulted. *)
Theorem write_with_conflict_absent_creates :
  (forall w target new mode result dp, fs w !! target = None ->
     write_with_conflict w target new mode result dp
     = (write_file w target new, mode, add_created result dp)) /\
  (forall w target new existing mode result dp, fs w !! target = Some existing ->
     normalize_content existing = normalize_content new ->
     write_with_conflict w target new mode result dp = (w, mode, add_unchanged result dp)) /\
  (forall w target new existing mode result dp, fs w !! target = Some existing ->
     normalize_content existing <> normalize_content new ->
     write_with_conflict w target new mode result dp
     = let '(b, mode', rest) := resolve_conflict mode dp (Some existing) (Some new) (input w) in
       if b then (write_file (set_input w rest) target new, mode', add_updated result dp)
       else (set_input w rest, mode', add_skipped result dp)).
Proof.
  split; [|split].
  - intros w target new mode result dp H. unfold write_with_conflict. by rewrite H.
  - intros w target new existing mode result dp H E. unfold write_with_conflict.
    rewrite H. apply String.eqb_eq in E. by rewrite E.
  - intros w target new existing mode result dp H E. unfold write_with_conflict.
    rewrite H. apply String.eqb_neq in E. by rewrite E.
Qed.

Lemma read_error_skips_file_witness :
  let w := {| fs := <[ "a.md" := "old" ]> ∅; input := [Some "?"; None] |} in
  ask_user true (input w) = (ConflictDecision.Skip, []) /\
  wwc "a.md" "new" Ask ApplyResult_new "a.md" w
  = (Ok (Ask, add_skipped ApplyResult_new "a.md"), set_input w []).
Proof.
  intros w.
  apply (read_error_skips_file ["?"] [] w "a.md" "new" "old" "a.md" Ask ApplyResult_new).
  - constructor; [vm_compute; reflexivity | constructor].
  - reflexivity.
  - vm_compute. discriminate.
  - reflexivity.
  - left. reflexivity.
Defined.

(* ================================================================= *)
(** ** Root files: scan and apply *)
(* ================================================================= *)

Module RootPlan.
Local Open Scope list_scope.

Lemma write_with_conflict_other w target new mode result dp k :
  k <> target ->
  fs (fst (fst (write_with_conflict w target new mode result dp))) !! k = fs w !! k.
Proof.
  intros Hk. unfold write_with_conflict.
  destruct (fs w !! target) as [existing|] eqn:E; simpl.
  - destruct (String.eqb _ _); [done|].
    destruct (resolve_conflict _ _ _ _ _) as [[[] m'] rest]; simpl; [|done].
    by rewrite lookup_insert_ne by congruence.
  - by rewrite lookup_insert_ne by congruence.
Qed.

Lemma change_of_ext w w' sec plan :
  (forall it, In it plan -> fs w' !! item_target it = fs w !! item_target it) ->
  map (change_of w' sec) plan = map (change_of w sec) plan.
Proof.
  induction plan as [|[[t c] d] plan IH]; intros H; [done|].
  simpl. f_equal.
  - pose proof (H (t, c, d) (or_introl eq_refl)) as Ht. unfold item_target in Ht. simpl in Ht.
    unfold change_of. by rewrite Ht.
  - apply IH. intros it Hi. apply H. by right.
Qed.

(** What apply does to one planned write, against what scan said of it. *)
Lemma write_step_change w sec t c d mode result :
  let ch := change_of w sec (t, c, d) in
  let r := snd (write_with_conflict w t c mode result d) in
  (created r = created result ++ (if negb (is_conflict ch) then [path ch] else [])) /\
  (unchanged r = unchanged result ++ (if is_identical ch then [path ch] else [])) /\
  Permutation (updated r ++ skipped r)
    (updated result ++ skipped result ++
       (if is_conflict ch && negb (is_identical ch) then [path ch] else [])).
Proof.
  unfold change_of, write_with_conflict.
  destruct (fs w !! t) as [existing|]; simpl.
  - destruct (String.eqb _ _); simpl.
    + rewrite !app_nil_r. done.
    + destruct (resolve_conflict _ _ _ _ _) as [[[] m'] rest]; simpl;
        rewrite ?app_nil_r; (split; [done|]); (split; [done|]).
      * rewrite <- !app_assoc. apply Permutation_app_head.
        simpl. apply Permutation_cons_append.
      * rewrite <- ?app_assoc. done.
  - rewrite !app_nil_r. done.
Qed.

Lemma write_plan_cons w it plan mode result :
  write_plan w (it :: plan) mode result
  = let '(w1, m1, r1) := write_step (w, mode, result) it in write_plan w1 plan m1 r1.
Proof. unfold write_plan. cbn [fold_left]. destruct (write_step (w, mode, result) it) as [[w1 m1] r1]; reflexivity. Qed.

Lemma write_plan_agreement w sec plan mode result :
  NoDup (map item_target plan) ->
  let changes := map (change_of w sec) plan in
  let r := snd (write_plan w plan mode result) in
  created r = created result ++ map path (creates changes) /\
  unchanged r = unchanged result ++ map path (unchanged_changes changes) /\
  Permutation (updated r ++ skipped r)
    (updated result ++ skipped result ++ map path (conflicts changes)).
Proof.
  revert w mode result.
  induction plan as [|[[t c] d] plan IH]; intros w mode result Hnd.
  - simpl. rewrite !app_nil_r. done.
  - inversion Hnd as [|? ? Hnot Hnd']; subst.
    pose proof (write_step_change w sec t c d mode result) as Hs. simpl in Hs.
    rewrite write_plan_cons. simpl.
    destruct (write_with_conflict w t c mode result d) as [[w1 m1] r1] eqn:E.
    simpl in Hs. destruct Hs as (Hc & Hu & Hp).
    assert (Hscan : map (change_of w1 sec) plan = map (change_of w sec) plan).
    { apply change_of_ext. intros it Hi.
      change w1 with (fst (fst (w1, m1, r1))). rewrite <- E.
      apply write_with_conflict_other. intros Heq. apply Hnot.
      rewrite <- Heq. apply list_elem_of_In. exact (in_map item_target plan it Hi). }
    destruct (IH w1 m1 r1 Hnd') as (IHc & IHu & IHp).
    rewrite Hscan in IHc, IHu, IHp.
    unfold creates, unchanged_changes, conflicts in *. simpl.
    split; [|split].
    + rewrite IHc, Hc, <- app_assoc.
      destruct (negb _); done.
    + rewrite IHu, Hu, <- app_assoc.
      destruct (is_identical _); done.
    + rewrite IHp. rewrite app_assoc, Hp.
      destruct (_ && _); simpl; rewrite <- !app_assoc; [|done].
      apply Permutation_app_head, Permutation_app_head. done.
Qed.

Lemma apply_root_loop_plan w rfs mode result :
  apply_root_loop w rfs mode result = write_plan w (map root_item rfs) mode result.
Proof.
  revert w mode result.
  induction rfs as [|f rfs IH]; intros w mode result; [done|].
  rewrite map_cons, write_plan_cons. simpl.
  destruct (write_with_conflict _ _ _ _ _ _) as [[w1 m1] r1]. apply IH.
Qed.

Lemma scan_root_files_plan w rfs :
  scan_root_files w rfs = map (change_of w "root") (map root_item rfs).
Proof.
  induction rfs as [|f rfs IH]; [done|].
  simpl. rewrite IH. f_equal.
  unfold scan_root_file, change_of, root_item. simpl.
  by destruct (fs w !! relative_path f).
Qed.

Lemma apply_one_to_one_plan files sec td dp ft ct mode result w :
  apply_one_to_one files sec td dp ft ct mode result w
  = let '(w', m', r') := write_plan w (map (one_to_one_item sec td dp ft ct) files) mode result in
    (Ok (m', r'), w').
Proof.
  revert w mode result.
  induction files as [|f files IH]; intros w mode result; [done|].
  rewrite map_cons, write_plan_cons. simpl.
  unfold bind, wwc. simpl.
  destruct (write_with_conflict _ _ _ _ _ _) as [[w1 m1] r1]. apply IH.
Qed.

Lemma scan_one_to_one_plan w files sec td dp ft ct sr :
  scan_one_to_one w files sec td dp ft ct sr
  = sr ++ map (change_of w sec) (map (one_to_one_item sec td dp ft ct) files).
Proof.
  revert sr.
  induction files as [|f files IH]; intros sr; simpl; [by rewrite app_nil_r|].
  rewrite IH. unfold add_change_with_content. rewrite <- app_assoc. f_equal.
Qed.

End RootPlan.

(** C1. With distinct target paths and the files unchanged between scan
    and apply, under any conflict mode and any input, for the root files
    of [pull_preset] and for a one-to-one section ([scan_one_to_one] /
    [apply_one_to_one]): the paths apply reports as [created] are exactly
    the ones scan marks as not conflicting, the ones it reports as
    [unchanged] are the ones scan marks as identical, and
    [updated ++ skipped] is a permutation of the ones scan marks as
    conflicting and not identical (the [conflicts] list of [pull_preset]). *)
Theorem scan_apply_agreement (w : world) (root_files files : list PresetFile) (mode : ConflictMode)
    (sec td dp : string) (ft : FilenameTransform) (ct : ContentTransform) :
  NoDup (map relative_path root_files) ->
  NoDup (map (fun f => item_target (one_to_one_item sec td dp ft ct f)) files) ->
  (let changes := scan_root_files w root_files in
   let r := snd (apply_root_loop w root_files mode ApplyResult_new) in
   created r = map path (creates changes) /\
   unchanged r = map path (unchanged_changes changes) /\
   Permutation (updated r ++ skipped r)%list (map path (conflicts changes))) /\
  (let changes := scan_one_to_one w files sec td dp ft ct [] in
   exists w' m' r, apply_one_to_one files sec td dp ft ct mode ApplyResult_new w = (Ok (m', r), w') /\
   created r = map path (creates changes) /\
   unchanged r = map path (unchanged_changes changes) /\
   Permutation (updated r ++ skipped r)%list (map path (conflicts changes))).
Proof.
  intros Hr Ho. split.
  - rewrite RootPlan.apply_root_loop_plan, RootPlan.scan_root_files_plan.
    pose proof (RootPlan.write_plan_agreement w "root" (map root_item root_files)
                  mode ApplyResult_new) as H.
    cbn [ApplyResult_new created updated skipped unchanged app] in H.
    apply H. by rewrite map_map.
  - cbv zeta. rewrite RootPlan.apply_one_to_one_plan, RootPlan.scan_one_to_one_plan.
    pose proof (RootPlan.write_plan_agreement w sec (map (one_to_one_item sec td dp ft ct) files)
                  mode ApplyResult_new) as H.
    cbn [ApplyResult_new created updated skipped unchanged app] in H |- *.
    destruct (write_plan _ _ _ _) as [[w' m'] r]. exists w', m', r. split; [done|].
    apply H. by rewrite map_map.
Qed.

Lemma scan_apply_agreement_witness :
  let w := {| fs := <[ "README.md" := "old" ]>
                      (<[ ".github/instructions/a.instructions.md" := "same" ]> ∅);
              input := [Some "o"] |} in
  let rf := [ {| relative_path := "README.md"; content := "new" |};
              {| relative_path := "AGENTS.md"; content := "x" |} ] in
  let rules := [ {| relative_path := "rules/a.md"; content := "same" |};
                 {| relative_path := "rules/b.md"; content := "---" ++ LF ++ "paths: x" ++ LF ++ "---" ++ LF ++ "y" |} ] in
  let ft : FilenameTransform := Some (fun stripped _ => add_suffix_before_ext stripped "instructions") in
  let ct : ContentTransform := Some (fun c => convert_frontmatter_key c "paths" "applyTo") in
  (let changes := scan_root_files w rf in
   let r := snd (apply_root_loop w rf Ask ApplyResult_new) in
   created r = map path (creates changes) /\
   unchanged r = map path (unchanged_changes changes) /\
   Permutation (updated r ++ skipped r)%list (map path (conflicts changes))) /\
  (let changes := scan_one_to_one w rules "rules" ".github/instructions" ".github/instructions" ft ct [] in
   exists w' m' r,
     apply_one_to_one rules "rules" ".github/instructions" ".github/instructions" ft ct
       Ask ApplyResult_new w = (Ok (m', r), w') /\
   created r = map path (creates changes) /\
   unchanged r = map path (unchanged_changes changes) /\
   Permutation (updated r ++ skipped r)%list (map path (conflicts changes))).
Proof.
  intros w rf rules ft ct.
  apply (scan_apply_agreement w rf rules Ask "rules" ".github/instructions" ".github/instructions" ft ct).
  - apply (bool_decide_unpack _). vm_compute. exact I.
  - apply (bool_decide_unpack _). vm_compute. exact I.
Defined.

(** C1, counterexample: a root file whose content is already on disk is
    marked conflicting by scan ([is_conflict] is [true]), but apply, under
    [Force], reports it neither updated nor skipped: it is [unchanged]. *)
Lemma root_scan_apply_identical_counterexample :
  let w := {| fs := <[ "README.md" := "X" ]> ∅; input := [] |} in
  let rf := [ {| relative_path := "README.md"; content := "X" |} ] in
  let r := snd (apply_root_loop w rf Force ApplyResult_new) in
  map path (List.filter is_conflict (scan_root_files w rf)) = ["README.md"] /\
  (updated r ++ skipped r)%list = [] /\
  unchanged r = ["README.md"].
Proof. vm_compute. split; [reflexivity | split; reflexivity]. Qed.

(* ================================================================= *)
(** ** The decide phase of [pull_preset] *)
(* ================================================================= *)

Lemma ask_conflict_resolution_one_line n inp :
  match ask_conflict_resolution n inp with
  | Decided _ rest => rest = tl inp
  | _ => True
  end.
Proof.
  unfold ask_conflict_resolution.
  destruct inp as [|[l|] r]; simpl; [done| |done].
  repeat match goal with |- context [if ?b then _ else _] => destruct b end; done.
Qed.

(** C6. Without the force and skip flags and with no conflicting change,
    the mode is [Force] and no input is read; the flags are looked at
    first ([--force] gives [Force], otherwise [--skip] gives [Skip],
    conflicts or not); and in every case the decide phase reads at most one
    line of input: the single coarse prompt, whose answer is the one mode
    passed on to the apply phase. *)
Theorem decide_phase_force_when_no_conflicts :
  (forall changes inp, conflicts changes = [] ->
     decide_conflict_mode false false changes inp = Decided Force inp) /\
  (forall skip changes inp, decide_conflict_mode true skip changes inp = Decided Force inp) /\
  (forall changes inp, decide_conflict_mode false true changes inp = Decided Skip inp) /\
  (forall force skip changes inp,
     match decide_conflict_mode force skip changes inp with
     | Decided _ rest => rest = inp \/ rest = tl inp
     | _ => True
     end).
Proof.
  split; [|split; [|split]].
  - intros changes inp H. unfold decide_conflict_mode. by rewrite H.
  - done.
  - done.
  - intros [] [] changes inp; unfold decide_conflict_mode; simpl; try (left; done).
    destruct (conflicts changes) as [|c cs]; [left; done|].
    pose proof (ask_conflict_resolution_one_line (List.length (c :: cs)) inp) as H.
    destruct (ask_conflict_resolution _ _); [right; done | done | done].
Qed.

(** C6, counterexample: with [--skip] and one change that is a plain
    creation (so the list of changes is not empty and [pull_preset] does
    reach the decide phase, and there are no conflicts), the mode is
    [Skip], not [Force]. *)
Lemma decide_phase_skip_flag_counterexample :
  let changes := [ {| path := "README.md"; section := "root";
                      is_conflict := false; is_identical := false |} ] in
  changes <> [] /\ conflicts changes = [] /\
  decide_conflict_mode false true changes [] = Decided Skip [] /\
  decide_conflict_mode false true changes [] <> Decided Force [].
Proof. simpl. split; [discriminate | split; [done | split; [done | discriminate]]]. Qed.

(* ================================================================= *)
(** ** The memory section *)
(* ================================================================= *)

(** C4. Let the memory section be non-empty, [N] the joined preset memory
    and [E] the content of [.claude/CLAUDE.md]. Under [Concat] the file
    becomes [E ++ "\n\n---\n\n" ++ N] and is reported updated, whatever the
    mode; under [Replace] either the file becomes exactly [N] and is
    reported updated, or it is kept as [E] and reported skipped or
    unchanged. *)
Theorem apply_memory_concat_replace (files : list PresetFile) (E : string) (w : world)
    (mode : ConflictMode) (result : ApplyResult) :
  files <> [] ->
  fs w !! CLAUDE_MD = Some E ->
  MEMORY_SEP = String Text.nl (String Text.nl ("---" ++ String Text.nl (String Text.nl ""))) /\
  apply_memory files Concat mode result w
  = (Ok (mode, add_updated result CLAUDE_MD),
     write_file w CLAUDE_MD (E ++ MEMORY_SEP ++ join_memory files)) /\
  (exists m' r w', apply_memory files Replace mode result w = (Ok (m', r), w') /\
     ((fs w' !! CLAUDE_MD = Some (join_memory files) /\ r = add_updated result CLAUDE_MD) \/
      (fs w' !! CLAUDE_MD = Some E /\
       (r = add_skipped result CLAUDE_MD \/ r = add_unchanged result CLAUDE_MD)))).
Proof.
  intros Hne Hf. split; [done|].
  destruct files as [|f files]; [contradiction|].
  unfold apply_memory, bind, get_world, put_world, ret. rewrite Hf.
  split; [done|].
  unfold wwc, write_with_conflict. rewrite Hf.
  destruct (String.eqb _ _).
  - eexists _, _, _. split; [reflexivity|]. right. split; [done | right; done].
  - destruct (resolve_conflict _ _ _ _ _) as [[[] m'] rest].
    + eexists _, _, _. split; [reflexivity|]. left. split; [|done].
      simpl. by rewrite lookup_insert.
    + eexists _, _, _. split; [reflexivity|]. right. split; [done | left; done].
Qed.

Lemma apply_memory_concat_replace_witness :
  let w := {| fs := <[ CLAUDE_MD := "E" ]> ∅; input := [Some "o"] |} in
  let files := [ {| relative_path := "memory/a.md"; content := "N" |} ] in
  MEMORY_SEP = String Text.nl (String Text.nl ("---" ++ String Text.nl (String Text.nl ""))) /\
  apply_memory files Concat Ask ApplyResult_new w
  = (Ok (Ask, add_updated ApplyResult_new CLAUDE_MD),
     write_file w CLAUDE_MD ("E" ++ MEMORY_SEP ++ join_memory files)) /\
  (exists m' r w', apply_memory files Replace Ask ApplyResult_new w = (Ok (m', r), w') /\
     ((fs w' !! CLAUDE_MD = Some (join_memory files) /\ r = add_updated ApplyResult_new CLAUDE_MD) \/
      (fs w' !! CLAUDE_MD = Some "E" /\
       (r = add_skipped ApplyResult_new CLAUDE_MD \/ r = add_unchanged ApplyResult_new CLAUDE_MD)))).
Proof.
  apply apply_memory_concat_replace; [discriminate | reflexivity].
Defined.

(* ================================================================= *)
(** ** Keyed JSON merges *)
(* ================================================================= *)

Module JsonMerge.
Local Open Scope list_scope.

Lemma obj_get_insert_same k v m : obj_get k (obj_insert k v m) = Some v.
Proof.
  induction m as [|[k' v'] m IH]; simpl.
  - by rewrite String.eqb_refl.
  - destruct (String.eqb_spec k k') as [->|Hne]; simpl.
    + by rewrite String.eqb_refl.
    + apply String.eqb_neq in Hne. by rewrite Hne.
Qed.

Lemma obj_get_insert_other k k' v m : k <> k' -> obj_get k (obj_insert k' v m) = obj_get k m.
Proof.
  intros Hne. induction m as [|[k2 v2] m IH]; simpl.
  - apply String.eqb_neq in Hne. by rewrite Hne.
  - destruct (String.eqb_spec k' k2) as [->|Hne2]; simpl.
    + apply String.eqb_neq in Hne. by rewrite Hne.
    + by rewrite IH.
Qed.

Lemma index_set_get v k f v' :
  index_set v k f = Ok v' ->
  exists x, f (match value_get v k with Some c => c | None => VNull end) = Ok x /\
            value_get v' k = Some x /\
            (forall k', k' <> k -> value_get v' k' = value_get v k').
Proof.
  unfold index_set. intros H. destruct v as [| | | | |m]; try discriminate H.
  - destruct (f VNull) as [x|e] eqn:E; inversion H; subst.
    exists x. simpl. rewrite String.eqb_refl. split; [done|]. split; [done|].
    intros k' Hk. apply String.eqb_neq in Hk. by rewrite Hk.
  - simpl. destruct (f _) as [x|e] eqn:E; inversion H; subst.
    exists x. simpl. split; [done|]. split; [apply obj_get_insert_same|].
    intros k' Hk. by apply obj_get_insert_other.
Qed.

Lemma assign2_get_same v k1 k2 x v' :
  assign2 v k1 k2 x = Ok v' -> value_get2 v' k1 k2 = Some x.
Proof.
  unfold assign2. intros H.
  destruct (index_set_get _ _ _ _ H) as (inner & Hi & Hg & _).
  destruct (index_set_get _ _ _ _ Hi) as (y & Hy & Hg2 & _).
  inversion Hy; subst. unfold value_get2. by rewrite Hg.
Qed.

Lemma assign2_get_other v k1 k2 k2' x v' :
  assign2 v k1 k2 x = Ok v' -> k2' <> k2 -> value_get2 v' k1 k2' = value_get2 v k1 k2'.
Proof.
  unfold assign2. intros H Hne.
  destruct (index_set_get _ _ _ _ H) as (inner & Hi & Hg & _).
  destruct (index_set_get _ _ _ _ Hi) as (y & _ & _ & Hother).
  unfold value_get2. rewrite Hg, Hother by done.
  destruct (value_get v k1) as [c|]; [done|]. reflexivity.
Qed.

Section Loops.
Variable from_str : string -> Result Value.

Lemma keyed_merge_app key wk l1 l2 c c' :
  keyed_merge from_str key wk (l1 ++ l2) c = Ok c' ->
  exists c1, keyed_merge from_str key wk l1 c = Ok c1 /\ keyed_merge from_str key wk l2 c1 = Ok c'.
Proof.
  revert c. induction l1 as [|f l1 IH]; intros c H; simpl in *; [eauto|].
  destruct (from_str (content f)) as [x|e]; [|discriminate].
  destruct (assign2 c wk (key f) x) as [c2|e]; [|discriminate].
  by apply IH.
Qed.

Lemma keyed_merge_other key wk k post c c' :
  Forall (fun g => key g <> k) post ->
  keyed_merge from_str key wk post c = Ok c' ->
  value_get2 c' wk k = value_get2 c wk k.
Proof.
  intros Hf. revert c. induction Hf as [|g post Hg _ IH]; intros c H; simpl in H.
  - by inversion H.
  - destruct (from_str (content g)) as [x|e]; [|discriminate].
    destruct (assign2 c wk (key g) x) as [c2|e] eqn:E; [|discriminate].
    rewrite (IH _ H). exact (assign2_get_other c wk (key g) k x c2 E (not_eq_sym Hg)).
Qed.

(** The value stored at key [k] is the parsed content of the last file
    with key [k]. *)
Lemma keyed_merge_last key wk pre f post k v c c' :
  key f = k ->
  Forall (fun g => key g <> k) post ->
  from_str (content f) = Ok v ->
  keyed_merge from_str key wk (pre ++ f :: post) c = Ok c' ->
  value_get2 c' wk k = Some v.
Proof.
  intros Hk Hpost Hv H.
  destruct (keyed_merge_app _ _ _ _ _ _ H) as (c1 & _ & H2).
  simpl in H2. rewrite Hv in H2.
  destruct (assign2 c1 wk (key f) v) as [c2|e] eqn:E; [|discriminate].
  rewrite (keyed_merge_other _ _ _ _ _ _ Hpost H2).
  subst k. by apply (assign2_get_same c1).
Qed.

Lemma json_merge_entries_keyed files sec wk c :
  json_merge_entries from_str files sec wk c = keyed_merge from_str (json_entry_name sec) wk files c.
Proof.
  revert c. induction files as [|f files IH]; intros c; [done|]. simpl.
  destruct (from_str (content f)); [|done].
  destruct (assign2 _ _ _ _); [apply IH | done].
Qed.

Lemma mcp_merge_entries_keyed files c :
  mcp_merge_entries from_str files c = keyed_merge from_str mcp_server_name "mcpServers" files c.
Proof.
  revert c. induction files as [|f files IH]; intros c; [done|]. simpl.
  destruct (from_str (content f)); [|done].
  destruct (assign2 _ _ _ _); [apply IH | done].
Qed.

End Loops.
End JsonMerge.

(** C7. In the merge loops of [apply_json_merge] and [apply_mcp], if the
    file [f] has key [k] and no later file has key [k], the value at
    [config[wrapper_key][k]] after the loop is [f]'s parsed content: a
    later file with the same key overwrites an earlier one. *)
Theorem keyed_json_merge_last_file_wins (from_str : string -> Result Value) :
  (forall section wrapper_key pre f post k v config config',
     json_entry_name section f = k ->
     Forall (fun g => json_entry_name section g <> k) post ->
     from_str (content f) = Ok v ->
     json_merge_entries from_str (pre ++ f :: post)%list section wrapper_key config = Ok config' ->
     value_get2 config' wrapper_key k = Some v) /\
  (forall pre f post k v settings settings',
     mcp_server_name f = k ->
     Forall (fun g => mcp_server_name g <> k) post ->
     from_str (content f) = Ok v ->
     mcp_merge_entries from_str (pre ++ f :: post)%list settings = Ok settings' ->
     value_get2 settings' "mcpServers" k = Some v).
Proof.
  split.
  - intros section wk pre f post k v c c' Hk Hpost Hv H.
    rewrite JsonMerge.json_merge_entries_keyed in H.
    exact (JsonMerge.keyed_merge_last _ _ _ _ _ _ _ _ _ _ Hk Hpost Hv H).
  - intros pre f post k v c c' Hk Hpost Hv H.
    rewrite JsonMerge.mcp_merge_entries_keyed in H.
    exact (JsonMerge.keyed_merge_last _ _ _ _ _ _ _ _ _ _ Hk Hpost Hv H).
Qed.

(* ================================================================= *)
(** ** Applying twice *)
(* ================================================================= *)

Module Idem.
Local Open Scope list_scope.

Lemma write_plan_app w p1 p2 m r :
  write_plan w (p1 ++ p2) m r = let '(w1, m1, r1) := write_plan w p1 m r in write_plan w1 p2 m1 r1.
Proof.
  unfold write_plan. rewrite fold_left_app.
  by destruct (fold_left write_step p1 (w, m, r)) as [[w1 m1] r1].
Qed.

Lemma bind_runs {B} sec plan (k : ConflictMode * ApplyResult -> M B) mode result w :
  runs_plan sec plan ->
  bind (sec mode result) k w = let '(w', m', r') := write_plan w plan mode result in k (m', r') w'.
Proof.
  intros H. unfold bind. rewrite H.
  by destruct (write_plan w plan mode result) as [[w' m'] r'].
Qed.

Lemma claude_dir_runs sec files : runs_plan (apply_claude_dir sec files) (map (claude_item sec) files).
Proof.
  induction files as [|f files IH]; intros mode result w; [done|].
  rewrite map_cons, RootPlan.write_plan_cons. simpl.
  unfold bind, wwc. simpl.
  destruct (write_with_conflict _ _ _ _ _ _) as [[w1 m1] r1]. apply IH.
Qed.

Lemma write_plan_single w t c d mode result :
  write_plan w [(t, c, d)] mode result = write_with_conflict w t c mode result d.
Proof. done. Qed.

Lemma memory_runs files strategy :
  strategy = Replace \/ files = [] -> runs_plan (apply_memory files strategy) (memory_items files).
Proof.
  intros Hs mode result w. destruct files as [|f files]; [done|].
  destruct Hs as [->|]; [|discriminate].
  unfold memory_items. rewrite write_plan_single.
  unfold apply_memory, bind, get_world, put_world, ret, wwc.
  destruct (fs w !! CLAUDE_MD) as [e|] eqn:E.
  - by destruct (write_with_conflict _ _ _ _ _ _) as [[w' m'] r'].
  - unfold write_with_conflict. by rewrite E.
Qed.

Lemma mcp_runs fs_ pp files strategy plan :
  strategy = Replace \/ files = [] -> mcp_items fs_ pp files = Some plan ->
  runs_plan (apply_mcp fs_ pp files strategy) plan.
Proof.
  intros Hs Hp mode result w. destruct files as [|f files].
  - inversion Hp; subst. done.
  - destruct Hs as [->|]; [|discriminate].
    unfold mcp_items in Hp.
    unfold apply_mcp, read_settings, bind, lift_result, ret.
    change (value_get (VObject []) "mcpServers") with (@None Value).
    change (index_set (VObject []) "mcpServers" (fun _ => Ok (VObject [])))
      with (@Ok Value (VObject [("mcpServers", VObject [])])).
    cbv beta iota.
    destruct (mcp_merge_entries fs_ (f :: files) _) as [v|e]; [|discriminate].
    inversion Hp; subst. rewrite write_plan_single. unfold wwc.
    by destruct (write_with_conflict _ _ _ _ _ _) as [[w' m'] r'].
Qed.

Lemma hooks_runs fs_ pp files plan :
  hooks_items fs_ pp files = Some plan -> runs_plan (apply_hooks fs_ pp files) plan.
Proof.
  intros Hp mode result w. destruct files as [|f files].
  - inversion Hp; subst. done.
  - unfold hooks_items in Hp.
    unfold apply_hooks, bind, lift_result, ret. cbv beta iota.
    destruct (hooks_entries fs_ (f :: files) []) as [h|e]; [|discriminate].
    inversion Hp; subst. rewrite write_plan_single. unfold wwc.
    by destruct (write_with_conflict _ _ _ _ _ _) as [[w' m'] r'].
Qed.

Lemma settings_runs fs_ pp files strategy plan :
  strategy = Replace \/ files = [] -> settings_items fs_ pp files = Some plan ->
  runs_plan (apply_settings fs_ pp files strategy) plan.
Proof.
  intros Hs Hp mode result w. destruct files as [|f files].
  - inversion Hp; subst. done.
  - destruct Hs as [->|]; [|discriminate].
    unfold settings_items in Hp.
    unfold apply_settings, read_settings, bind, lift_result, ret. cbv beta iota.
    destruct (settings_entries fs_ (f :: files) _) as [v|e]; [|discriminate].
    inversion Hp; subst. rewrite write_plan_single. unfold wwc.
    by destruct (write_with_conflict _ _ _ _ _ _) as [[w' m'] r'].
Qed.

Lemma claude_apply_plan fs_ pp tf plan mode w :
  (memory_strategy tf = Replace \/ memory tf = []) ->
  (mcp_strategy tf = Replace \/ mcp tf = []) ->
  (settings_strategy tf = Replace \/ settings tf = []) ->
  claude_plan fs_ pp tf = Some plan ->
  claude_apply fs_ pp tf mode w
  = let '(w', _, r) := write_plan w plan mode ApplyResult_new in (Ok r, w').
Proof.
  intros Hm Hc Hs Hp. unfold claude_plan in Hp.
  destruct (mcp_items fs_ pp (mcp tf)) as [pm|] eqn:Em; [|discriminate].
  destruct (hooks_items fs_ pp (hooks tf)) as [ph|] eqn:Eh; [|discriminate].
  destruct (settings_items fs_ pp (settings tf)) as [ps|] eqn:Es; [|discriminate].
  inversion Hp; subst plan. clear Hp.
  unfold claude_apply.
  rewrite (bind_runs _ _ _ _ _ _ (claude_dir_runs "rules" (rules tf))).
  rewrite write_plan_app.
  destruct (write_plan w _ mode ApplyResult_new) as [[w1 m1] r1]. simpl.
  rewrite (bind_runs _ _ _ _ _ _ (memory_runs _ _ Hm)).
  rewrite write_plan_app.
  destruct (write_plan w1 _ m1 r1) as [[w2 m2] r2]. simpl.
  rewrite (bind_runs _ _ _ _ _ _ (claude_dir_runs "commands" (commands tf))).
  rewrite write_plan_app.
  destruct (write_plan w2 _ m2 r2) as [[w3 m3] r3]. simpl.
  rewrite (bind_runs _ _ _ _ _ _ (mcp_runs _ _ _ _ _ Hc Em)).
  rewrite write_plan_app.
  destruct (write_plan w3 _ m3 r3) as [[w4 m4] r4]. simpl.
  rewrite (bind_runs _ _ _ _ _ _ (hooks_runs _ _ _ _ Eh)).
  rewrite write_plan_app.
  destruct (write_plan w4 _ m4 r4) as [[w5 m5] r5]. simpl.
  rewrite (bind_runs _ _ _ _ _ _ (claude_dir_runs "agents" (agents tf))).
  rewrite write_plan_app.
  destruct (write_plan w5 _ m5 r5) as [[w6 m6] r6]. simpl.
  rewrite (bind_runs _ _ _ _ _ _ (claude_dir_runs "skills" (skills tf))).
  rewrite write_plan_app.
  destruct (write_plan w6 _ m6 r6) as [[w7 m7] r7]. simpl.
  rewrite (bind_runs _ _ _ _ _ _ (settings_runs _ _ _ _ _ Hs Es)).
  destruct (write_plan w7 _ m7 r7) as [[w8 m8] r8]. done.
Qed.


(** After a [Force] write, the target holds content equal to the new one up
    to normalization. *)
Lemma write_force_target w t c result d :
  exists e, fs (fst (fst (write_with_conflict w t c Force result d))) !! t = Some e /\
            normalize_content e = normalize_content c.
Proof.
  unfold write_with_conflict.
  destruct (fs w !! t) as [existing|] eqn:E.
  - destruct (String.eqb_spec (normalize_content existing) (normalize_content c)) as [Heq|_].
    + exists existing. done.
    + exists c. simpl. rewrite lookup_insert_eq. done.
  - exists c. simpl. rewrite lookup_insert_eq. done.
Qed.

Lemma write_plan_other w plan mode result k :
  ~ In k (map item_target plan) ->
  fs (fst (fst (write_plan w plan mode result))) !! k = fs w !! k.
Proof.
  revert w mode result.
  induction plan as [|[[t c] d] plan IH]; intros w mode result Hk; [done|].
  rewrite RootPlan.write_plan_cons. simpl.
  destruct (write_with_conflict w t c mode result d) as [[w1 m1] r1] eqn:E.
  rewrite IH by (intros H; apply Hk; by right).
  change w1 with (fst (fst (w1, m1, r1))). rewrite <- E.
  apply RootPlan.write_with_conflict_other. intros ->. apply Hk. by left.
Qed.

Lemma write_plan_force_written w plan result :
  NoDup (map item_target plan) ->
  forall t c d, In (t, c, d) plan ->
  exists e, fs (fst (fst (write_plan w plan Force result))) !! t = Some e /\
            normalize_content e = normalize_content c.
Proof.
  revert w result.
  induction plan as [|[[t0 c0] d0] plan IH]; intros w result Hnd t c d Hin; [done|].
  inversion Hnd as [|? ? Hnot Hnd']; subst.
  rewrite RootPlan.write_plan_cons. simpl.
  pose proof (write_force_target w t0 c0 result d0) as Ht.
  destruct (write_with_conflict w t0 c0 Force result d0) as [[w1 m1] r1] eqn:E.
  assert (Hm : m1 = Force).
  { change m1 with (snd (fst (w1, m1, r1))). rewrite <- E. unfold write_with_conflict.
    destruct (fs w !! t0); [|done]. destruct (String.eqb _ _); done. }
  subst m1.
  destruct Hin as [Heq|Hin].
  - inversion Heq; subst. simpl in Ht.
    rewrite write_plan_other; [exact Ht|].
    intros H. apply Hnot. by apply list_elem_of_In.
  - exact (IH w1 r1 Hnd' t c d Hin).
Qed.

(** A run where every target already holds its content, up to
    normalization, changes nothing and reports every path unchanged. *)
Lemma write_plan_all_present w plan mode result :
  (forall t c d, In (t, c, d) plan ->
     exists e, fs w !! t = Some e /\ normalize_content e = normalize_content c) ->
  write_plan w plan mode result
  = (w, mode, {| created := created result; updated := updated result; skipped := skipped result;
                 unchanged := unchanged result ++ map item_display plan |}).
Proof.
  revert result.
  induction plan as [|[[t c] d] plan IH]; intros result H.
  - destruct result. simpl. by rewrite app_nil_r.
  - rewrite RootPlan.write_plan_cons. simpl.
    destruct (H t c d (or_introl eq_refl)) as (e & He & Hn).
    unfold write_with_conflict. rewrite He, Hn, String.eqb_refl.
    rewrite IH by (intros t' c' d' Hi; apply (H t' c' d'); by right).
    simpl. by rewrite <- app_assoc.
Qed.
End Idem.

(* ================================================================= *)
(** ** The mode across the passes of one run *)
(* ================================================================= *)

(** C3 (evaluation of the model). In [pull_apply] the answer "O"
    (overwrite all) to the prompt for the root file [README.md] turns the
    mode to [Force] only inside [apply_root_files], which drops it: the
    Claude adapter starts again from [Ask], prompts for
    [.claude/rules/a.md], reads "s" and skips it (and, the input being at
    its end, skips the command file as well). Inside one adapter the
    mode is threaded: the same answer given for the rule makes the later
    command file be overwritten without reading any more input. *)
Theorem overwrite_all_not_carried_to_next_adapter :
  let w := {| fs := <[ "README.md" := "old" ]> (<[ ".claude/rules/a.md" := "old" ]>
                    (<[ ".claude/commands/c.md" := "old" ]> ∅));
              input := [Some "O"; Some "s"] |} in
  let tf := {| rules := [ {| relative_path := "rules/a.md"; content := "new" |} ];
               memory := []; memory_strategy := Concat;
               commands := [ {| relative_path := "commands/c.md"; content := "new" |} ];
               mcp := []; mcp_strategy := Concat; hooks := []; agents := []; skills := [];
               settings := []; settings_strategy := Concat;
               root := [ {| relative_path := "README.md"; content := "new" |} ] |} in
  let tools := [ClaudeCodeAdapter sample_from_str sample_pretty] in
  (match pull_apply tf tools Ask w with
   | (Ok [("Root", r0); ("Claude Code", r1)], w') =>
       updated r0 = ["README.md"] /\
       skipped r1 = [".claude/rules/a.md"; ".claude/commands/c.md"] /\ updated r1 = [] /\
       fs w' !! ".claude/rules/a.md" = Some "old" /\ input w' = []
   | _ => False
   end) /\
  (match claude_apply sample_from_str sample_pretty tf Ask w with
   | (Ok r, w') =>
       updated r = [".claude/rules/a.md"; ".claude/commands/c.md"] /\ input w' = [Some "s"]
   | _ => False
   end).
Proof. vm_compute. repeat split. Qed.


Module Reports.
Local Open Scope list_scope.

Lemma reported_add_created r p : Permutation (reported (add_created r p)) (reported r ++ [p]).
Proof. unfold reported. simpl. solve_Permutation. Qed.

Lemma reported_add_updated r p : Permutation (reported (add_updated r p)) (reported r ++ [p]).
Proof. unfold reported. simpl. solve_Permutation. Qed.

Lemma reported_add_skipped r p : Permutation (reported (add_skipped r p)) (reported r ++ [p]).
Proof. unfold reported. simpl. solve_Permutation. Qed.

Lemma reported_add_unchanged r p : Permutation (reported (add_unchanged r p)) (reported r ++ [p]).
Proof. unfold reported. simpl. by rewrite <- !app_assoc. Qed.

Lemma write_with_conflict_reported w t c mode result d :
  Permutation (reported (snd (write_with_conflict w t c mode result d))) (reported result ++ [d]).
Proof.
  unfold write_with_conflict.
  destruct (fs w !! t) as [existing|].
  - destruct (String.eqb _ _); [apply reported_add_unchanged|].
    destruct (resolve_conflict _ _ _ _ _) as [[[] m'] rest];
      [apply reported_add_updated|apply reported_add_skipped].
  - apply reported_add_created.
Qed.

Lemma write_plan_reported w plan mode result :
  Permutation (reported (snd (write_plan w plan mode result))) (reported result ++ map item_display plan).
Proof.
  revert w mode result.
  induction plan as [|[[t c] d] plan IH]; intros w mode result; [by rewrite app_nil_r|].
  rewrite RootPlan.write_plan_cons. simpl.
  pose proof (write_with_conflict_reported w t c mode result d) as H.
  destruct (write_with_conflict w t c mode result d) as [[w1 m1] r1]. simpl in H.
  rewrite IH, H, <- app_assoc. done.
Qed.

Lemma bind_ok {A B} (m : M A) (k : A -> M B) w x :
  fst (bind m k w) = Ok x -> exists a w', m w = (Ok a, w') /\ fst (k a w') = Ok x.
Proof.
  unfold bind. destruct (m w) as [[a|e] w']; [|discriminate]. intros H. by exists a, w'.
Qed.

Lemma wwc_reported t c mode result d w mr w' :
  wwc t c mode result d w = (Ok mr, w') -> Permutation (reported (snd mr)) (reported result ++ [d]).
Proof.
  unfold wwc. pose proof (write_with_conflict_reported w t c mode result d) as H.
  destruct (write_with_conflict w t c mode result d) as [[w1 m1] r1]. simpl in H.
  intros E. inversion E; subst. exact H.
Qed.

Lemma lift_ok {A} (r : Result A) w a w' : lift_result r w = (Ok a, w') -> r = Ok a /\ w' = w.
Proof. destruct r; simpl; unfold ret, fail; intros E; inversion E; subst; done. Qed.


Lemma bind_eq {A B} (m : M A) (k : A -> M B) w x w'' :
  bind m k w = (Ok x, w'') -> exists a w', m w = (Ok a, w') /\ k a w' = (Ok x, w'').
Proof.
  unfold bind. destruct (m w) as [[a|e] w']; [|discriminate]. intros H. by exists a, w'.
Qed.

Lemma runs_plan_reported sec plan mode result w mr w' :
  runs_plan sec plan -> sec mode result w = (Ok mr, w') ->
  Permutation (reported (snd mr)) (reported result ++ map item_display plan).
Proof.
  intros Hr E. rewrite Hr in E.
  pose proof (write_plan_reported w plan mode result) as H.
  destruct (write_plan w plan mode result) as [[w1 m1] r1]. inversion E; subst. exact H.
Qed.

Ltac peel := repeat match goal with
  | H : bind _ _ _ = (Ok _, _) |- _ => apply bind_eq in H as (? & ? & ? & H)
  end.

Lemma memory_reported files strategy mode result w mr w' :
  apply_memory files strategy mode result w = (Ok mr, w') ->
  Permutation (reported (snd mr)) (reported result ++ once_if files CLAUDE_MD).
Proof.
  destruct files as [|f files]; simpl.
  - unfold ret. intros E. inversion E; subst. by rewrite app_nil_r.
  - unfold bind, get_world, put_world, ret.
    destruct (fs w !! CLAUDE_MD) as [e|]; [destruct strategy|].
    + intros E. inversion E; subst. apply reported_add_updated.
    + apply wwc_reported.
    + intros E. inversion E; subst. apply reported_add_created.
Qed.

Lemma read_settings_ok fs_ strategy w v w' :
  read_settings fs_ strategy w = (Ok v, w') -> w' = w.
Proof.
  destruct strategy; simpl; unfold bind, get_world, ret; [|intros E; by inversion E].
  destruct (fs w !! SETTINGS_LOCAL); [|intros E; by inversion E].
  intros E. by apply lift_ok in E as [_ ->].
Qed.

Lemma mcp_reported fs_ pp files strategy mode result w mr w' :
  apply_mcp fs_ pp files strategy mode result w = (Ok mr, w') ->
  Permutation (reported (snd mr)) (reported result ++ once_if files SETTINGS_LOCAL).
Proof.
  destruct files as [|f files]; simpl.
  - unfold ret. intros E. inversion E; subst. by rewrite app_nil_r.
  - intros E. peel. destruct (value_get _ _); peel; by apply wwc_reported in E.
Qed.

Lemma hooks_reported fs_ pp files mode result w mr w' :
  apply_hooks fs_ pp files mode result w = (Ok mr, w') ->
  Permutation (reported (snd mr)) (reported result ++ once_if files HOOKS_JSON).
Proof.
  destruct files as [|f files]; simpl.
  - unfold ret. intros E. inversion E; subst. by rewrite app_nil_r.
  - intros E. peel. by apply wwc_reported in E.
Qed.

Lemma settings_reported fs_ pp files strategy mode result w mr w' :
  apply_settings fs_ pp files strategy mode result w = (Ok mr, w') ->
  Permutation (reported (snd mr)) (reported result ++ once_if files SETTINGS_LOCAL).
Proof.
  destruct files as [|f files]; simpl.
  - unfold ret. intros E. inversion E; subst. by rewrite app_nil_r.
  - intros E. peel. by apply wwc_reported in E.
Qed.

End Reports.

(** X1. [write_with_conflict] changes no file but its target, and leaves
    the target either holding the new content or as it was (then it
    already existed); no file is ever removed. *)
Theorem write_with_conflict_touches_only_target (w : world) (target_path content0 : string)
    (mode : ConflictMode) (result : ApplyResult) (display_path : string) :
  let w' := fst (fst (write_with_conflict w target_path content0 mode result display_path)) in
  (forall k, k <> target_path -> fs w' !! k = fs w !! k) /\
  (fs w' !! target_path = Some content0 \/
   (fs w' !! target_path = fs w !! target_path /\ is_Some (fs w !! target_path))).
Proof.
  simpl. split; [intros k Hk; by apply RootPlan.write_with_conflict_other|].
  unfold write_with_conflict.
  destruct (fs w !! target_path) as [existing|] eqn:E.
  - destruct (String.eqb _ _); [right; simpl; rewrite ?E; split; [done|by eexists]|].
    destruct (resolve_conflict _ _ _ _ _) as [[[] m'] rest]; simpl.
    + left. by rewrite lookup_insert_eq.
    + right. simpl. rewrite ?E. split; [done|by eexists].
  - left. simpl. by rewrite lookup_insert_eq.
Qed.

(** X2. When the target does not exist, or exists with content equal to
    the new one up to [normalize_content], [write_with_conflict] reads no
    input and keeps the mode; a missing target is created with the new
    content, and an equivalent one is left byte for byte as it is (only
    reported unchanged). *)
Theorem write_with_conflict_settled_no_prompt (w : world) (target_path content0 : string)
    (mode : ConflictMode) (result : ApplyResult) (display_path : string) :
  let '(w', mode', result') := write_with_conflict w target_path content0 mode result display_path in
  (fs w !! target_path = None ->
     input w' = input w /\ mode' = mode /\ fs w' = <[target_path := content0]> (fs w) /\
     created result' = app (created result) [display_path]) /\
  (forall existing, fs w !! target_path = Some existing ->
     normalize_content existing = normalize_content content0 ->
     w' = w /\ mode' = mode /\ unchanged result' = app (unchanged result) [display_path]).
Proof.
  unfold write_with_conflict.
  destruct (fs w !! target_path) as [existing|] eqn:E.
  - destruct (String.eqb_spec (normalize_content existing) (normalize_content content0)) as [Heq|Hne].
    + simpl. split; [discriminate|]. intros e He Hn. by inversion He; subst.
    + destruct (resolve_conflict _ _ _ _ _) as [[b m'] rest].
      destruct b; simpl; (split; [discriminate|]); intros e He Hn; inversion He; subst; done.
  - simpl. split; [|discriminate]. intros _. done.
Qed.

(** X3. [apply_root_files] never fails and reports every root file once
    (in [created], [updated], [skipped] or [unchanged]); [apply_one_to_one]
    never fails and reports every file once under its display path
    [display_prefix/filename], [filename] being the stripped name passed
    through the filename transform when there is one. *)
Theorem apply_root_and_one_to_one_report_each_file (root_files files : list PresetFile)
    (section target_dir display_prefix : string) (ft : FilenameTransform) (ct : ContentTransform)
    (mode : ConflictMode) (result : ApplyResult) (w : world) :
  (exists r, fst (apply_root_files root_files mode w) = Ok r /\
             Permutation (reported r) (map relative_path root_files)) /\
  (exists m r, fst (apply_one_to_one files section target_dir display_prefix ft ct mode result w) = Ok (m, r) /\
     Permutation (reported r)
       (app (reported result)
          (map (fun f => display_prefix ++ "/" ++
                         match ft with
                         | Some transform => transform (strip_section_prefix (relative_path f) section) (content f)
                         | None => strip_section_prefix (relative_path f) section
                         end) files))).
Proof.
  split.
  - unfold apply_root_files. rewrite RootPlan.apply_root_loop_plan.
    pose proof (Reports.write_plan_reported w (map root_item root_files) mode ApplyResult_new) as H.
    destruct (write_plan _ _ _ _) as [[w1 m1] r1]. simpl in H |- *.
    exists r1. split; [done|]. rewrite H. simpl. rewrite map_map. done.
  - rewrite RootPlan.apply_one_to_one_plan.
    pose proof (Reports.write_plan_reported w (map (one_to_one_item section target_dir display_prefix ft ct) files)
                  mode result) as H.
    destruct (write_plan _ _ _ _) as [[w1 m1] r1]. simpl in H |- *.
    exists m1, r1. split; [done|]. rewrite H, map_map. done.
Qed.

(** X4. When [ClaudeCodeAdapter::apply] succeeds, its result reports each
    write of the run exactly once: one path per rules, commands, agents and
    skills file, and [.claude/CLAUDE.md], [.claude/settings.local.json]
    (for mcp, then again for settings) and [.claude/hooks.json] once for
    each of those sections that is non-empty. *)
Theorem claude_apply_reports_each_write (from_str : string -> Result Value) (pp : Value -> string)
    (tf : PresetFiles) (mode : ConflictMode) (w : world) (r : ApplyResult) :
  fst (claude_apply from_str pp tf mode w) = Ok r ->
  Permutation (reported r) (claude_displays tf).
Proof.
  destruct (claude_apply from_str pp tf mode w) as [res w'] eqn:E. simpl. intros ->.
  unfold claude_apply in E. Reports.peel.
  unfold ret in E. inversion E; subst. clear E.
  repeat match goal with
  | H : apply_claude_dir _ _ _ _ _ = (Ok _, _) |- _ =>
      apply (Reports.runs_plan_reported _ _ _ _ _ _ _ (Idem.claude_dir_runs _ _)) in H
  | H : apply_memory _ _ _ _ _ = (Ok _, _) |- _ => apply Reports.memory_reported in H
  | H : apply_mcp _ _ _ _ _ _ _ = (Ok _, _) |- _ => apply Reports.mcp_reported in H
  | H : apply_hooks _ _ _ _ _ _ = (Ok _, _) |- _ => apply Reports.hooks_reported in H
  | H : apply_settings _ _ _ _ _ _ _ = (Ok _, _) |- _ => apply Reports.settings_reported in H
  end.
  unfold apply_rules, apply_commands, apply_agents, apply_skills in *.
  repeat match goal with
  | H : apply_claude_dir _ _ _ _ _ = (Ok _, _) |- _ =>
      apply (Reports.runs_plan_reported _ _ _ _ _ _ _ (Idem.claude_dir_runs _ _)) in H
  end.
  unfold claude_displays.
  match goal with H : Permutation (reported (snd ?x)) _ |- Permutation (reported (snd ?x)) _ => rewrite H end.
  repeat match goal with H : Permutation (reported (snd ?x)) _ |- context [reported (snd ?x)] => rewrite H end.
  unfold reported at 1. simpl. rewrite <- !app_assoc. done.
Qed.

Module Answers.
Local Open Scope list_scope.

Lemma classify_no_diff input0 : classify_answer false input0 <> Some ConflictDecision.ShowDiff.
Proof.
  unfold classify_answer. rewrite andb_false_r.
  repeat match goal with |- context [if ?b then _ else _] => destruct b end; done.
Qed.

Lemma is_ws_lower c : Text.is_ws (ascii_to_lower c) = Text.is_ws c.
Proof. destruct c as [[] [] [] [] [] [] [] []]; reflexivity. Qed.

Lemma trim_end_lower l : Text.trim_end (map ascii_to_lower l) = map ascii_to_lower (Text.trim_end l).
Proof.
  induction l as [|c t IH]; [done|]. simpl. rewrite IH, is_ws_lower.
  destruct (Text.trim_end t); simpl; [by destruct (Text.is_ws c)|done].
Qed.

Lemma trim_start_lower l : Text.trim_start (map ascii_to_lower l) = map ascii_to_lower (Text.trim_start l).
Proof.
  induction l as [|c t IH]; [done|]. simpl. rewrite is_ws_lower.
  destruct (Text.is_ws c); [done|]. done.
Qed.

Lemma lower_trim s : str_to_lower (str_trim s) = str_trim (str_to_lower s).
Proof.
  unfold str_to_lower, str_trim, Text.trim.
  rewrite !list_ascii_of_string_of_list_ascii. by rewrite trim_end_lower, trim_start_lower.
Qed.

Lemma str_trim_empty_lower s : str_trim s = "" -> str_to_lower (str_trim s) = "".
Proof. intros ->. done. Qed.

End Answers.

(** X5. In [Ask] mode, [resolve_conflict] leaves the mode [Ask], or turns it
    into [Force] while writing, or into [Skip] while not writing; it never
    yields a [PreResolved] mode. *)
Theorem resolve_conflict_ask_transitions (file_path : string) (existing_content new_content : option string)
    (inp : stdin) :
  let '(should_write, mode', _) := resolve_conflict Ask file_path existing_content new_content inp in
  mode' = Ask \/ (mode' = Force /\ should_write = true) \/ (mode' = Skip /\ should_write = false).
Proof.
  unfold resolve_conflict.
  destruct (resolve_loop _ inp) as [[] rest]; simpl; tauto.
Qed.

(** X6. A [PreResolved] mode stays [PreResolved] with the same decision map;
    its fallback only changes from [None] to the decision just taken. A path
    in the map, or any path once the fallback is set, is decided without
    reading input by the recorded answer. *)
Theorem resolve_conflict_preresolved_invariant (decisions : gmap string bool) (fallback_all : option bool)
    (file_path : string) (existing_content new_content : option string) (inp : stdin) :
  let '(should_write, mode', rest) :=
    resolve_conflict (PreResolved decisions fallback_all) file_path existing_content new_content inp in
  (exists fb', mode' = PreResolved decisions fb' /\
               (fb' = fallback_all \/ (fallback_all = None /\ fb' = Some should_write))) /\
  (forall b, decisions !! file_path = Some b ->
     should_write = b /\ rest = inp /\ mode' = PreResolved decisions fallback_all) /\
  (forall b, decisions !! file_path = None -> fallback_all = Some b ->
     should_write = b /\ rest = inp /\ mode' = PreResolved decisions fallback_all).
Proof.
  unfold resolve_conflict.
  destruct (decisions !! file_path) as [b0|] eqn:E.
  - split; [by exists fallback_all; auto|].
    split; intros b Hb; [inversion Hb; subst; done|discriminate].
  - destruct fallback_all as [b0|].
    + split; [by exists (Some b0); auto|].
      split; [intros b Hb; discriminate|]. intros b _ Hb. inversion Hb; subst. done.
    + destruct (resolve_loop _ inp) as [[] rest]; simpl;
        (split; [eexists; split; [reflexivity|]; by auto|]);
        split; intros b Hb; try discriminate; intros Hf; discriminate.
Qed.

(** X7. Without both contents to compare, [ask_user] never answers
    [ShowDiff]: a ["d"] is not accepted and the user is asked again. *)
Theorem ask_user_no_diff_without_content (inp : stdin) :
  fst (ask_user false inp) <> ConflictDecision.ShowDiff.
Proof.
  induction inp as [|[line|] rest IH]; simpl; [discriminate| |discriminate].
  pose proof (Answers.classify_no_diff (str_trim line)) as H.
  destruct (classify_answer false (str_trim line)) as [d|]; [|exact IH].
  simpl. intros Hd. apply H. by rewrite Hd.
Qed.

(** X8. The answer to [ask_conflict_resolution] is case-insensitive: two
    lines that agree after lowering lead to the same outcome. *)
Theorem ask_conflict_resolution_case_insensitive (conflict_count : nat) (l1 l2 : string) (rest : stdin) :
  str_to_lower l1 = str_to_lower l2 ->
  ask_conflict_resolution conflict_count (Some l1 :: rest)
  = ask_conflict_resolution conflict_count (Some l2 :: rest).
Proof.
  intros H. unfold ask_conflict_resolution. simpl. by rewrite !Answers.lower_trim, H.
Qed.

(** X9. An empty or blank answer to [ask_conflict_resolution], and the end
    of input, cancel the run with exit code 0; a read error is propagated. *)
Theorem ask_conflict_resolution_blank_cancels (conflict_count : nat) :
  ask_conflict_resolution conflict_count [] = Exited 0 /\
  (forall l rest, str_trim l = "" -> ask_conflict_resolution conflict_count (Some l :: rest) = Exited 0) /\
  (forall rest, ask_conflict_resolution conflict_count (None :: rest) = ReadFailed).
Proof.
  split; [done|]. split; [|done].
  intros l rest H. unfold ask_conflict_resolution. simpl. by rewrite (Answers.str_trim_empty_lower l H).
Qed.

Lemma ask_conflict_resolution_case_insensitive_witness :
  str_to_lower "FORCE" = str_to_lower "force" /\
  ask_conflict_resolution 1 [Some "FORCE"] = ask_conflict_resolution 1 [Some "force"].
Proof.
  split; [reflexivity|]. apply (ask_conflict_resolution_case_insensitive 1 "FORCE" "force" []). reflexivity.
Defined.

Module Scans.
Local Open Scope list_scope.

Lemma alias_redundant tn f :
  (str_contains tn f || str_contains f tn ||
   (if String.eqb f "claude" then str_contains tn "claude"
    else if String.eqb f "cursor" then str_contains tn "cursor"
    else if String.eqb f "copilot" then str_contains tn "copilot"
    else false))
  = (str_contains tn f || str_contains f tn).
Proof.
  destruct (String.eqb_spec f "claude") as [->|_];
    [destruct (str_contains tn "claude"), (str_contains "claude" tn); reflexivity|].
  destruct (String.eqb_spec f "cursor") as [->|_];
    [destruct (str_contains tn "cursor"), (str_contains "cursor" tn); reflexivity|].
  destruct (String.eqb_spec f "copilot") as [->|_];
    [destruct (str_contains tn "copilot"), (str_contains "copilot" tn); reflexivity|].
  by rewrite orb_false_r.
Qed.

Lemma filter_all_true {A} (p : A -> bool) (l : list A) :
  (forall x, In x l -> p x = true) -> List.filter p l = l.
Proof.
  induction l as [|x l IH]; intros H; [done|]. simpl.
  rewrite (H x (or_introl eq_refl)), IH; [done|]. intros y Hy. apply H. by right.
Qed.

Lemma contains_empty s : str_contains s "" = true.
Proof. unfold str_contains. simpl. destruct (list_ascii_of_string s); done. Qed.

Lemma forallb_app_single (l : list PendingChange) c :
  forallb change_consistent (l ++ [c]) = forallb change_consistent l && change_consistent c.
Proof. rewrite forallb_app. simpl. by rewrite andb_true_r. Qed.

End Scans.

(** X10. The [--tools] filter of [pull_preset] keeps a tool exactly when,
    for some filter entry, the lowered tool name contains the lowered entry
    or the lowered entry contains the lowered tool name; the special arms
    for "claude", "cursor" and "copilot" never change the outcome. An empty
    entry selects every tool. *)
Theorem tool_filter_by_containment (all : list ToolAdapter) (filter : list string) :
  filter_tools all filter
  = List.filter (fun tool =>
                   existsb (fun f => str_contains (str_to_lower (tool_name tool)) f
                                     || str_contains f (str_to_lower (tool_name tool)))
                           (map str_to_lower filter)) all /\
  (In "" filter -> filter_tools all filter = all).
Proof.
  split.
  - unfold filter_tools, tool_matches. apply List.filter_ext. intros tool.
    generalize (map str_to_lower filter) as fl.
    induction fl as [|f fl IH]; simpl; [done|]. by rewrite Scans.alias_redundant, IH.
  - intros Hin. unfold filter_tools. apply Scans.filter_all_true. intros tool _.
    unfold tool_matches. apply existsb_exists. exists "". split.
    + change "" with (str_to_lower ""). by apply in_map.
    + by rewrite Scans.contains_empty.
Qed.

(** X11. Every way the scan phase records a change keeps the entry marked
    identical only when it is also marked conflicting: [ScanResult::add_change],
    [add_change_with_content], [scan_merged_section], [scan_one_to_one] and
    the root-file scan of [pull_preset]. *)
Theorem scan_changes_identical_implies_conflict (w : world) (sr : list PendingChange)
    (path0 section0 target_path preset_content display_prefix target_dir : string) (is_conflict0 : bool)
    (files root_files : list PresetFile) (ft : FilenameTransform) (ct : ContentTransform) :
  forallb change_consistent sr = true ->
  forallb change_consistent (add_change sr path0 section0 is_conflict0) = true /\
  forallb change_consistent (add_change_with_content w sr path0 section0 target_path preset_content) = true /\
  forallb change_consistent (scan_merged_section w files path0 section0 target_path sr) = true /\
  forallb change_consistent (scan_one_to_one w files section0 target_dir display_prefix ft ct sr) = true /\
  forallb change_consistent (scan_root_files w root_files) = true.
Proof.
  intros H.
  assert (Hac : forall sr' p s b, forallb change_consistent sr' = true ->
                 forallb change_consistent (add_change sr' p s b) = true).
  { intros sr' p s b Hs. unfold add_change. rewrite Scans.forallb_app_single, Hs. simpl.
    unfold change_consistent. simpl. by destruct b. }
  assert (Hcc : forall sr' p s t pc, forallb change_consistent sr' = true ->
                 forallb change_consistent (add_change_with_content w sr' p s t pc) = true).
  { intros sr' p s t pc Hs. unfold add_change_with_content. rewrite Scans.forallb_app_single, Hs. simpl.
    unfold change_consistent. destruct (fs w !! t); simpl; [|done]. by destruct (String.eqb _ _). }
  split; [by apply Hac|]. split; [by apply Hcc|]. split.
  - unfold scan_merged_section. destruct files; [done|]. by apply Hac.
  - split.
    + revert sr H. induction files as [|f files IH]; intros sr H; [done|]. simpl. apply IH. by apply Hcc.
    + induction root_files as [|f rfs IH]; [done|]. simpl. rewrite IH, andb_true_r.
      unfold scan_root_file, change_consistent.
      destruct (fs w !! relative_path f); simpl; [by destruct (String.eqb _ _)|done].
Qed.

(** X12. When every change identical is also conflicting, the three lists
    of the display phase of [pull_preset] (CREATE, UPDATE, UNCHANGED)
    split the changes: each change is listed exactly once. *)
Theorem changes_partition (changes : list PendingChange) :
  forallb change_consistent changes = true ->
  Permutation (app (creates changes) (app (conflicts changes) (unchanged_changes changes))) changes.
Proof.
  induction changes as [|c cs IH]; intros H; [done|].
  simpl in H. apply andb_prop in H as [Hc Hcs]. specialize (IH Hcs).
  unfold creates, conflicts, unchanged_changes in *. simpl.
  unfold change_consistent in Hc.
  destruct (is_conflict c), (is_identical c); simpl in *; try discriminate.
  - rewrite app_assoc. symmetry. apply Permutation_cons_app. rewrite <- app_assoc. by symmetry.
  - symmetry. apply Permutation_cons_app. by symmetry.
  - apply perm_skip. done.
Qed.

Lemma scan_changes_identical_implies_conflict_witness :
  forallb change_consistent [] = true /\
  forallb change_consistent
    (scan_root_files {| fs := <["README.md" := "x"]> ∅; input := [] |}
       [{| relative_path := "README.md"; content := "x" |}]) = true.
Proof.
  split; [reflexivity|].
  exact (proj2 (proj2 (proj2 (proj2 (scan_changes_identical_implies_conflict
    {| fs := <["README.md" := "x"]> ∅; input := [] |} [] "a" "root" "a" "x" "p" "d" false []
    [{| relative_path := "README.md"; content := "x" |}] None None eq_refl))))).
Defined.

Lemma changes_partition_witness :
  let cs := [{| path := "a"; section := "root"; is_conflict := true; is_identical := true |};
             {| path := "b"; section := "root"; is_conflict := false; is_identical := false |}] in
  forallb change_consistent cs = true /\
  Permutation (app (creates cs) (app (conflicts cs) (unchanged_changes cs))) cs.
Proof.
  intros cs. split; [reflexivity|]. apply (changes_partition cs). reflexivity.
Defined.

Module JsonFacts.
Local Open Scope list_scope.

Lemma obj_get_app k l1 l2 :
  obj_get k (l1 ++ l2) = match obj_get k l1 with Some v => Some v | None => obj_get k l2 end.
Proof.
  induction l1 as [|[k' v'] l1 IH]; [done|]. simpl. by destruct (String.eqb k k').
Qed.

Lemma obj_get_in k v l : obj_get k l = Some v -> In (k, v) l.
Proof.
  induction l as [|[k' v'] l IH]; simpl; [discriminate|].
  destruct (String.eqb_spec k k') as [->|_]; [intros H; inversion H; subst; by left|].
  intros H. right. by apply IH.
Qed.

Lemma obj_get_nodup k v l : NoDup (map fst l) -> In (k, v) l -> obj_get k l = Some v.
Proof.
  induction l as [|[k' v'] l IH]; simpl; [done|]. intros Hnd Hin.
  inversion Hnd as [|? ? Hnot Hnd']; subst.
  destruct Hin as [Heq|Hin].
  - inversion Heq; subst. by rewrite String.eqb_refl.
  - destruct (String.eqb_spec k k') as [->|_]; [|by apply IH].
    exfalso. apply Hnot. apply list_elem_of_In. exact (in_map fst l (k', v) Hin).
Qed.

Lemma obj_get_none k l : obj_get k l = None <-> ~ In k (map fst l).
Proof.
  induction l as [|[k' v'] l IH]; simpl; [tauto|].
  destruct (String.eqb_spec k k') as [->|Hne]; [split; [discriminate|tauto]|].
  rewrite IH. intuition.
Qed.

Lemma obj_get_rev_none k l : obj_get k l = None -> obj_get k (rev l) = None.
Proof.
  rewrite !obj_get_none, map_rev. intros H Hin. apply H. by apply in_rev.
Qed.

Lemma obj_get_rev_some k v l : NoDup (map fst l) -> obj_get k l = Some v -> obj_get k (rev l) = Some v.
Proof.
  intros Hnd H. apply obj_get_nodup.
  - rewrite map_rev. apply NoDup_ListNoDup, List.NoDup_rev, NoDup_ListNoDup. exact Hnd.
  - apply in_rev. rewrite rev_involutive. by apply obj_get_in.
Qed.

Local Abbreviation ins := (fun (m : list (string * Value)) (kv : string * Value) => obj_insert (fst kv) (snd kv) m).

Lemma obj_get_fold k nm m :
  obj_get k (fold_left ins nm m)
  = match obj_get k (rev nm) with Some v => Some v | None => obj_get k m end.
Proof.
  revert m. induction nm as [|[k' v'] nm IH]; intros m; [done|].
  simpl. rewrite IH, obj_get_app. destruct (obj_get k (rev nm)); [done|].
  simpl. destruct (String.eqb_spec k k') as [->|Hne].
  - apply JsonMerge.obj_get_insert_same.
  - by apply JsonMerge.obj_get_insert_other.
Qed.

Section Loops.
Variable from_str : string -> Result Value.

Lemma settings_entries_app l1 l2 s r :
  settings_entries from_str (l1 ++ l2) s = Ok r ->
  exists s1, settings_entries from_str l1 s = Ok s1 /\ settings_entries from_str l2 s1 = Ok r.
Proof.
  revert s. induction l1 as [|f l1 IH]; intros s H; [by exists s|].
  simpl in H |- *. destruct (from_str (content f)); [|discriminate]. by apply IH.
Qed.

Lemma settings_entries_non_object files s r :
  (forall m, s <> VObject m) -> settings_entries from_str files s = Ok r -> r = s.
Proof.
  revert s. induction files as [|f files IH]; intros s Hs H; simpl in H; [by inversion H|].
  destruct (from_str (content f)) as [v|]; [|discriminate].
  assert (Hk : (match v, s with
                | VObject new_map, VObject settings_map =>
                    VObject (fold_left (fun m kv => obj_insert (fst kv) (snd kv) m) new_map settings_map)
                | _, _ => s end) = s).
  { destruct v, s; try done. exfalso. by eapply Hs. }
  rewrite Hk in H. by apply IH.
Qed.

Lemma settings_entries_untouched files s r k :
  (forall f nm, In f files -> from_str (content f) = Ok (VObject nm) -> obj_get k nm = None) ->
  settings_entries from_str files s = Ok r -> value_get r k = value_get s k.
Proof.
  revert s. induction files as [|f files IH]; intros s Hk H; simpl in H; [by inversion H|].
  destruct (from_str (content f)) as [v|] eqn:Ef; [|discriminate].
  rewrite (IH _ (fun g nm Hg => Hk g nm (or_intror Hg)) H).
  destruct v as [| | | | |nm], s as [| | | | |m]; try done. simpl.
  change (fold_left (fun m kv => obj_insert (fst kv) (snd kv) m) nm m) with (fold_left ins nm m).
  rewrite obj_get_fold, (obj_get_rev_none k nm); [done|]. by apply (Hk f nm (or_introl eq_refl)).
Qed.

Lemma settings_entries_object files m r :
  settings_entries from_str files (VObject m) = Ok r -> exists m', r = VObject m'.
Proof.
  revert m. induction files as [|f files IH]; intros m H; simpl in H; [inversion H; by eexists|].
  destruct (from_str (content f)) as [[| | | | |nm]|]; try discriminate; by eapply IH.
Qed.

Lemma hooks_entries_app l1 l2 acc hs :
  hooks_entries from_str (l1 ++ l2) acc = Ok hs ->
  exists acc1, hooks_entries from_str l1 acc = Ok acc1 /\ hooks_entries from_str l2 acc1 = Ok hs.
Proof.
  revert acc. induction l1 as [|f l1 IH]; intros acc H; [by exists acc|].
  simpl in H |- *. destruct (from_str (content f)); [|discriminate]. by apply IH.
Qed.

Lemma hooks_entries_other files acc hs k :
  Forall (fun g => hook_name g <> k) files ->
  hooks_entries from_str files acc = Ok hs -> obj_get k hs = obj_get k acc.
Proof.
  revert acc. induction files as [|f files IH]; intros acc Hk H; simpl in H; [by inversion H|].
  inversion Hk as [|? ? Hf Hk']; subst.
  destruct (from_str (content f)); [|discriminate].
  rewrite (IH _ Hk' H). apply JsonMerge.obj_get_insert_other. unfold hook_name in Hf. congruence.
Qed.

End Loops.
End JsonFacts.

Ltac run_split :=
  repeat (unfold bind, get_world, lift_result, ret, fail, wwc, read_settings in *; case_match; simplify_eq/=);
  try (intros ?; simplify_eq/=; done); try done.

(** X13. The JSON sections write nothing when they fail: if
    [apply_json_merge], [apply_mcp], [apply_hooks] or [apply_settings]
    ends in an error (a file or the existing target not parsing, or a
    panic), the files are as they were before the call. *)
Theorem json_sections_write_nothing_on_error (from_str : string -> Result Value) (pp : Value -> string)
    (w : world) (mode : ConflictMode) (result : ApplyResult) :
  (forall files section target_path display_path wrapper_key default_json e w',
     apply_json_merge from_str pp files section target_path display_path wrapper_key default_json mode result w
     = (Err e, w') -> w' = w) /\
  (forall files strategy e w', apply_mcp from_str pp files strategy mode result w = (Err e, w') -> w' = w) /\
  (forall files e w', apply_hooks from_str pp files mode result w = (Err e, w') -> w' = w) /\
  (forall files strategy e w', apply_settings from_str pp files strategy mode result w = (Err e, w') -> w' = w).
Proof.
  split; [|split; [|split]].
  - intros [|f files] ? ? ? ? ? e w'; simpl; [unfold ret; discriminate|]. run_split.
  - intros [|f files] strategy e w'; simpl; [unfold ret; discriminate|]. destruct strategy; run_split.
  - intros [|f files] e w'; simpl; [unfold ret; discriminate|]. run_split.
  - intros [|f files] strategy e w'; simpl; [unfold ret; discriminate|]. destruct strategy; run_split.
Qed.

Lemma index_set_panic v k g : indexable v = false -> index_set v k g = Err IndexPanic.
Proof. by destruct v. Qed.

Lemma value_get_some_object v k x : value_get v k = Some x -> exists m, v = VObject m /\ obj_get k m = Some x.
Proof. destruct v; try discriminate. simpl. by eexists. Qed.

(** X14. [apply_json_merge] panics before writing anything when the
    existing target parses to a JSON value that is neither an object nor
    null (an array, say), or to an object whose [wrapper_key] holds such a
    value; the first preset file need only parse. *)
Theorem apply_json_merge_panics_on_non_object (from_str : string -> Result Value) (pp : Value -> string)
    (f : PresetFile) (rest : list PresetFile) (section target_path display_path wrapper_key : string)
    (default_json : Value) (mode : ConflictMode) (result : ApplyResult) (w : world)
    (existing : string) (config x : Value) :
  fs w !! target_path = Some existing ->
  from_str existing = Ok config ->
  from_str (content f) = Ok x ->
  (indexable config = false \/ exists v, value_get config wrapper_key = Some v /\ indexable v = false) ->
  apply_json_merge from_str pp (f :: rest) section target_path display_path wrapper_key default_json mode result w
  = (Err IndexPanic, w).
Proof.
  intros He Hc Hx Hbad. simpl. unfold bind, get_world, lift_result, ret, fail.
  rewrite He, Hc.
  destruct Hbad as [Hi|(v & Hv & Hi)].
  - assert (Hg : value_get config wrapper_key = None)
      by (destruct config; try discriminate; done).
    rewrite Hg, index_set_panic by exact Hi. done.
  - rewrite Hv. simpl. rewrite Hx.
    destruct (value_get_some_object _ _ _ Hv) as (m & -> & Hm).
    unfold assign2, index_set at 1. rewrite Hm, index_set_panic by exact Hi. done.
Qed.

(** X15. Under the [Concat] strategy, [ClaudeCodeAdapter::apply_mcp] panics
    before writing anything when [.claude/settings.local.json] parses to a
    value that is neither an object nor null, or to an object whose
    ["mcpServers"] is such a value; the first mcp file need only parse. *)
Theorem apply_mcp_panics_on_non_object (from_str : string -> Result Value) (pp : Value -> string)
    (f : PresetFile) (rest : list PresetFile) (mode : ConflictMode) (result : ApplyResult) (w : world)
    (existing : string) (settings0 x : Value) :
  fs w !! SETTINGS_LOCAL = Some existing ->
  from_str existing = Ok settings0 ->
  from_str (content f) = Ok x ->
  (indexable settings0 = false \/ exists v, value_get settings0 "mcpServers" = Some v /\ indexable v = false) ->
  apply_mcp from_str pp (f :: rest) Concat mode result w = (Err IndexPanic, w).
Proof.
  intros He Hc Hx Hbad. simpl. unfold bind, get_world, lift_result, ret, fail.
  rewrite He, Hc.
  destruct Hbad as [Hi|(v & Hv & Hi)].
  - assert (Hg : value_get settings0 "mcpServers" = None)
      by (destruct settings0; try discriminate; done).
    rewrite Hg, index_set_panic by exact Hi. done.
  - rewrite Hv. simpl. rewrite Hx.
    destruct (value_get_some_object _ _ _ Hv) as (m & -> & Hm).
    unfold assign2, index_set at 1. rewrite Hm, index_set_panic by exact Hi. done.
Qed.

(** X16. In [.claude/hooks.json] written by [apply_hooks], a hook name
    holds the configuration of the last hook file with that name, and a
    name no hook file has is absent. *)
Theorem apply_hooks_last_file_wins (from_str : string -> Result Value)
    (pre post : list PresetFile) (f : PresetFile) (x : Value) (hooks0 : list (string * Value)) :
  from_str (content f) = Ok x ->
  Forall (fun g => hook_name g <> hook_name f) post ->
  hooks_entries from_str (app pre (f :: post)) [] = Ok hooks0 ->
  obj_get (hook_name f) hooks0 = Some x /\
  (forall k, Forall (fun g => hook_name g <> k) (app pre (f :: post)) -> obj_get k hooks0 = None).
Proof.
  intros Hx Hpost H. split.
  - apply JsonFacts.hooks_entries_app in H as (acc1 & _ & H).
    simpl in H. rewrite Hx in H.
    rewrite (JsonFacts.hooks_entries_other _ _ _ _ _ Hpost H).
    apply JsonMerge.obj_get_insert_same.
  - intros k Hk. by rewrite (JsonFacts.hooks_entries_other _ _ _ _ _ Hk H).
Qed.

(** X17. The settings merge of [apply_settings] is shallow and top-level
    only. If the starting value (the existing settings file under [Concat])
    is not an object, every settings file is ignored; files that are not
    objects are ignored; a top-level key keeps its starting value unless a
    settings object sets it, and then holds the value of the last settings
    object that sets it (a [serde_json] map holds each key once). *)
Theorem apply_settings_shallow_merge (from_str : string -> Result Value)
    (files : list PresetFile) (settings0 r : Value) :
  settings_entries from_str files settings0 = Ok r ->
  ((forall m, settings0 <> VObject m) -> r = settings0) /\
  (forall k, (forall f nm, In f files -> from_str (content f) = Ok (VObject nm) -> obj_get k nm = None) ->
     value_get r k = value_get settings0 k) /\
  (forall pre f post nm m k v,
     settings0 = VObject m -> files = app pre (f :: post) ->
     from_str (content f) = Ok (VObject nm) -> NoDup (map fst nm) -> obj_get k nm = Some v ->
     (forall g nm', In g post -> from_str (content g) = Ok (VObject nm') -> obj_get k nm' = None) ->
     value_get r k = Some v).
Proof.
  intros H. split; [intros Hs; by eapply JsonFacts.settings_entries_non_object|].
  split; [intros k Hk; by eapply JsonFacts.settings_entries_untouched|].
  intros pre f post nm m k v -> -> Hf Hnd Hv Hpost.
  apply JsonFacts.settings_entries_app in H as (s1 & H1 & H2).
  destruct (JsonFacts.settings_entries_object _ _ _ _ H1) as (m1 & ->).
  simpl in H2. rewrite Hf in H2.
  rewrite (JsonFacts.settings_entries_untouched _ _ _ _ _ Hpost H2). simpl.
  by rewrite JsonFacts.obj_get_fold, (JsonFacts.obj_get_rev_some _ _ _ Hnd Hv).
Qed.

Lemma claude_apply_reports_each_write_witness :
  let tf := {| rules := [ {| relative_path := "rules/a.md"; content := "A" |} ];
               memory := [ {| relative_path := "memory/m.md"; content := "M" |} ];
               memory_strategy := Concat; commands := [];
               mcp := [ {| relative_path := "mcp/s.json"; content := "{}" |} ]; mcp_strategy := Replace;
               hooks := [ {| relative_path := "hooks/h.json"; content := "{}" |} ];
               agents := []; skills := [];
               settings := [ {| relative_path := "settings/s.json"; content := "{}" |} ];
               settings_strategy := Replace; root := [] |} in
  let w := {| fs := <[ CLAUDE_MD := "old" ]> ∅; input := [] |} in
  exists r, fst (claude_apply sample_from_str sample_pretty tf Force w) = Ok r /\
    Permutation (reported r) (claude_displays tf).
Proof.
  intros tf w. eexists. split.
  - vm_compute. reflexivity.
  - apply (claude_apply_reports_each_write sample_from_str sample_pretty tf Force w).
    vm_compute. reflexivity.
Defined.

Lemma apply_json_merge_panics_on_non_object_witness :
  let f := {| relative_path := "mcp/s.json"; content := "{}" |} in
  let w := {| fs := <[ ".vscode/mcp.json" := "[1]" ]> ∅; input := [] |} in
  apply_json_merge sample_from_str sample_pretty [f] "mcp" ".vscode/mcp.json" ".vscode/mcp.json"
    "servers" (VObject []) Ask ApplyResult_new w = (Err IndexPanic, w).
Proof.
  intros f w.
  apply (apply_json_merge_panics_on_non_object sample_from_str sample_pretty f [] "mcp"
           ".vscode/mcp.json" ".vscode/mcp.json" "servers" (VObject []) Ask ApplyResult_new w
           "[1]" (VString "[1]") (VString "{}")); [reflexivity | reflexivity | reflexivity | left; reflexivity].
Defined.

Lemma apply_mcp_panics_on_non_object_witness :
  let f := {| relative_path := "mcp/s.json"; content := "{}" |} in
  let w := {| fs := <[ SETTINGS_LOCAL := "{}" ]> ∅; input := [] |} in
  let from_str := fun s => if String.eqb s "{}" then Ok (VObject [("mcpServers", VBool true)]) else Ok VNull in
  apply_mcp from_str sample_pretty [f] Concat Ask ApplyResult_new w = (Err IndexPanic, w).
Proof.
  intros f w from_str.
  apply (apply_mcp_panics_on_non_object from_str sample_pretty f [] Ask ApplyResult_new w
           "{}" (VObject [("mcpServers", VBool true)]) (VObject [("mcpServers", VBool true)]));
    [reflexivity | reflexivity | reflexivity | right; eexists; split; reflexivity].
Defined.

Lemma apply_hooks_last_file_wins_witness :
  let f1 := {| relative_path := "hooks/pre.json"; content := "1" |} in
  let f2 := {| relative_path := "hooks/post.json"; content := "2" |} in
  let f3 := {| relative_path := "hooks/pre.json"; content := "3" |} in
  exists hs, hooks_entries sample_from_str [f1; f2; f3] [] = Ok hs /\
    obj_get "pre" hs = Some (VString "3").
Proof.
  intros f1 f2 f3. eexists. split; [vm_compute; reflexivity|].
  apply (apply_hooks_last_file_wins sample_from_str [f1; f2] [] f3 (VString "3")).
  - reflexivity.
  - constructor.
  - vm_compute. reflexivity.
Defined.

Lemma apply_settings_shallow_merge_witness :
  let from_str := fun s => Ok (VObject [("k", VString s); ("j", VNull)]) in
  let f1 := {| relative_path := "settings/a.json"; content := "A" |} in
  let f2 := {| relative_path := "settings/b.json"; content := "B" |} in
  exists r, settings_entries from_str [f1; f2] (VObject [("k", VNull); ("z", VBool true)]) = Ok r /\
    value_get r "k" = Some (VString "B").
Proof.
  intros from_str f1 f2. eexists. split; [vm_compute; reflexivity|].
  refine (proj2 (proj2 (apply_settings_shallow_merge from_str [f1; f2]
            (VObject [("k", VNull); ("z", VBool true)]) _ _))
          [f1] f2 [] [("k", VString "B"); ("j", VNull)] [("k", VNull); ("z", VBool true)] "k" (VString "B")
          eq_refl eq_refl eq_refl _ eq_refl _).
  - vm_compute. reflexivity.
  - apply NoDup_ListNoDup. repeat constructor; simpl; intuition discriminate.
  - intros g nm' [].
Defined.


Module FrontFacts.
Import Text TextAux Front.
Local Open Scope list_scope.

Lemma starts_with_app p x : starts_with p (p ++ x) = true.
Proof. induction p; simpl; [done|]. by rewrite Ascii.eqb_refl. Qed.

Lemma starts_with_app_inv p s : starts_with p s = true -> exists x, s = p ++ x.
Proof.
  revert s; induction p as [|a p IH]; intros s H; [by exists s|].
  destruct s as [|b s]; [discriminate|]. simpl in H.
  apply andb_prop in H as [Hab H]. apply Ascii.eqb_eq in Hab as ->.
  destruct (IH _ H) as [x ->]. by exists x.
Qed.

Lemma occurs_none pat s : occurs pat s = false -> starts_with pat s = false.
Proof. destruct s; simpl; intros H; apply orb_false_elim in H; tauto. Qed.

Lemma replace_fuel_no_occ fuel pat to s :
  pat <> [] -> occurs pat s = false -> replace_fuel fuel pat to s = s.
Proof.
  revert s; induction fuel as [|f IH]; intros s Hp Ho; [done|].
  destruct s as [|c r]; simpl.
  - by destruct pat.
  - destruct pat as [|a pat']; [done|].
    simpl in Ho. apply orb_false_elim in Ho as [Hs Ho].
    change (Ascii.eqb a c && starts_with pat' r) with (starts_with (a :: pat') (c :: r)).
    simpl in Hs |- *. rewrite Hs. f_equal. by apply IH.
Qed.

Lemma replace_fuel_prefix f pat to s :
  pat <> [] -> replace_fuel (S f) pat to (pat ++ s) = to ++ replace_fuel f pat to s.
Proof.
  intros Hp. destruct pat as [|a pat']; [done|]. simpl.
  rewrite Ascii.eqb_refl, starts_with_app. simpl. by rewrite drop_app_length.
Qed.

(** The prefix removed by [strip_section_prefix] is only the section's. *)
Lemma strip_prefix_l (sec name : list ascii) (to : list ascii) f :
  occurs (sec ++ ["/"%char]) name = false -> List.length name < f ->
  replace_fuel (S f) (sec ++ ["/"%char]) to ((sec ++ ["/"%char]) ++ name) = to ++ name.
Proof.
  intros Ho Hl. rewrite replace_fuel_prefix by (destruct sec; discriminate).
  f_equal. apply replace_fuel_no_occ; [destruct sec; discriminate|done].
Qed.

Lemma trim_start_ws lead x : forallb is_ws lead = true -> trim_start (lead ++ x) = trim_start x.
Proof.
  induction lead as [|c lead IH]; simpl; [done|].
  intros H. apply andb_prop in H as [Hc H]. rewrite Hc. by apply IH.
Qed.

Lemma find_from_step pat c s i :
  starts_with pat (c :: s) = false -> find_from pat (c :: s) i = find_from pat s (S i).
Proof. intros H. cbn [find_from]. by rewrite H. Qed.

Lemma find_no_nl p l s i :
  has_nl l = false -> find_from (nl :: p) (l ++ s) i = find_from (nl :: p) s (i + List.length l).
Proof.
  revert i; induction l as [|c l IH]; intros i H; [by rewrite Nat.add_0_r|].
  unfold has_nl in H. cbn [existsb] in H. apply orb_false_elim in H as [Hc H].
  cbn [app find_from starts_with]. rewrite Ascii.eqb_sym, Hc. cbn [andb].
  rewrite IH by exact H. f_equal. cbn [List.length]. lia.
Qed.

Lemma no_dashes_line l r :
  has_nl l = false -> starts_with dashes l = false -> starts_with dashes (l ++ nl :: r) = false.
Proof.
  unfold GText.has_nl.
  destruct l as [|a [|b [|c l]]]; simpl; intros Hn Hs; try done;
    repeat (apply orb_false_elim in Hn as [? Hn]);
    repeat match goal with H : Ascii.eqb ?x nl = false |- _ =>
      destruct (Ascii.eqb dash x) eqn:?; [apply Ascii.eqb_eq in Heqb; subst x; discriminate|]; clear H end;
    rewrite ?andb_false_r; try done.
  all: destruct (Ascii.eqb dash a), (Ascii.eqb dash b); try done.
Qed.

Local Abbreviation body ls := (List.concat (map (fun l => nl :: l) ls)).

Lemma body_nl ls r : exists y, body ls ++ nl :: r = nl :: y.
Proof. destruct ls as [|l ls]; simpl; by eexists. Qed.

Lemma find_body ls r i :
  Forall (fun l => has_nl l = false /\ starts_with dashes l = false) ls ->
  find_from (nl :: dashes) (body ls ++ nl :: r) i
  = find_from (nl :: dashes) (nl :: r) (i + List.length (body ls)).
Proof.
  revert i; induction ls as [|l ls IH]; intros i Hls; [by rewrite Nat.add_0_r|].
  inversion Hls as [|? ? [Hn Hd] Hls']; subst.
  change (body (l :: ls)) with ((nl :: l) ++ body ls). rewrite <- app_assoc. cbn [app].
  destruct (body_nl ls r) as [y Hy].
  assert (Hs : starts_with dashes (l ++ body ls ++ nl :: r) = false)
    by (rewrite Hy; by apply no_dashes_line).
  rewrite find_from_step by (cbn [starts_with]; by rewrite Ascii.eqb_refl, Hs).
  rewrite find_no_nl by exact Hn. rewrite IH by exact Hls'.
  f_equal. cbn [List.length]. rewrite ?length_app. lia.
Qed.

Lemma find_close ls tail :
  Forall (fun l => has_nl l = false /\ starts_with dashes l = false) ls ->
  find (nl :: dashes) (body ls ++ nl :: dashes ++ tail) = Some (List.length (body ls)).
Proof.
  intros H. unfold find. rewrite find_body by exact H. simpl. done.
Qed.

Local Abbreviation fm lead ls tail := (lead ++ dashes ++ body ls ++ nl :: dashes ++ tail).

Lemma fm_trimmed lead ls tail :
  forallb is_ws lead = true -> trim_start (fm lead ls tail) = dashes ++ body ls ++ nl :: dashes ++ tail.
Proof. intros H. by rewrite trim_start_ws. Qed.

Lemma has_frontmatter_fm lead ls tail :
  forallb is_ws lead = true ->
  Forall (fun l => has_nl l = false /\ starts_with dashes l = false) ls ->
  has_frontmatter_l (fm lead ls tail)
  = is_empty tail || starts_with [nl] tail || starts_with [cr; nl] tail.
Proof.
  intros Hl Hls. unfold has_frontmatter_l. rewrite fm_trimmed, starts_with_app by exact Hl.
  cbn [negb]. change (drop 3 (dashes ++ ?x)) with x.
  destruct (body_nl ls (dashes ++ tail)) as [y Hy].
  rewrite Hy at 1. cbn [starts_with]. rewrite Ascii.eqb_refl. cbn [andb negb].
  rewrite find_close by exact Hls.
  rewrite drop_app_ge by lia. replace (List.length (body ls) + 4 - List.length (body ls)) with 4 by lia.
  done.
Qed.

Lemma body_snoc ls : body ls ++ [nl] = nl :: List.concat (map (fun l => l ++ [nl]) ls).
Proof.
  induction ls as [|l ls IH]; [done|]. cbn [map List.concat].
  rewrite <- app_assoc, IH. cbn [app]. by rewrite <- app_assoc.
Qed.

Lemma join_nl_cons x ps : join_nl (x :: ps) = x ++ body ps.
Proof.
  revert x; induction ps as [|p ps IH]; intros x; simpl; [by rewrite app_nil_r|].
  specialize (IH p). simpl in IH. rewrite IH. done.
Qed.

Lemma convert_line_nil k k' : convert_line k k' [] = [].
Proof. unfold convert_line. destruct k; done. Qed.

Lemma convert_fm lead ls tail k k' :
  forallb is_ws lead = true ->
  Forall (fun l => has_nl l = false /\ starts_with dashes l = false) ls ->
  convert_frontmatter_key_l (fm lead ls tail) k k'
  = if is_empty tail || starts_with [nl] tail || starts_with [cr; nl] tail
    then dashes ++ body (map (fun l => convert_line k k' (strip_cr l)) ls) ++ dashes ++ tail
    else fm lead ls tail.
Proof.
  intros Hl Hls. unfold convert_frontmatter_key_l.
  rewrite has_frontmatter_fm by done.
  destruct (is_empty tail || _ || _); [|done]. cbn [negb].
  rewrite fm_trimmed by exact Hl.
  change (drop 3 (dashes ++ ?x)) with x.
  rewrite find_close by exact Hls.
  rewrite take_app_ge, drop_app_ge by lia.
  rewrite Nat.add_comm, Nat.add_sub.
  change (take 1 (nl :: dashes ++ tail)) with [nl]. change (drop 1 (nl :: dashes ++ tail)) with (dashes ++ tail).
  rewrite body_snoc.
  replace (nl :: List.concat (map (fun l => l ++ [nl]) ls)) with (unsplit ([] :: ls) [])
    by (unfold GText.unsplit; cbn [map List.concat app]; by rewrite app_nil_r).
  rewrite TextFacts.lines_unsplit.
  - rewrite app_nil_r. cbn [map]. change (strip_cr []) with (@nil ascii).
    rewrite join_nl_cons, convert_line_nil, map_map. cbn [app]. rewrite !map_map. reflexivity.
  - exact Ascii.eqb_eq.
  - constructor; [done|]. eapply Forall_impl; [exact Hls|]. by intros ? [].
  - done.
Qed.

End FrontFacts.

Lemma string_of_list_ascii_app (a b : list ascii) :
  string_of_list_ascii (a ++ b)%list = (string_of_list_ascii a ++ string_of_list_ascii b)%string.
Proof. induction a as [|c a IH]; simpl; [done|]. by rewrite IH. Qed.

(** X18. [strip_section_prefix] undoes the prefixing of a name with its
    section directory: a name in which neither [<section>/] nor
    [<section>\] occurs comes back unchanged. *)
Theorem strip_section_prefix_round_trip (name section : string) :
  str_contains name (section ++ "/") = false ->
  str_contains name (section ++ "\") = false ->
  strip_section_prefix (section ++ "/" ++ name) section = name.
Proof.
  intros H1 H2. unfold strip_section_prefix, str_replace, str_contains in *.
  assert (E1 : list_ascii_of_string (section ++ "/" ++ name)
               = ((list_ascii_of_string section ++ ["/"%char]) ++ list_ascii_of_string name)%list)
    by (rewrite !TextFacts2.list_ascii_app; simpl; by rewrite <- app_assoc).
  assert (E2 : list_ascii_of_string (section ++ "/") = (list_ascii_of_string section ++ ["/"%char])%list)
    by (by rewrite TextFacts2.list_ascii_app).
  rewrite E1, E2. rewrite E2 in H1.
  rewrite FrontFacts.strip_prefix_l; [| exact H1 | rewrite !length_app; cbn [List.length]; lia].
  cbn [list_ascii_of_string app]. rewrite string_of_list_ascii_of_string.
  rewrite FrontFacts.replace_fuel_no_occ; [apply string_of_list_ascii_of_string | | exact H2].
  rewrite TextFacts2.list_ascii_app. by destruct (list_ascii_of_string section).
Qed.

(** X19. [add_suffix_before_ext] puts the suffix before a final [.md], and
    after the whole name when the name does not end in [.md]. *)
Theorem add_suffix_before_ext_cases (suffix : string) :
  (forall stem, add_suffix_before_ext (stem ++ ".md") suffix = stem ++ "." ++ suffix ++ ".md") /\
  (forall filename, (forall stem, filename <> stem ++ ".md") ->
     add_suffix_before_ext filename suffix = filename ++ "." ++ suffix ++ ".md").
Proof.
  split.
  - intros stem. unfold add_suffix_before_ext, Front.add_suffix_before_ext_l, Front.strip_suffix.
    rewrite TextFacts2.list_ascii_app. change (list_ascii_of_string ".md") with Front.md_ext.
    rewrite rev_app_distr, FrontFacts.starts_with_app, length_app.
    replace (List.length (list_ascii_of_string stem) + List.length Front.md_ext - List.length Front.md_ext)
      with (List.length (list_ascii_of_string stem)) by lia.
    rewrite take_app_length, !string_of_list_ascii_app, string_of_list_ascii_of_string.
    cbn [string_of_list_ascii String.append]. rewrite string_of_list_ascii_app, string_of_list_ascii_of_string.
    done.
  - intros filename Hf. unfold add_suffix_before_ext, Front.add_suffix_before_ext_l.
    destruct (Front.strip_suffix Front.md_ext (list_ascii_of_string filename)) eqn:E.
    + exfalso. unfold Front.strip_suffix in E. case_match; [|discriminate].
      apply FrontFacts.starts_with_app_inv in H as [x Hx].
      apply (Hf (string_of_list_ascii (rev x))).
      rewrite <- (string_of_list_ascii_of_string filename).
      rewrite <- (rev_involutive (list_ascii_of_string filename)), Hx, rev_app_distr, rev_involutive.
      rewrite string_of_list_ascii_app. done.
    + rewrite !string_of_list_ascii_app, string_of_list_ascii_of_string.
      cbn [string_of_list_ascii String.append]. rewrite string_of_list_ascii_app, string_of_list_ascii_of_string.
      done.
Qed.

(** X20. [has_frontmatter] on a text made of optional leading whitespace,
    an opening [---], lines without a line feed none of which starts with
    [---], and a closing [---] on a line of its own: the text has front
    matter exactly when what follows the closing [---] is empty or starts
    with a line ending. *)
Theorem has_frontmatter_block (lead tail : list ascii) (ls : list (list ascii)) :
  forallb Text.is_ws lead = true ->
  Forall (fun l => TextAux.has_nl l = false /\ starts_with Front.dashes l = false) ls ->
  has_frontmatter (string_of_list_ascii
    (app lead (app Front.dashes (app (List.concat (map (fun l => Text.nl :: l) ls))
       (Text.nl :: app Front.dashes tail)))))
  = Front.is_empty tail || starts_with [Text.nl] tail || starts_with [Text.cr; Text.nl] tail.
Proof.
  intros Hl Hls. unfold has_frontmatter. rewrite list_ascii_of_string_of_list_ascii.
  by apply FrontFacts.has_frontmatter_fm.
Qed.

(** X21. [convert_frontmatter_key] on such a text rewrites the key on each
    front-matter line (after [lines] has removed a trailing carriage
    return), drops the leading whitespace, and does not keep the line feed
    before the closing [---]: the last front-matter line runs into it. A
    text without front matter is returned unchanged. *)
Theorem convert_frontmatter_key_block (lead tail : list ascii) (ls : list (list ascii)) (from_key to_key : string) :
  forallb Text.is_ws lead = true ->
  Forall (fun l => TextAux.has_nl l = false /\ starts_with Front.dashes l = false) ls ->
  let content := app lead (app Front.dashes (app (List.concat (map (fun l => Text.nl :: l) ls))
                   (Text.nl :: app Front.dashes tail))) in
  convert_frontmatter_key (string_of_list_ascii content) from_key to_key
  = if Front.is_empty tail || starts_with [Text.nl] tail || starts_with [Text.cr; Text.nl] tail
    then string_of_list_ascii (app Front.dashes
           (app (List.concat (map (fun l => Text.nl ::
                   Front.convert_line (list_ascii_of_string from_key) (list_ascii_of_string to_key)
                     (Text.strip_cr l)) ls))
                (app Front.dashes tail)))
    else string_of_list_ascii content.
Proof.
  intros Hl Hls content. unfold convert_frontmatter_key, content.
  rewrite list_ascii_of_string_of_list_ascii, FrontFacts.convert_fm by done.
  rewrite map_map. by case_match.
Qed.

Lemma strip_section_prefix_round_trip_witness :
  str_contains "code-style.md" ("rules" ++ "/") = false /\
  str_contains "code-style.md" ("rules" ++ "\") = false /\
  strip_section_prefix ("rules" ++ "/" ++ "code-style.md") "rules" = "code-style.md".
Proof.
  split; [reflexivity|]. split; [reflexivity|].
  apply strip_section_prefix_round_trip; reflexivity.
Defined.

Lemma add_suffix_before_ext_cases_witness :
  add_suffix_before_ext ("build" ++ ".md") "prompt" = "build.prompt.md" /\
  add_suffix_before_ext "readme" "prompt" = "readme.prompt.md".
Proof.
  destruct (add_suffix_before_ext_cases "prompt") as [H1 H2]. split.
  - apply H1.
  - apply H2. intros stem H.
    apply (f_equal (fun s => rev (list_ascii_of_string s))) in H.
    rewrite TextFacts2.list_ascii_app, rev_app_distr in H. simpl in H. discriminate H.
Defined.

Lemma has_frontmatter_block_witness :
  forallb Text.is_ws [" "%char] = true /\
  has_frontmatter " ---
description: R
globs: x
---
# C" = true.
Proof.
  split; [reflexivity|].
  apply (has_frontmatter_block [" "%char] (Text.nl :: list_ascii_of_string "# C")
           [list_ascii_of_string "description: R"; list_ascii_of_string "globs: x"]);
    [reflexivity | repeat constructor].
Defined.

Lemma convert_frontmatter_key_block_witness :
  convert_frontmatter_key " ---
description: R
globs: x
---
# C" "globs" "applyTo" = "---
description: R
applyTo: x---
# C".
Proof.
  apply (convert_frontmatter_key_block [" "%char] (Text.nl :: list_ascii_of_string "# C")
           [list_ascii_of_string "description: R"; list_ascii_of_string "globs: x"]);
    [reflexivity | repeat constructor].
Defined.


(* ================================================================= *)
(** ** The round trip of [Codec] *)
(* ================================================================= *)

Module CodecFacts.
Import Codec.
Local Open Scope list_scope.
Lemma Value_ind2 (P : Value -> Prop) :
  P VNull -> (forall b, P (VBool b)) -> (forall n, P (VNumber n)) -> (forall s, P (VString s)) ->
  (forall l, Forall P l -> P (VArray l)) ->
  (forall m, Forall (fun kx => P (snd kx)) m -> P (VObject m)) ->
  forall v, P v.
Proof.
  intros H0 H1 H2 H3 H4 H5. fix IH 1. intros [| | | | l | m].
  - exact H0.
  - apply H1.
  - apply H2.
  - apply H3.
  - apply H4. induction l as [|x l IHl]; constructor; [apply IH | exact IHl].
  - apply H5. induction m as [|[k x] m IHm]; constructor; [apply IH | exact IHm].
Qed.

Lemma dec_char c rest :
  dec_str (enc_char c ++ rest) =
  match dec_str rest with Some (s, r3) => Some (String c s, r3) | None => None end.
Proof. destruct c as [[] [] [] [] [] [] [] []]; reflexivity. Qed.

Lemma dec_enc_str s rest : dec_str (enc_str s ++ rest) = Some (s, rest).
Proof.
  induction s as [|c s IH]; [done|].
  change (enc_str (String c s)) with (enc_char c ++ enc_str s). rewrite <- app_assoc, dec_char, IH. done.
Qed.

Lemma dec_enc_pos p rest : dec_pos (enc_pos p ++ rest) = Some (p, rest).
Proof. induction p as [p IH|p IH|]; simpl; rewrite ?IH; done. Qed.

Lemma dec_enc_Z z rest : dec_Z (enc_Z z ++ rest) = Some (z, rest).
Proof. destruct z as [|p|p]; simpl; rewrite ?dec_enc_pos; done. Qed.

Lemma enc_head v : exists b t, enc v = b :: t /\ Ascii.eqb b "]" = false /\ Ascii.eqb b "}" = false.
Proof. destruct v as [| [] | | | |]; simpl; do 2 eexists; (split; [reflexivity | done]). Qed.

Lemma enc_str_head s : exists b t, enc_str s = b :: t /\ Ascii.eqb b "}" = false.
Proof.
  destruct s as [|c s]; [do 2 eexists; split; [reflexivity|done]|].
  destruct c as [[] [] [] [] [] [] [] []]; do 2 eexists; (split; [reflexivity|done]).
Qed.

Lemma enc_ok v : forall f rest, List.length (enc v) <= f -> dec f (enc v ++ rest) = Some (v, rest).
Proof.
  induction v as [| b | n | s | l IH | m IH] using Value_ind2; intros f rest Hf;
    (destruct f as [|f];
     [exfalso; match goal with H : List.length (enc ?v) <= 0 |- _ =>
        destruct (enc_head v) as (? & ? & Ht & _); rewrite Ht in H; simpl in H; lia end|]).
  - done.
  - by destruct b.
  - simpl. rewrite dec_enc_Z. done.
  - simpl. rewrite dec_enc_str. done.
  - simpl in Hf |- *.
    assert (Hl : forall f, List.length (List.concat (map enc l) ++ ["]"%char]) <= f ->
                 dec_arr f ((List.concat (map enc l) ++ ["]"%char]) ++ rest) = Some (l, rest)).
    { clear Hf f. induction IH as [|x l Hx _ IHl]; intros f Hf; (destruct f as [|f]; [rewrite length_app in Hf; simpl in Hf; lia|]).
      - done.
      - change (List.concat (map enc (x :: l))) with (enc x ++ List.concat (map enc l)) in Hf |- *.
        destruct (enc_head x) as (b & t & Ht & Hb & _).
        assert (Hlen : List.length (enc x) >= 1) by (rewrite Ht; simpl; lia).
        rewrite !length_app in Hf.
        rewrite <- !app_assoc. rewrite Ht. cbn [app dec_arr]. rewrite Hb, app_comm_cons, <- Ht.
        rewrite Hx by (simpl in Hf; lia).
        change ("]"%char :: rest) with (["]"%char] ++ rest). rewrite app_assoc, IHl; [done|].
        rewrite length_app. lia. }
    rewrite <- app_assoc in Hl |- *. rewrite Hl; [done|]. rewrite length_app in Hf |- *. lia.
  - simpl in Hf |- *.
    assert (Hl : forall f, List.length (List.concat (map (fun kx => match kx with (k, x) => enc_str k ++ enc x end) m) ++ ["}"%char]) <= f ->
                 dec_obj f ((List.concat (map (fun kx => match kx with (k, x) => enc_str k ++ enc x end) m) ++ ["}"%char]) ++ rest) = Some (m, rest)).
    { clear Hf f. induction IH as [|[k x] m Hx _ IHl]; intros f Hf; (destruct f as [|f]; [rewrite length_app in Hf; simpl in Hf; lia|]).
      - done.
      - change (List.concat (map (fun kx => match kx with (k, x) => enc_str k ++ enc x end) ((k, x) :: m)))
          with ((enc_str k ++ enc x) ++ List.concat (map (fun kx => match kx with (k, x) => enc_str k ++ enc x end) m)) in Hf |- *.
        destruct (enc_str_head k) as (b & t & Ht & Hb).
        assert (Hlen : List.length (enc x) >= 1) by (destruct (enc_head x) as (? & ? & -> & _); simpl; lia).
        rewrite !length_app in Hf.
        rewrite <- !app_assoc. rewrite Ht. cbn [app dec_obj]. rewrite Hb, app_comm_cons, <- Ht.
        rewrite dec_enc_str. simpl in Hx.
        rewrite Hx by (simpl in Hf; lia).
        change ("}"%char :: rest) with (["}"%char] ++ rest). rewrite app_assoc, IHl; [done|].
        rewrite length_app. lia. }
    rewrite <- app_assoc in Hl |- *. rewrite Hl; [done|]. rewrite length_app in Hf |- *. lia.
Qed.

Local Abbreviation safe_b b := ((UTF8.byte_val b <? 128) && negb (UText.is_ws (UTF8.byte_val b)))%Z.

Lemma decode_ascii l : forallb (fun b => safe_b b) l = true -> UTF8.decode l = map UTF8.byte_val l.
Proof.
  induction l as [|b l IH]; [done|]. cbn [forallb]. intros [[Hb _]%andb_prop Hl]%andb_prop.
  cbn [UTF8.decode map]. rewrite Hb. f_equal. by apply IH.
Qed.

Lemma encode_ascii l : forallb (fun b => safe_b b) l = true -> UTF8.encode (map UTF8.byte_val l) = l.
Proof.
  induction l as [|b l IH]; [done|]. cbn [forallb]. intros [[Hb _]%andb_prop Hl]%andb_prop.
  unfold UTF8.encode in *. cbn [map List.concat]. rewrite IH by done.
  unfold UTF8.encode_char. rewrite Hb. cbn [app]. f_equal.
  unfold UTF8.byte, UTF8.byte_val. rewrite Nat2Z.id. apply ascii_nat_embedding.
Qed.

Lemma normalize_no_ws (y : list Z) :
  forallb (fun c => negb (UText.is_ws c)) y = true -> UText.normalize y = y.
Proof.
  intros Hy.
  assert (He : GText.trim_end UText.is_ws y = y).
  { induction y as [|c y IH]; [done|]. cbn [forallb] in Hy. apply andb_prop in Hy as [Hc Hy].
    cbn [GText.trim_end]. rewrite IH by done. destruct y; [|done]. apply negb_true_iff in Hc. by rewrite Hc. }
  assert (Hs : GText.trim_start UText.is_ws y = y).
  { destruct y as [|c y]; [done|]. cbn [forallb] in Hy. apply andb_prop in Hy as [Hc _].
    apply negb_true_iff in Hc. cbn [GText.trim_start]. by rewrite Hc. }
  assert (Hc : GText.clean Z.eqb UText.is_ws UText.nl y = true).
  { clear He Hs. induction y as [|c y IH]; [done|]. cbn [forallb] in Hy. apply andb_prop in Hy as [Hc Hy].
    cbn [GText.clean]. rewrite IH by done. unfold GText.pair_ok. rewrite Hc. destruct y; rewrite ?orb_true_r; done. }
  apply (TextFacts.normalize_fixed Z.eqb); try done. intros a b. apply Z.eqb_eq.
Qed.

Lemma normalize_safe l :
  forallb (fun b => safe_b b) l = true -> normalize_content (string_of_list_ascii l) = string_of_list_ascii l.
Proof.
  intros Hl. unfold normalize_content. rewrite list_ascii_of_string_of_list_ascii, decode_ascii by done.
  rewrite normalize_no_ws, encode_ascii; [done|done|].
  clear -Hl. induction l as [|b l IH]; [done|]. cbn [forallb map] in *.
  apply andb_prop in Hl as [[_ Hb]%andb_prop Hl]. rewrite Hb. by apply IH.
Qed.

Lemma enc_char_safe c : forallb (fun b => safe_b b) (enc_char c) = true.
Proof. destruct c as [[] [] [] [] [] [] [] []]; reflexivity. Qed.

Lemma enc_str_safe s : forallb (fun b => safe_b b) (enc_str s) = true.
Proof.
  induction s as [|c s IH]; [done|].
  change (enc_str (String c s)) with (enc_char c ++ enc_str s). rewrite forallb_app, enc_char_safe. done.
Qed.

Lemma enc_pos_safe p : forallb (fun b => safe_b b) (enc_pos p) = true.
Proof. induction p; simpl; rewrite ?IHp; done. Qed.

Lemma enc_safe v : forallb (fun b => safe_b b) (enc v) = true.
Proof.
  induction v as [| [] | [|p|p] | s | l IH | m IH] using Value_ind2; cbn [enc enc_Z forallb];
    repeat (apply andb_true_intro; split; [reflexivity|]); rewrite ?enc_pos_safe, ?enc_str_safe; try done.
  - rewrite forallb_app. cbn. rewrite andb_true_r.
    induction IH as [|x l Hx _ IHl]; [done|]. cbn [map List.concat]. by rewrite forallb_app, Hx, IHl.
  - rewrite forallb_app. cbn. rewrite andb_true_r.
    induction IH as [|[k x] m Hx _ IHl]; [done|]. cbn [map List.concat].
    rewrite !forallb_app, enc_str_safe. simpl in Hx. by rewrite Hx, IHl.
Qed.

Lemma rt_roundtrip v : rt_from_str (rt_pp v) = Ok v.
Proof.
  unfold rt_from_str, rt_pp. rewrite normalize_safe by apply enc_safe.
  rewrite list_ascii_of_string_of_list_ascii.
  rewrite <- (app_nil_r (enc v)) at 2. rewrite enc_ok; [done|lia].
Qed.

Lemma rt_normalize_inj s v v' :
  rt_from_str s = Ok v -> normalize_content s = normalize_content (rt_pp v') -> v = v'.
Proof.
  intros Hs Hn. unfold rt_from_str in Hs. rewrite Hn in Hs.
  fold (rt_from_str (rt_pp v')) in Hs. rewrite rt_roundtrip in Hs. by inversion Hs.
Qed.
End CodecFacts.


(* ================================================================= *)
(** ** A second [Force] run of the Claude adapter *)
(* ================================================================= *)

Module Twice.
Local Open Scope list_scope.

Local Abbreviation ins := (fun (m : list (string * Value)) (kv : string * Value) => obj_insert (fst kv) (snd kv) m).

Lemma insert_present k v m : obj_get k m = Some v -> obj_insert k v m = m.
Proof.
  induction m as [|[k' v'] m IH]; simpl; [discriminate|].
  destruct (String.eqb_spec k k') as [->|_]; [intros H; by inversion H|].
  intros H. by rewrite IH.
Qed.

Lemma insert_insert k x y m : obj_insert k x (obj_insert k y m) = obj_insert k x m.
Proof.
  induction m as [|[k' v'] m IH]; simpl.
  - by rewrite String.eqb_refl.
  - destruct (String.eqb_spec k k') as [->|Hne]; simpl.
    + by rewrite String.eqb_refl.
    + apply String.eqb_neq in Hne. by rewrite Hne, IH.
Qed.

Lemma insert_comm k x k' y m :
  k <> k' -> obj_get k' m <> None ->
  obj_insert k x (obj_insert k' y m) = obj_insert k' y (obj_insert k x m).
Proof.
  intros Hne. induction m as [|[k2 v2] m IH]; simpl; [done|].
  destruct (String.eqb_spec k' k2) as [->|Hne2]; intros Hp.
  - apply String.eqb_neq in Hne as Hne'. simpl. rewrite Hne'. simpl. by rewrite String.eqb_refl.
  - apply String.eqb_neq in Hne2 as Hne2'. simpl.
    destruct (String.eqb_spec k k2) as [->|Hne3]; simpl.
    + by rewrite Hne2'.
    + rewrite Hne2'. f_equal. by apply IH.
Qed.

Lemma get_insert_present k k' v m : obj_get k m <> None -> obj_get k (obj_insert k' v m) <> None.
Proof.
  destruct (String.eqb_spec k k') as [->|Hne].
  - rewrite JsonMerge.obj_get_insert_same. done.
  - by rewrite JsonMerge.obj_get_insert_other.
Qed.

Lemma fold_present k L m : obj_get k m <> None -> obj_get k (fold_left ins L m) <> None.
Proof.
  revert m. induction L as [|kv L IH]; intros m H; simpl; [done|].
  apply IH. by apply get_insert_present.
Qed.

Lemma fold_keys_present L m k : In k (map fst L) -> obj_get k (fold_left ins L m) <> None.
Proof.
  revert m. induction L as [|[k' v'] L IH]; intros m H; simpl in *; [done|].
  destruct H as [->|H].
  - apply fold_present. by rewrite JsonMerge.obj_get_insert_same.
  - by apply IH.
Qed.

Lemma fold_get_notin k L m : ~ In k (map fst L) -> obj_get k (fold_left ins L m) = obj_get k m.
Proof.
  intros H. rewrite JsonFacts.obj_get_fold.
  rewrite JsonFacts.obj_get_rev_none; [done|]. by apply JsonFacts.obj_get_none.
Qed.

(** Inserting a key before a merge whose keys are all present. *)
Lemma fold_insert k x L M :
  (forall k', In k' (map fst L) -> obj_get k' M <> None) ->
  (In k (map fst L) -> fold_left ins L (obj_insert k x M) = fold_left ins L M) /\
  (~ In k (map fst L) -> fold_left ins L (obj_insert k x M) = obj_insert k x (fold_left ins L M)).
Proof.
  revert M. induction L as [|[k' v'] L IH]; intros M HP; simpl; [split; [done|done]|].
  assert (HP' : forall k2, In k2 (map fst L) -> obj_get k2 (obj_insert k' v' M) <> None).
  { intros k2 Hk2. apply get_insert_present. apply HP. simpl. by right. }
  assert (Hk' : obj_get k' M <> None) by (apply HP; by left).
  destruct (IH _ HP') as [IH1 IH2].
  destruct (String.eqb_spec k k') as [->|Hne].
  - split; [|intros H; exfalso; apply H; by left].
    intros _. by rewrite insert_insert.
  - rewrite <- (insert_comm k x k' v' M Hne Hk').
    split.
    + intros [H|H]; [congruence|]. by apply IH1.
    + intros H. apply IH2. intros H'. apply H. by right.
Qed.

(** A merge applied twice is applied once. *)
Lemma fold_twice L m : fold_left ins L (fold_left ins L m) = fold_left ins L m.
Proof.
  revert m. induction L as [|[k v] L IH]; intros m; simpl; [done|].
  set (M := fold_left ins L (obj_insert k v m)).
  assert (HP : forall k', In k' (map fst L) -> obj_get k' M <> None)
    by (intros k' Hk'; by apply fold_keys_present).
  destruct (fold_insert k v L M HP) as [H1 H2].
  destruct (in_dec string_dec k (map fst L)) as [Hin|Hnin].
  - rewrite H1 by done. subst M. by rewrite IH.
  - rewrite H2 by done. subst M. rewrite IH. apply insert_present.
    rewrite fold_get_notin by done. apply JsonMerge.obj_get_insert_same.
Qed.

Lemma forall2_in_r {A B} (P : A -> B -> Prop) l1 l2 y :
  Forall2 P l1 l2 -> In y l2 -> exists x, In x l1 /\ P x y.
Proof.
  induction 1 as [|x y' l1 l2 Hxy _ IH]; simpl; [done|].
  intros [->|Hy]; [exists x; split; [by left|done]|].
  destruct (IH Hy) as (x' & Hx' & Hp). exists x'. split; [by right|done].
Qed.

Section Loops.
Variable from_str : string -> Result Value.

(** The starting value of [apply_mcp] and [apply_settings] in a world. *)
Local Abbreviation start strategy u :=
  (match strategy with
   | Concat => match fs u !! SETTINGS_LOCAL with Some c => from_str c | None => Ok (VObject []) end
   | Replace => Ok (VObject [])
   end).

(** What [apply_mcp] computes from that value. *)
Local Abbreviation mcp_core files v0 :=
  (match (match value_get v0 "mcpServers" with
          | None => index_set v0 "mcpServers" (fun _ => Ok (VObject []))
          | Some _ => Ok v0
          end) with
   | Ok s => mcp_merge_entries from_str files s
   | Err e => Err e
   end).

Local Abbreviation mcp_parsed files Lm :=
  (Forall2 (fun f kv => from_str (content f) = Ok (snd kv) /\ fst kv = mcp_server_name f) files Lm).

Lemma mcp_loop files Lm m x0 im :
  mcp_parsed files Lm -> files <> [] -> obj_get "mcpServers" m = Some x0 ->
  (x0 = VNull /\ im = [] \/ x0 = VObject im) ->
  mcp_merge_entries from_str files (VObject m)
  = Ok (VObject (obj_insert "mcpServers" (VObject (fold_left ins Lm im)) m)).
Proof.
  intros HL. revert m x0 im. induction HL as [|f kc files Lm Hfk HL IH]; intros m x0 im Hne Hg Hx;
    [done|].
  destruct kc as [k cfg], Hfk as [Hf Hk]. simpl in Hf, Hk. subst k. cbn [mcp_merge_entries]. rewrite Hf.
  assert (Ha : assign2 (VObject m) "mcpServers" (mcp_server_name f) cfg
               = Ok (VObject (obj_insert "mcpServers" (VObject (obj_insert (mcp_server_name f) cfg im)) m))).
  { unfold assign2, index_set. rewrite Hg. destruct Hx as [[-> ->] | ->]; done. }
  rewrite Ha. destruct files as [|f' files].
  - inversion HL; subst. done.
  - rewrite (IH _ (VObject (obj_insert (mcp_server_name f) cfg im)) (obj_insert (mcp_server_name f) cfg im));
      [| done | apply JsonMerge.obj_get_insert_same | by right].
    by rewrite insert_insert.
Qed.

Lemma mcp_loop_parsed files s r :
  mcp_merge_entries from_str files s = Ok r -> exists Lm, mcp_parsed files Lm.
Proof.
  revert s. induction files as [|f files IH]; intros s H; [by exists []|].
  cbn [mcp_merge_entries] in H. destruct (from_str (content f)) as [cfg|] eqn:Ef; [|discriminate].
  destruct (assign2 _ _ _ _) as [s'|]; [|discriminate].
  destruct (IH _ H) as [Lm HL]. exists ((mcp_server_name f, cfg) :: Lm). by constructor.
Qed.

(** The value [apply_mcp] writes: the wrapper key holds an object that
    the merge leaves as it is. *)
Lemma mcp_core_result files v0 r :
  files <> [] -> mcp_core files v0 = Ok r ->
  exists Lm M I, mcp_parsed files Lm /\ r = VObject M /\
    obj_get "mcpServers" M = Some (VObject I) /\ fold_left ins Lm I = I.
Proof.
  intros Hne H.
  destruct (match value_get v0 "mcpServers" with
            | None => index_set v0 "mcpServers" (fun _ => Ok (VObject []))
            | Some _ => Ok v0 end) as [s|] eqn:Es; [|discriminate].
  destruct (mcp_loop_parsed _ _ _ H) as [Lm HL].
  assert (Hs : exists m x0, s = VObject m /\ obj_get "mcpServers" m = Some x0).
  { destruct (value_get v0 "mcpServers") as [x|] eqn:Ev.
    - inversion Es; subst. apply value_get_some_object in Ev as (m & -> & Hm). eauto.
    - destruct v0 as [| | | | |m]; simpl in Es; try discriminate; inversion Es; subst.
      + exists [("mcpServers", VObject [])]. eexists. split; [done|]. done.
      + eexists _, _. split; [done|]. apply JsonMerge.obj_get_insert_same. }
  destruct Hs as (m & x0 & -> & Hg).
  assert (Hx : exists im, x0 = VNull /\ im = [] \/ x0 = VObject im).
  { destruct files as [|f files]; [done|]. cbn [mcp_merge_entries] in H.
    destruct (from_str (content f)); [|discriminate].
    unfold assign2, index_set in H. rewrite Hg in H.
    destruct x0 as [| | | | |im]; try discriminate; eauto. }
  destruct Hx as [im Hx].
  rewrite (mcp_loop files Lm m x0 im HL Hne Hg Hx) in H. inversion H; subst.
  exists Lm, (obj_insert "mcpServers" (VObject (fold_left ins Lm im)) m), (fold_left ins Lm im).
  split; [done|]. split; [done|]. split; [apply JsonMerge.obj_get_insert_same|]. apply fold_twice.
Qed.

(** Such a value is a fixed point of [apply_mcp]'s computation. *)
Lemma mcp_core_fixed files Lm M I :
  mcp_parsed files Lm -> files <> [] ->
  obj_get "mcpServers" M = Some (VObject I) -> fold_left ins Lm I = I ->
  mcp_core files (VObject M) = Ok (VObject M).
Proof.
  intros HL Hne Hg HI. cbn [value_get]. rewrite Hg.
  rewrite (mcp_loop files Lm M (VObject I) I HL Hne Hg (or_intror eq_refl)), HI.
  by rewrite insert_present.
Qed.

Local Abbreviation objents v := (match v with VObject nm => nm | _ => [] end).

Local Abbreviation set_parsed files vs := (Forall2 (fun f v => from_str (content f) = Ok v) files vs).

Lemma settings_loop_object files vs sm :
  set_parsed files vs ->
  settings_entries from_str files (VObject sm)
  = Ok (VObject (fold_left ins (List.concat (map (fun v => objents v) vs)) sm)).
Proof.
  intros HL. revert sm. induction HL as [|f v files vs Hf HL IH]; intros sm; [done|].
  cbn [settings_entries]. rewrite Hf. cbn [map List.concat]. rewrite fold_left_app.
  destruct v; rewrite IH; done.
Qed.

Lemma settings_loop_other files vs s :
  set_parsed files vs -> (forall m, s <> VObject m) -> settings_entries from_str files s = Ok s.
Proof.
  intros HL Hs. induction HL as [|f v files vs Hf HL IH]; [done|].
  cbn [settings_entries]. rewrite Hf.
  replace (match v, s with
           | VObject new_map, VObject settings_map =>
               VObject (fold_left (fun m kv => obj_insert (fst kv) (snd kv) m) new_map settings_map)
           | _, _ => s end) with s by (destruct v, s; try done; exfalso; by eapply Hs).
  done.
Qed.

Lemma settings_loop_parsed files s r :
  settings_entries from_str files s = Ok r -> exists vs, set_parsed files vs.
Proof.
  revert s. induction files as [|f files IH]; intros s H; [by exists []|].
  cbn [settings_entries] in H. destruct (from_str (content f)) as [v|] eqn:Ef; [|discriminate].
  destruct (IH _ H) as [vs Hvs]. exists (v :: vs). by constructor.
Qed.

(** The settings merge is a fixed point of itself. *)
Lemma settings_twice files s r :
  settings_entries from_str files s = Ok r -> settings_entries from_str files r = Ok r.
Proof.
  intros H. destruct (settings_loop_parsed _ _ _ H) as [vs HL].
  destruct s as [| | | | |sm];
    try (rewrite (settings_loop_other _ _ _ HL) in H by done; inversion H; subst;
         by apply (settings_loop_other _ vs)).
  rewrite (settings_loop_object _ _ _ HL) in H. inversion H; subst.
  rewrite (settings_loop_object _ _ _ HL). by rewrite fold_twice.
Qed.

(** A settings merge whose files have no key [mcpServers] keeps a value
    that [apply_mcp]'s computation leaves as it is. *)
Lemma settings_keeps_mcp files s r files' :
  (forall f nm, In f files -> from_str (content f) = Ok (VObject nm) -> obj_get "mcpServers" nm = None) ->
  settings_entries from_str files s = Ok r ->
  files' <> [] ->
  (exists Lm M I, mcp_parsed files' Lm /\ s = VObject M /\
     obj_get "mcpServers" M = Some (VObject I) /\ fold_left ins Lm I = I) ->
  mcp_core files' r = Ok r.
Proof.
  intros Hk H Hne (Lm & M & I & HL & -> & Hg & HI).
  destruct (settings_loop_parsed _ _ _ H) as [vs Hvs].
  rewrite (settings_loop_object _ _ _ Hvs) in H. inversion H; subst. clear H.
  apply (mcp_core_fixed _ Lm _ I); try done.
  rewrite fold_get_notin; [done|].
  intros Hin. apply in_map_iff in Hin as ([k x] & Hkx & Hin). simpl in Hkx. subst k.
  apply in_concat in Hin as (nm0 & Hnm0 & Hin).
  apply in_map_iff in Hnm0 as (v & <- & Hv).
  destruct (forall2_in_r _ _ _ _ Hvs Hv) as (f & Hf & Hfv).
  destruct v as [| | | | |nm]; [done..|].
  pose proof (Hk f nm Hf Hfv) as Hn. apply JsonFacts.obj_get_none in Hn. apply Hn.
  by apply (in_map fst _ ("mcpServers", x)).
Qed.

Variable pp : Value -> string.

Local Abbreviation holds u t c := (exists e, fs u !! t = Some e /\ normalize_content e = normalize_content c).

Lemma apply_mcp_eq files strategy mode result u :
  files <> [] ->
  apply_mcp from_str pp files strategy mode result u =
  match start strategy u with
  | Ok v0 =>
      match mcp_core files v0 with
      | Ok v => let '(u', m', r') := write_with_conflict u SETTINGS_LOCAL (pp v) mode result SETTINGS_LOCAL in
                (Ok (m', r'), u')
      | Err e => (Err e, u)
      end
  | Err e => (Err e, u)
  end.
Proof.
  intros Hne. destruct files as [|f files]; [done|].
  unfold apply_mcp, read_settings, bind, get_world, lift_result, ret, fail, wwc.
  destruct strategy; [destruct (fs u !! SETTINGS_LOCAL) as [c|]; [destruct (from_str c) as [v0|e]|]|];
    cbv beta iota; try done;
    repeat (case_match; simplify_eq/=; try done).
Qed.

Lemma apply_settings_eq files strategy mode result u :
  files <> [] ->
  apply_settings from_str pp files strategy mode result u =
  match start strategy u with
  | Ok v0 =>
      match settings_entries from_str files v0 with
      | Ok v => let '(u', m', r') := write_with_conflict u SETTINGS_LOCAL (pp v) mode result SETTINGS_LOCAL in
                (Ok (m', r'), u')
      | Err e => (Err e, u)
      end
  | Err e => (Err e, u)
  end.
Proof.
  intros Hne. destruct files as [|f files]; [done|].
  unfold apply_settings, read_settings, bind, get_world, lift_result, ret, fail, wwc.
  destruct strategy; [destruct (fs u !! SETTINGS_LOCAL) as [c|]; [destruct (from_str c) as [v0|e]|]|];
    cbv beta iota; try done;
    repeat (case_match; simplify_eq/=; try done).
Qed.

Local Abbreviation inv u Pre := (forall t c d, In (t, c, d) Pre -> holds u t c).
Local Abbreviation addL q L :=
  {| created := created q; updated := updated q; skipped := skipped q; unchanged := unchanged q ++ L |}.

Section RoundTrip.
Hypothesis pp_parse : forall v, from_str (pp v) = Ok v.
Hypothesis parse_normalize : forall s v v',
  from_str s = Ok v -> normalize_content s = normalize_content (pp v') -> v = v'.

(** A [Force] write of a JSON value to [.claude/settings.local.json]. *)
Lemma json_write_force strategy v0 v result u :
  start strategy u = Ok v0 ->
  let '(u', m', r') := write_with_conflict u SETTINGS_LOCAL (pp v) Force result SETTINGS_LOCAL in
  m' = Force /\ (forall k, k <> SETTINGS_LOCAL -> fs u' !! k = fs u !! k) /\
  holds u' SETTINGS_LOCAL (pp v) /\
  (strategy = Concat -> exists s, fs u' !! SETTINGS_LOCAL = Some s /\ from_str s = Ok v).
Proof.
  intros Hs. unfold write_with_conflict.
  destruct (fs u !! SETTINGS_LOCAL) as [c|] eqn:Ec.
  - destruct (String.eqb_spec (normalize_content c) (normalize_content (pp v))) as [Heq|Hne].
    + split; [done|]. split; [done|]. split; [by exists c|].
      intros ->. exists c. split; [done|]. cbn in Hs.
      by rewrite <- (parse_normalize c v0 v Hs Heq).
    + cbn. split; [done|]. split; [intros k Hk; by rewrite lookup_insert_ne by congruence|].
      rewrite lookup_insert_eq. split; [by eexists|]. intros _. by eexists.
  - cbn. split; [done|]. split; [intros k Hk; by rewrite lookup_insert_ne by congruence|].
    rewrite lookup_insert_eq. split; [by eexists|]. intros _. by eexists.
Qed.


Lemma write_plan_force_mode u Q q : snd (fst (write_plan u Q Force q)) = Force.
Proof.
  revert u q. induction Q as [|[[t c] d] Q IH]; intros u q; [done|].
  rewrite RootPlan.write_plan_cons. simpl.
  destruct (write_with_conflict u t c Force q d) as [[u1 m1] q1] eqn:E.
  assert (m1 = Force) as ->.
  { change m1 with (snd (fst (u1, m1, q1))). rewrite <- E. unfold write_with_conflict.
    destruct (fs u !! t); [|done]. destruct (String.eqb _ _); done. }
  apply IH.
Qed.

Lemma fixed_sec {B} sec Q Pre u q (k : ConflictMode * ApplyResult -> M B) b w' :
  runs_plan sec Q -> NoDup (map item_target Q) ->
  (forall t, t ∈ map item_target Pre -> t ∉ map item_target Q) -> inv u Pre ->
  bind (sec Force q) k u = (Ok b, w') ->
  exists u' q', k (Force, q') u' = (Ok b, w') /\ inv u' (Pre ++ Q) /\
    (forall t, t ∉ map item_target Q -> fs u' !! t = fs u !! t).
Proof.
  intros Hr Hnd Hdis Hinv H.
  rewrite (Idem.bind_runs _ _ _ _ _ _ Hr) in H.
  pose proof (write_plan_force_mode u Q q) as Hm.
  pose proof (Idem.write_plan_force_written u Q q Hnd) as Hw.
  pose proof (Idem.write_plan_other u Q Force q) as Ho.
  destruct (write_plan u Q Force q) as [[u' m'] q'] eqn:E. simpl in Hm, Hw, Ho. subst m'.
  exists u', q'. split; [done|]. split.
  - intros t c d Hi. apply in_app_or in Hi as [Hi|Hi].
    + destruct (Hinv t c d Hi) as (e & He & Hn). exists e. rewrite Ho; [done|].
      rewrite <- list_elem_of_In. apply Hdis. apply list_elem_of_In, in_map_iff. by exists (t, c, d).
    + exact (Hw t c d Hi).
  - intros t Ht. apply Ho. by rewrite <- list_elem_of_In.
Qed.

Lemma json_sec {B} (sec : ConflictMode -> ApplyResult -> M (ConflictMode * ApplyResult))
    (core : Value -> Result Value) strategy Pre u q (k : ConflictMode * ApplyResult -> M B) b w' :
  (forall mode result u, sec mode result u =
     match start strategy u with
     | Ok v0 =>
         match core v0 with
         | Ok v => let '(u', m', r') := write_with_conflict u SETTINGS_LOCAL (pp v) mode result SETTINGS_LOCAL in
                   (Ok (m', r'), u')
         | Err e => (Err e, u)
         end
     | Err e => (Err e, u)
     end) ->
  SETTINGS_LOCAL ∉ map item_target Pre -> inv u Pre ->
  bind (sec Force q) k u = (Ok b, w') ->
  exists v0 v u' q', start strategy u = Ok v0 /\ core v0 = Ok v /\ k (Force, q') u' = (Ok b, w') /\
    inv u' Pre /\ (forall t, t <> SETTINGS_LOCAL -> fs u' !! t = fs u !! t) /\
    holds u' SETTINGS_LOCAL (pp v) /\
    (strategy = Concat -> exists s, fs u' !! SETTINGS_LOCAL = Some s /\ from_str s = Ok v).
Proof.
  intros Hsec Hnot Hinv H. unfold bind in H. rewrite Hsec in H.
  destruct (start strategy u) as [v0|e] eqn:Es; [|discriminate].
  destruct (core v0) as [v|e] eqn:Ec; [|discriminate].
  pose proof (json_write_force strategy v0 v q u Es) as Hw.
  destruct (write_with_conflict u SETTINGS_LOCAL (pp v) Force q SETTINGS_LOCAL) as [[u' m'] q'].
  destruct Hw as (-> & Hfr & Hh & Hc).
  exists v0, v, u', q'. split; [done|]. split; [done|]. split; [done|]. split; [|done].
  intros t c d Hi. destruct (Hinv t c d Hi) as (e & He & Hn). exists e. rewrite Hfr; [done|].
  intros ->. apply Hnot. apply list_elem_of_In, in_map_iff. by exists (SETTINGS_LOCAL, c, d).
Qed.

Lemma mcp_sec {B} files strategy Pre u q (k : ConflictMode * ApplyResult -> M B) b w' :
  (files <> [] -> SETTINGS_LOCAL ∉ map item_target Pre) -> inv u Pre ->
  bind (apply_mcp from_str pp files strategy Force q) k u = (Ok b, w') ->
  exists u' q', k (Force, q') u' = (Ok b, w') /\ inv u' Pre /\
    (forall t, t <> SETTINGS_LOCAL -> fs u' !! t = fs u !! t) /\
    (files = [] /\ u' = u \/
     files <> [] /\ exists v0 v, start strategy u = Ok v0 /\ mcp_core files v0 = Ok v /\ holds u' SETTINGS_LOCAL (pp v) /\
       (strategy = Concat -> exists s, fs u' !! SETTINGS_LOCAL = Some s /\ from_str s = Ok v)).
Proof.
  intros Hnot Hinv H. destruct files as [|f files].
  - exists u, q. split; [exact H|]. split; [done|]. split; [done|]. by left.
  - destruct (json_sec _ (fun v0 => mcp_core (f :: files) v0) strategy Pre u q k b w'
      (fun mode result u => apply_mcp_eq (f :: files) strategy mode result u ltac:(done))
      (Hnot ltac:(done)) Hinv H) as (v0 & v & u' & q' & Hs & Hc & Hk & Hi & Hfr & Hh & HC).
    exists u', q'. split; [done|]. split; [done|]. split; [done|]. right. split; [done|]. by exists v0, v.
Qed.

Lemma settings_sec {B} files strategy Pre u q (k : ConflictMode * ApplyResult -> M B) b w' :
  (files <> [] -> SETTINGS_LOCAL ∉ map item_target Pre) -> inv u Pre ->
  bind (apply_settings from_str pp files strategy Force q) k u = (Ok b, w') ->
  exists u' q', k (Force, q') u' = (Ok b, w') /\ inv u' Pre /\
    (files = [] /\ u' = u \/
     files <> [] /\ exists v0 v, start strategy u = Ok v0 /\ settings_entries from_str files v0 = Ok v /\
       holds u' SETTINGS_LOCAL (pp v) /\
       (strategy = Concat -> exists s, fs u' !! SETTINGS_LOCAL = Some s /\ from_str s = Ok v)).
Proof.
  intros Hnot Hinv H. destruct files as [|f files].
  - exists u, q. split; [exact H|]. split; [done|]. by left.
  - destruct (json_sec _ (settings_entries from_str (f :: files)) strategy Pre u q k b w'
      (fun mode result u => apply_settings_eq (f :: files) strategy mode result u ltac:(done))
      (Hnot ltac:(done)) Hinv H) as (v0 & v & u' & q' & Hs & Hc & Hk & Hi & Hfr & Hh & HC).
    exists u', q'. split; [done|]. split; [done|]. right. split; [done|]. by exists v0, v.
Qed.


Lemma fixed_quiet {B} sec Q u m q (k : ConflictMode * ApplyResult -> M B) :
  runs_plan sec Q -> inv u Q -> bind (sec m q) k u = k (m, addL q (map item_display Q)) u.
Proof.
  intros Hr Hi. rewrite (Idem.bind_runs _ _ _ _ _ _ Hr). by rewrite Idem.write_plan_all_present.
Qed.

Lemma unchanged_json u c m q :
  holds u SETTINGS_LOCAL c ->
  write_with_conflict u SETTINGS_LOCAL c m q SETTINGS_LOCAL = (u, m, add_unchanged q SETTINGS_LOCAL).
Proof.
  intros (e & He & Hn). unfold write_with_conflict. by rewrite He, Hn, String.eqb_refl.
Qed.

Lemma addL_nil q : addL q [] = q.
Proof. destruct q. simpl. by rewrite app_nil_r. Qed.

Lemma mcp_quiet {B} files strategy u m q (k : ConflictMode * ApplyResult -> M B) :
  (files = [] \/ exists v0 v, start strategy u = Ok v0 /\ mcp_core files v0 = Ok v /\
     holds u SETTINGS_LOCAL (pp v)) ->
  bind (apply_mcp from_str pp files strategy m q) k u = k (m, addL q (once_if files SETTINGS_LOCAL)) u.
Proof.
  intros H. destruct files as [|f files]; [simpl; by rewrite addL_nil|].
  destruct H as [H|(v0 & v & Hs & Hc & Hh)]; [done|].
  unfold bind. rewrite apply_mcp_eq by done. rewrite Hs, Hc, unchanged_json by done. done.
Qed.

Lemma settings_quiet {B} files strategy u m q (k : ConflictMode * ApplyResult -> M B) :
  (files = [] \/ exists v0 v, start strategy u = Ok v0 /\ settings_entries from_str files v0 = Ok v /\
     holds u SETTINGS_LOCAL (pp v)) ->
  bind (apply_settings from_str pp files strategy m q) k u
  = k (m, addL q (once_if files SETTINGS_LOCAL)) u.
Proof.
  intros H. destruct files as [|f files]; [simpl; by rewrite addL_nil|].
  destruct H as [H|(v0 & v & Hs & Hc & Hh)]; [done|].
  unfold bind. rewrite apply_settings_eq by done. rewrite Hs, Hc, unchanged_json by done. done.
Qed.

Lemma targets_memory files : map item_target (memory_items files) = once_if files CLAUDE_MD.
Proof. by destruct files. Qed.

Lemma displays_memory files : map item_display (memory_items files) = once_if files CLAUDE_MD.
Proof. by destruct files. Qed.

Lemma hooks_shape files ph :
  hooks_items from_str pp files = Some ph ->
  map item_target ph = once_if files HOOKS_JSON /\ map item_display ph = once_if files HOOKS_JSON.
Proof.
  destruct files as [|f files]; intros H; [by inversion H|].
  unfold hooks_items in H. destruct (hooks_entries _ _ _) as [h|e]; [|discriminate].
  by inversion H.
Qed.

Lemma hooks_err files mode q u :
  hooks_items from_str pp files = None -> exists e u', apply_hooks from_str pp files mode q u = (Err e, u').
Proof.
  destruct files as [|f files]; intros H; [discriminate|].
  unfold hooks_items in H. unfold apply_hooks, bind, lift_result.
  destruct (hooks_entries _ _ _) as [h|e]; [discriminate|]. by exists e, u.
Qed.

Lemma err_bind_r {A B} (m : M A) (k : A -> M B) u :
  (forall a u', exists e u'', k a u' = (Err e, u'')) -> exists e u', bind m k u = (Err e, u').
Proof. intros Hk. unfold bind. destruct (m u) as [[a|e] u']; [apply Hk|by exists e, u']. Qed.

Lemma err_bind_l {A B} (m : M A) (k : A -> M B) u :
  (exists e u', m u = (Err e, u')) -> exists e u', bind m k u = (Err e, u').
Proof. intros (e & u' & H). unfold bind. rewrite H. by exists e, u'. Qed.

Lemma claude_hooks_ok tf mode w r w' :
  claude_apply from_str pp tf mode w = (Ok r, w') -> exists ph, hooks_items from_str pp (hooks tf) = Some ph.
Proof.
  intros H. destruct (hooks_items from_str pp (hooks tf)) as [ph|] eqn:Eh; [by exists ph|exfalso].
  assert (Herr : exists e u', claude_apply from_str pp tf mode w = (Err e, u')).
  { unfold claude_apply.
    apply err_bind_r; intros ? ?. apply err_bind_r; intros ? ?. apply err_bind_r; intros ? ?.
    apply err_bind_r; intros ? ?. apply err_bind_l. by apply hooks_err. }
  destruct Herr as (e & u' & He). congruence.
Qed.

(** The second run: every section finds its files as it would write them. *)
Lemma claude_run_quiet tf ph u m :
  (memory_strategy tf = Replace \/ memory tf = []) ->
  hooks_items from_str pp (hooks tf) = Some ph ->
  inv u (map (claude_item "rules") (rules tf) ++ memory_items (memory tf) ++
         map (claude_item "commands") (commands tf) ++ ph ++
         map (claude_item "agents") (agents tf) ++ map (claude_item "skills") (skills tf)) ->
  (mcp tf = [] \/ exists v0 v, start (mcp_strategy tf) u = Ok v0 /\ mcp_core (mcp tf) v0 = Ok v /\
     holds u SETTINGS_LOCAL (pp v)) ->
  (settings tf = [] \/ exists v0 v, start (settings_strategy tf) u = Ok v0 /\
     settings_entries from_str (settings tf) v0 = Ok v /\ holds u SETTINGS_LOCAL (pp v)) ->
  claude_apply from_str pp tf m u
  = (Ok {| created := []; updated := []; skipped := []; unchanged := claude_displays tf |}, u).
Proof.
  intros Hm Hh Hi Hc Hs. unfold claude_apply.
  rewrite (fixed_quiet _ _ _ _ _ _ (Idem.claude_dir_runs "rules" (rules tf)))
    by (intros t c d Ht; apply (Hi t c d); rewrite !in_app_iff; tauto).
  cbn [fst snd].
  rewrite (fixed_quiet _ _ _ _ _ _ (Idem.memory_runs _ _ Hm))
    by (intros t c d Ht; apply (Hi t c d); rewrite !in_app_iff; tauto).
  cbn [fst snd].
  rewrite (fixed_quiet _ _ _ _ _ _ (Idem.claude_dir_runs "commands" (commands tf)))
    by (intros t c d Ht; apply (Hi t c d); rewrite !in_app_iff; tauto).
  cbn [fst snd].
  rewrite (mcp_quiet _ _ _ _ _ _ Hc). cbn [fst snd].
  rewrite (fixed_quiet _ _ _ _ _ _ (Idem.hooks_runs _ _ _ _ Hh))
    by (intros t c d Ht; apply (Hi t c d); rewrite !in_app_iff; tauto).
  cbn [fst snd].
  rewrite (fixed_quiet _ _ _ _ _ _ (Idem.claude_dir_runs "agents" (agents tf)))
    by (intros t c d Ht; apply (Hi t c d); rewrite !in_app_iff; tauto).
  cbn [fst snd].
  rewrite (fixed_quiet _ _ _ _ _ _ (Idem.claude_dir_runs "skills" (skills tf)))
    by (intros t c d Ht; apply (Hi t c d); rewrite !in_app_iff; tauto).
  cbn [fst snd].
  rewrite (settings_quiet _ _ _ _ _ _ Hs). cbn [fst snd].
  unfold ret. cbn [created updated skipped unchanged ApplyResult_new].
  unfold claude_displays. rewrite displays_memory, (proj2 (hooks_shape _ _ Hh)).
  by rewrite <- !app_assoc.
Qed.

Ltac split_in H :=
  match type of H with
  | _ \/ _ => let H1 := fresh H in let H2 := fresh H in destruct H as [H1|H2]; [split_in H1|split_in H2]
  | _ => idtac
  end.

Ltac in_app :=
  first [ assumption
        | apply (proj2 (elem_of_app _ _ _)); first [left; in_app | right; in_app] ].

Ltac disj_close :=
  match goal with
  | H1 : ?x ∈ [] |- False => by apply elem_of_nil in H1
  | H1 : ?x ∈ map _ [] |- False => by apply elem_of_nil in H1
  | H1 : ?x ∈ ?A, D : forall y, y ∈ ?A -> y ∉ _ |- False => apply (D x H1); in_app
  end.

Ltac disj :=
  let t := fresh "t" in let Ht := fresh "Ht" in let Ht' := fresh "Ht" in
  intros t Ht Ht'; rewrite ?map_app, ?elem_of_app in Ht; split_in Ht; disj_close.

Ltac disj_sl :=
  let Ht := fresh "Ht" in
  intros Ht; rewrite ?map_app, ?elem_of_app in Ht; split_in Ht; disj_close.

(** The first run, under [Force]: what it leaves for the second one. *)
Lemma claude_run_force tf w r1 w1 :
  (memory_strategy tf = Replace \/ memory tf = []) ->
  (mcp tf = [] \/ settings tf = [] \/
   (mcp_strategy tf = Concat /\ settings_strategy tf = Concat /\
    forall f nm, In f (settings tf) -> from_str (content f) = Ok (VObject nm) ->
      obj_get "mcpServers" nm = None)) ->
  NoDup (claude_targets tf) ->
  claude_apply from_str pp tf Force w = (Ok r1, w1) ->
  exists ph, hooks_items from_str pp (hooks tf) = Some ph /\
    inv w1 (map (claude_item "rules") (rules tf) ++ memory_items (memory tf) ++
            map (claude_item "commands") (commands tf) ++ ph ++
            map (claude_item "agents") (agents tf) ++ map (claude_item "skills") (skills tf)) /\
    (mcp tf = [] \/ exists v0 v, start (mcp_strategy tf) w1 = Ok v0 /\ mcp_core (mcp tf) v0 = Ok v /\
       holds w1 SETTINGS_LOCAL (pp v)) /\
    (settings tf = [] \/ exists v0 v, start (settings_strategy tf) w1 = Ok v0 /\
       settings_entries from_str (settings tf) v0 = Ok v /\ holds w1 SETTINGS_LOCAL (pp v)).
Proof.
  intros Hm Hjs Hnd H.
  destruct (claude_hooks_ok _ _ _ _ _ H) as [ph Eh]. exists ph. split; [done|].
  unfold claude_targets in Hnd.
  rewrite <- (targets_memory (memory tf)), <- (proj1 (hooks_shape _ _ Eh)) in Hnd.
  assert (HJ : mcp tf <> [] \/ settings tf <> [] ->
               SETTINGS_LOCAL ∈ once_if (mcp tf ++ settings tf) SETTINGS_LOCAL).
  { intros Hne. destruct (mcp tf); [destruct (settings tf)|]; [by destruct Hne|..];
      simpl; by left. }
  set (PR := map (claude_item "rules") (rules tf)) in *.
  set (PM := memory_items (memory tf)) in *.
  set (PC := map (claude_item "commands") (commands tf)) in *.
  set (PA := map (claude_item "agents") (agents tf)) in *.
  set (PS := map (claude_item "skills") (skills tf)) in *.
  set (J := once_if (mcp tf ++ settings tf) SETTINGS_LOCAL) in *.
  rewrite !NoDup_app in Hnd.
  destruct Hnd as (NR & DR & NM & DM & NC & DC & NJ & DJ & NH & DH & NA & DA & NS).
  unfold claude_apply in H.
  destruct (fixed_sec _ PR [] w ApplyResult_new _ _ _ (Idem.claude_dir_runs "rules" (rules tf)) NR
    ltac:(disj) ltac:(done) H) as (u1 & q1 & H1 & I1 & _).
  cbn [fst snd] in H1.
  destruct (fixed_sec _ PM ([] ++ PR) u1 q1 _ _ _ (Idem.memory_runs _ _ Hm) NM
    ltac:(disj) I1 H1) as (u2 & q2 & H2 & I2 & _).
  cbn [fst snd] in H2.
  destruct (fixed_sec _ PC (([] ++ PR) ++ PM) u2 q2 _ _ _ (Idem.claude_dir_runs "commands" (commands tf)) NC
    ltac:(disj) I2 H2) as (u3 & q3 & H3 & I3 & _).
  cbn [fst snd] in H3.
  destruct (mcp_sec (mcp tf) (mcp_strategy tf) ((([] ++ PR) ++ PM) ++ PC) u3 q3 _ _ _
    ltac:(intros Hne; specialize (HJ (or_introl Hne)); disj_sl) I3 H3)
    as (u4 & q4 & H4 & I4 & _ & Mi).
  cbn [fst snd] in H4.
  destruct (fixed_sec _ ph ((([] ++ PR) ++ PM) ++ PC) u4 q4 _ _ _ (Idem.hooks_runs _ _ _ _ Eh) NH
    ltac:(disj) I4 H4) as (u5 & q5 & H5 & I5 & F5).
  cbn [fst snd] in H5.
  destruct (fixed_sec _ PA (((([] ++ PR) ++ PM) ++ PC) ++ ph) u5 q5 _ _ _ (Idem.claude_dir_runs "agents" (agents tf)) NA
    ltac:(disj) I5 H5) as (u6 & q6 & H6 & I6 & F6).
  cbn [fst snd] in H6.
  destruct (fixed_sec _ PS ((((([] ++ PR) ++ PM) ++ PC) ++ ph) ++ PA) u6 q6 _ _ _ (Idem.claude_dir_runs "skills" (skills tf)) NS
    ltac:(disj) I6 H6) as (u7 & q7 & H7 & I7 & F7).
  cbn [fst snd] in H7.
  destruct (settings_sec (settings tf) (settings_strategy tf) (((((([] ++ PR) ++ PM) ++ PC) ++ ph) ++ PA) ++ PS) u7 q7 _ _ _
    ltac:(intros Hne; specialize (HJ (or_intror Hne)); disj_sl) I7 H7)
    as (u8 & q8 & H8 & I8 & Si).
  unfold ret in H8. cbn [fst snd] in H8. injection H8 as <- <-.
  assert (S74 : mcp tf <> [] -> fs u7 !! SETTINGS_LOCAL = fs u4 !! SETTINGS_LOCAL).
  { intros Hne. specialize (HJ (or_introl Hne)).
    rewrite F7, F6, F5; [done|intros Hx; disj_close..]. }
  split; [|split].
  - intros t c d Hi. apply (I8 t c d). rewrite !in_app_iff in Hi |- *. clear - Hi. tauto.
  - destruct (decide (mcp tf = [])) as [Hc0|Hc0]; [by left|right].
    destruct Mi as [[? _]|(_ & v0 & v & Hst & Hco & Hh4 & HC4)]; [done|].
    specialize (S74 Hc0).
    destruct (decide (settings tf = [])) as [Hs0|Hs0].
    + destruct Si as [[_ ->]|[? _]]; [|done].
      destruct Hh4 as (e4 & He4 & Hn4).
      destruct (mcp_strategy tf) eqn:Ems.
      * destruct (HC4 eq_refl) as (s4 & Hs4 & Hp4).
        exists v, v. split; [by rewrite S74, Hs4|]. split.
        -- destruct (mcp_core_result _ _ _ Hc0 Hco) as (Lm & M & I & HL & -> & Hg & HI).
           exact (mcp_core_fixed _ _ _ _ HL Hc0 Hg HI).
        -- exists e4. by rewrite S74.
      * exists v0, v. split; [done|]. split; [done|]. exists e4. by rewrite S74.
    + destruct Hjs as [?|[?|(Hmc & Hsc & Hno)]]; [done|done|].
      destruct Si as [[? _]|(_ & v0s & vs & Hst8 & Hen & Hh8 & HC8)]; [done|].
      rewrite Hmc in HC4. rewrite Hsc in Hst8, HC8. rewrite Hmc.
      destruct (HC4 eq_refl) as (s4 & Hs4 & Hp4).
      destruct (HC8 eq_refl) as (s8 & Hs8 & Hp8).
      cbn in Hst8. rewrite S74, Hs4, Hp4 in Hst8. injection Hst8 as <-.
      exists vs, vs. split; [cbn; by rewrite Hs8|]. split; [|done].
      apply (settings_keeps_mcp (settings tf) v vs (mcp tf) Hno Hen Hc0).
      exact (mcp_core_result _ _ _ Hc0 Hco).
  - destruct Si as [[Hs0 _]|(Hs0 & v0 & v & Hst & Hen & Hh8 & HC8)]; [by left|right].
    destruct (settings_strategy tf) eqn:Ess.
    + destruct (HC8 eq_refl) as (s8 & Hs8 & Hp8).
      exists v, v. split; [cbn; by rewrite Hs8|]. split; [|done].
      exact (settings_twice _ _ _ Hen).
    + exists v0, v. split; [exact Hst|]. done.
Qed.

End RoundTrip.

End Loops.
End Twice.

(** C2. Applying twice with [Force] changes nothing the second time, under
    conditions. For the root files of [pull_preset] the target paths must
    be distinct. For the Claude adapter:
    - the parser reads back what the printer prints, and any two texts
      that parse and are equal after normalization parse to the same value
      (these hold of [serde_json] on the values it prints);
    - the memory section is empty or under [Replace];
    - the mcp and settings sections are not both non-empty, unless both
      are under [Concat] and no settings file has a key [mcpServers];
    - the target paths are distinct ([.claude/settings.local.json] counted
      once for mcp and settings);
    - the first run succeeds.
    The second run then reports nothing created, updated or skipped, and
    every path of the run as unchanged. It leaves the files as the first
    run left them. *)
Theorem apply_twice_force_idempotent (from_str : string -> Result Value) (pp : Value -> string)
    (tf : PresetFiles) (w : world) :
  (NoDup (map relative_path (root tf)) ->
   let w1 := fst (fst (apply_root_loop w (root tf) Force ApplyResult_new)) in
   apply_root_loop w1 (root tf) Force ApplyResult_new
   = (w1, Force, {| created := []; updated := []; skipped := [];
                    unchanged := map relative_path (root tf) |})) /\
  ((forall v, from_str (pp v) = Ok v) ->
   (forall s v v', from_str s = Ok v -> normalize_content s = normalize_content (pp v') -> v = v') ->
   (memory_strategy tf = Replace \/ memory tf = []) ->
   (mcp tf = [] \/ settings tf = [] \/
    (mcp_strategy tf = Concat /\ settings_strategy tf = Concat /\
     forall f nm, In f (settings tf) -> from_str (content f) = Ok (VObject nm) ->
       obj_get "mcpServers" nm = None)) ->
   NoDup (claude_targets tf) ->
   forall r1 w1, claude_apply from_str pp tf Force w = (Ok r1, w1) ->
   claude_apply from_str pp tf Force w1
   = (Ok {| created := []; updated := []; skipped := []; unchanged := claude_displays tf |}, w1)).
Proof.
  split.
  - intros Hnd. cbv zeta.
    rewrite !RootPlan.apply_root_loop_plan.
    assert (Hnd' : NoDup (map item_target (map root_item (root tf)))) by (by rewrite map_map).
    rewrite (Idem.write_plan_all_present _ (map root_item (root tf)) Force ApplyResult_new).
    + simpl. by rewrite map_map.
    + intros t c d Hi. exact (Idem.write_plan_force_written w _ ApplyResult_new Hnd' t c d Hi).
  - intros H1 H2 Hm Hjs Hnd r1 w1 Hrun.
    destruct (Twice.claude_run_force from_str pp H1 H2 tf w r1 w1 Hm Hjs Hnd Hrun)
      as (ph & Eh & Hi & Hc & Hs).
    exact (Twice.claude_run_quiet from_str pp tf ph w1 Force Hm Eh Hi Hc Hs).
Qed.

Lemma apply_twice_force_idempotent_witness :
  let tf := {| rules := [ {| relative_path := "rules/a.md"; content := "A" |} ];
               memory := [ {| relative_path := "memory/m.md"; content := "M" |} ];
               memory_strategy := Replace;
               commands := [ {| relative_path := "commands/c.md"; content := "C" |} ];
               mcp := [ {| relative_path := "mcp/s.json";
                           content := Codec.rt_pp (VObject [("command", VString "x")]) |} ];
               mcp_strategy := Concat;
               hooks := [ {| relative_path := "hooks/h.json"; content := Codec.rt_pp (VObject []) |} ];
               agents := []; skills := [];
               settings := [ {| relative_path := "settings.json";
                                content := Codec.rt_pp (VObject [("theme", VString "dark")]) |} ];
               settings_strategy := Concat;
               root := [ {| relative_path := "README.md"; content := "R" |} ] |} in
  let w := {| fs := <[ SETTINGS_LOCAL := Codec.rt_pp (VObject [("model", VString "m")]) ]>
                    (<[ CLAUDE_MD := "old" ]> (<[ "README.md" := "R " ]> ∅));
              input := [] |} in
  (let w1 := fst (fst (apply_root_loop w (root tf) Force ApplyResult_new)) in
   apply_root_loop w1 (root tf) Force ApplyResult_new
   = (w1, Force, {| created := []; updated := []; skipped := [];
                    unchanged := map relative_path (root tf) |})) /\
  match claude_apply Codec.rt_from_str Codec.rt_pp tf Force w with
  | (Ok r1, w1) =>
      claude_apply Codec.rt_from_str Codec.rt_pp tf Force w1
      = (Ok {| created := []; updated := []; skipped := [];
               unchanged := [".claude/rules/a.md"; CLAUDE_MD; ".claude/commands/c.md";
                             SETTINGS_LOCAL; HOOKS_JSON; SETTINGS_LOCAL] |}, w1)
  | (Err _, _) => False
  end.
Proof.
  intros tf w.
  destruct (apply_twice_force_idempotent Codec.rt_from_str Codec.rt_pp tf w) as [Hroot Hclaude].
  split.
  - apply Hroot. apply (bool_decide_unpack _). vm_compute. exact I.
  - case_eq (claude_apply Codec.rt_from_str Codec.rt_pp tf Force w). intros [r1|e] w1 E.
    + exact (Hclaude CodecFacts.rt_roundtrip CodecFacts.rt_normalize_inj (or_introl eq_refl)
        ltac:(right; right; split; [reflexivity|]; split; [reflexivity|];
              intros f nm Hin Hp; destruct Hin as [<-|[]];
              vm_compute in Hp; injection Hp as <-; reflexivity)
        ltac:(apply (bool_decide_unpack _); vm_compute; exact I) r1 w1 E).
    + vm_compute in E. discriminate E.
Defined.

(** C2, counterexample: the excluded cases, with a parser that reads back
    what the printer prints. The project starts empty, and each preset is
    applied twice with [Force].
    - With a memory section under [Concat] (the default strategy), the
      second run appends to [.claude/CLAUDE.md] again and reports it
      updated.
    - With an mcp server and a settings file under (Replace, Replace),
      (Replace, Concat) or (Concat, Replace), each section overwrites the
      other's [.claude/settings.local.json] again, and the second run
      reports it updated twice.
    - The same happens under (Concat, Concat) when the settings file sets
      [mcpServers]. *)
Lemma apply_twice_force_counterexample :
  (forall v, Codec.rt_from_str (Codec.rt_pp v) = Ok v) /\
  let empty := {| fs := ∅; input := [] |} in
  let mem := {| rules := []; memory := [ {| relative_path := "memory/m.md"; content := "M" |} ];
                memory_strategy := Concat; commands := []; mcp := []; mcp_strategy := Concat;
                hooks := []; agents := []; skills := []; settings := []; settings_strategy := Concat;
                root := [] |} in
  let json := fun ms ss sv =>
    {| rules := []; memory := []; memory_strategy := Concat; commands := [];
       mcp := [ {| relative_path := "mcp/s.json";
                   content := Codec.rt_pp (VObject [("command", VString "x")]) |} ];
       mcp_strategy := ms; hooks := []; agents := []; skills := [];
       settings := [ {| relative_path := "settings.json"; content := Codec.rt_pp sv |} ];
       settings_strategy := ss; root := [] |} in
  let second := fun tf =>
    match claude_apply Codec.rt_from_str Codec.rt_pp tf Force empty with
    | (Ok _, w1) =>
        match claude_apply Codec.rt_from_str Codec.rt_pp tf Force w1 with
        | (Ok r2, w2) => Some (r2, fs w2 !! CLAUDE_MD)
        | (Err _, _) => None
        end
    | (Err _, _) => None
    end in
  let dark := VObject [("theme", VString "dark")] in
  let twice_updated := {| created := []; updated := [SETTINGS_LOCAL; SETTINGS_LOCAL];
                          skipped := []; unchanged := [] |} in
  second mem = Some ({| created := []; updated := [CLAUDE_MD]; skipped := []; unchanged := [] |},
                     Some ("M" ++ MEMORY_SEP ++ "M")) /\
  second (json Replace Replace dark) = Some (twice_updated, None) /\
  second (json Replace Concat dark) = Some (twice_updated, None) /\
  second (json Concat Replace dark) = Some (twice_updated, None) /\
  second (json Concat Concat (VObject [("mcpServers", VObject [])])) = Some (twice_updated, None).
Proof.
  split; [exact CodecFacts.rt_roundtrip|].
  vm_compute. repeat split.
Qed.
